(** * lagomorph: the fluid metric and the adjoint representation

    A shallow embedding of [lagomorph/metric.py] (class [FluidMetric]) and
    [lagomorph/adjrep.py] (class [AdjRep]) in exact real arithmetic.

    Python objects that are mutated in place (GPU arrays) live in a store and
    are passed by reference; Python exceptions are the [Raise] results of a
    state-and-error monad; floats are real numbers. *)

From Stdlib Require Import Reals Lra Lia ZArith List String Bool Arith.
From Stdlib Require Import FunctionalExtensionality.
Import ListNotations.


(** ** Exceptions and results *)

Inductive exn : Type :=
| IndexError
| InvalidDimension (d : Z)          (* Exception(f"Invalid dimension: {self.dim}") *)
| UnsupportedPrecision (p : string) (* Exception(f"Unsupported precision: {precision}") *)
| NotImplementedError               (* NotImplementedError("not implemented yet") *)
| AssertionError (msg : string)
| ValueError (msg : string)         (* raised by skcuda.fft.Plan *)
| BackendError.                     (* raised inside pycuda / skcuda *)

Inductive result (A : Type) : Type :=
| Ok (a : A)
| Raise (e : exn).

Arguments Ok {A} a.
Arguments Raise {A} e.

(** ** Complex numbers as pairs of reals *)

Definition C : Type := (R * R)%type.

Module Cx.
Local Open Scope R_scope.
Definition zero : C := (0, 0).
Definition one : C := (1, 0).
Definition of_R (x : R) : C := (x, 0).
Definition re (z : C) : R := fst z.
Definition im (z : C) : R := snd z.
Definition add (z w : C) : C := (fst z + fst w, snd z + snd w).
Definition opp (z : C) : C := (- fst z, - snd z).
Definition sub (z w : C) : C := (fst z - fst w, snd z - snd w).
Definition mul (z w : C) : C :=
  (fst z * fst w - snd z * snd w, fst z * snd w + snd z * fst w).
Definition scal (a : R) (z : C) : C := (a * fst z, a * snd z).
Definition conj (z : C) : C := (fst z, - snd z).
(** [cis t] is exp(i t). *)
Definition cis (t : R) : C := (cos t, sin t).
(** Sum of [f 0 .. f (n-1)]. *)
Fixpoint sum (n : nat) (f : nat -> C) : C :=
  match n with
  | O => zero
  | S n' => add (sum n' f) (f n')
  end.
End Cx.

(** Sum of [f 0 .. f (n-1)] over the reals. *)
Fixpoint Rsum (n : nat) (f : nat -> R) : R :=
  match n with
  | O => 0%R
  | S n' => (Rsum n' f + f n')%R
  end.

(** ** GPU arrays and the store *)

(** numpy's dtypes, as far as the metric uses them. *)
Inductive np_dtype : Type := float32 | float64 | complex64 | complex128.

(** A multi-index, slowest axis first (C order). *)
Definition index : Type := list nat.

Inductive buffer : Type :=
| RealBuf (f : index -> R)
| CplxBuf (f : index -> C).

Record gpuarray : Type := mkArr {
  a_shape : list Z;
  a_dtype : np_dtype;
  c_contiguous : bool;       (* flags.c_contiguous *)
  a_buf : buffer
}.

(** [in_shape sh idx]: [idx] addresses an element of an array of shape [sh]. *)
Fixpoint in_shape (sh : list Z) (idx : index) : bool :=
  match sh, idx with
  | [], [] => true
  | n :: sh', i :: idx' => (Z.of_nat i <? n)%Z && in_shape sh' idx'
  | _, _ => false
  end.

(** Element count of a shape: [x.size]. *)
Definition size_of (sh : list Z) : Z := fold_right Z.mul 1%Z sh.

Definition is_complex (d : np_dtype) : bool :=
  match d with complex64 | complex128 => true | _ => false end.

(** Functions are total; everything outside the shape is kept at zero so
    that no value can travel through an element the array does not have. *)
Definition maskR (sh : list Z) (f : index -> R) : index -> R :=
  fun idx => if in_shape sh idx then f idx else 0%R.
Definition maskC (sh : list Z) (f : index -> C) : index -> C :=
  fun idx => if in_shape sh idx then f idx else Cx.zero.

Definition loc : Type := nat.

Record world : Type := mkWorld {
  heap : loc -> option gpuarray;
  next : loc;                (* first address never allocated *)
  stdout : list string;      (* lines printed so far, oldest first *)
  copied : list (loc * loc)  (* array copies made so far: (source, copy) *)
}.

Definition upd (h : loc -> option gpuarray) (l : loc) (a : gpuarray) :
  loc -> option gpuarray :=
  fun l' => if Nat.eqb l' l then Some a else h l'.

(** ** The monad of Python computations *)

Definition M (A : Type) : Type := world -> result A * world.

Definition ret {A} (a : A) : M A := fun w => (Ok a, w).
Definition raise {A} (e : exn) : M A := fun w => (Raise e, w).
Definition bind {A B} (m : M A) (k : A -> M B) : M B :=
  fun w => match m w with
           | (Ok a, w') => k a w'
           | (Raise e, w') => (Raise e, w')
           end.

Declare Scope py_scope.
Delimit Scope py_scope with py.
Notation "x <- m ;; k" := (bind m (fun x => k))
  (at level 61, m at next level, right associativity) : py_scope.
Notation "m ;;; k" := (bind m (fun _ => k))
  (at level 61, right associativity) : py_scope.
Open Scope py_scope.

Definition print (s : string) : M unit :=
  fun w => (Ok tt, mkWorld (heap w) (next w) (stdout w ++ [s]) (copied w)).

(** [assert c, msg] *)
Definition assert (c : bool) (msg : string) : M unit :=
  if c then ret tt else raise (AssertionError msg).

Definition load (l : loc) : M gpuarray :=
  fun w => match heap w l with
           | Some a => (Ok a, w)
           | None => (Raise BackendError, w)
           end.

(** The array [a] with its contents replaced by [b]. *)
Definition with_buf (a : gpuarray) (b : buffer) : gpuarray :=
  mkArr (a_shape a) (a_dtype a) (c_contiguous a) b.

(** The world [w] with the array [a] placed at address [l]. *)
Definition put (w : world) (l : loc) (a : gpuarray) : world :=
  mkWorld (upd (heap w) l a) (next w) (stdout w) (copied w).

(** Overwrite the buffer of the array at [l]; the array object stays. *)
Definition store_buf (l : loc) (b : buffer) : M unit :=
  fun w => match heap w l with
           | Some a => (Ok tt, put w l (with_buf a b))
           | None => (Raise BackendError, w)
           end.

Definition alloc (a : gpuarray) : M loc :=
  fun w => (Ok (next w),
            mkWorld (upd (heap w) (next w) a) (S (next w)) (stdout w) (copied w)).

Definition zero_buf (d : np_dtype) : buffer :=
  if is_complex d then CplxBuf (fun _ => Cx.zero) else RealBuf (fun _ => 0%R).

(** [gpuarray.empty(shape, dtype, order='C')]; the contents of a fresh array
    are never read before they are overwritten and are taken to be zero. *)
Definition gpuarray_empty (sh : list Z) (d : np_dtype) : M loc :=
  alloc (mkArr sh d true (zero_buf d)).

(** [gpuarray.empty_like(a)] *)
Definition gpuarray_empty_like (l : loc) : M loc :=
  a <- load l ;;
  alloc (mkArr (a_shape a) (a_dtype a) (c_contiguous a) (zero_buf (a_dtype a))).

(** [a.astype(dtype)] on a real array: pycuda allocates a new array and
    copies the (converted) elements into it. *)
Definition log_copy (src dst : loc) : M unit :=
  fun w => (Ok tt, mkWorld (heap w) (next w) (stdout w) (copied w ++ [(src, dst)])).

Definition astype (l : loc) (d : np_dtype) : M loc :=
  a <- load l ;;
  match a_buf a with
  | RealBuf f =>
      l' <- alloc (mkArr (a_shape a) d (c_contiguous a) (RealBuf f)) ;;
      log_copy l l' ;;;
      ret l'
  | CplxBuf _ => raise BackendError
  end.

(** ** The transform backend ([skcuda.fft], an external library)

    The discrete Fourier transform over the trailing axes of an array, one
    transform per leading (batch, channel) index.  A real-to-complex
    transform keeps the half spectrum along the last axis; the complex-to-real
    transform rebuilds the other half by Hermitian symmetry.

    The backend works on raw device memory: it never looks at the dtype or
    the layout of the arrays it is handed.  The elements given here are the
    elements it reads and writes when the arrays are C-contiguous and have
    the dtypes of the plan; for a real array of another precision or layout
    the call runs just the same, writing the same arrays, but the elements
    are then not the ones given here.  The theorems that state the elements
    of a result therefore ask for fields of the instance ([native_field]:
    contiguous, of its shape and dtype).  An array of the wrong kind (complex
    where the plan reads reals, or the reverse) is reinterpreted by the code
    in the same way; the model has no elements to give for it and stops the
    call with [BackendError], and no theorem is about such a call. *)

(** exp(s * 2 pi i * k * i / N) *)
Definition expi (s : R) (N k i : nat) : C :=
  Cx.cis (s * (2 * PI * INR (k * i) / INR N))%R.

(** The unnormalised transform over the axes [exts] with sign [s]. *)
Fixpoint dftn (s : R) (exts : list nat) (f : index -> C) (k : index) : C :=
  match exts with
  | [] => f []
  | N :: exts' =>
      match k with
      | [] => Cx.zero
      | ka :: k' =>
          Cx.sum N (fun i =>
            Cx.mul (expi s N ka i) (dftn s exts' (fun sp => f (i :: sp)) k'))
      end
  end.

(** The frequency opposite to [k] on the grid [exts]. *)
Definition neg_index (exts : list nat) (k : index) : index :=
  map (fun p => (fst p - snd p) mod fst p) (combine exts k).

(** The full spectrum of a real signal from its stored half. *)
Definition herm_ext (exts : list nat) (G : index -> C) (k : index) : C :=
  if (last k 0 <=? last exts 0 / 2)%nat then G k
  else Cx.conj (G (neg_index exts k)).

(** [skcuda.fft.Plan(shape, in_dtype, out_dtype, batch)] *)
Record Plan : Type := mkPlan {
  plan_shape : list Z;
  plan_in : np_dtype;
  plan_out : np_dtype;
  plan_batch : Z
}.

Definition plan_exts (p : Plan) : list nat := map Z.to_nat (plan_shape p).

(** Number of leading axes that are not transformed. *)
Definition lead (a : gpuarray) (p : Plan) : nat :=
  (List.length (a_shape a) - List.length (plan_shape p))%nat.

(** [x.size / plan.batch], the divisor used when [scale=True]. *)
Definition scale_of (a : gpuarray) (p : Plan) : R :=
  (IZR (size_of (a_shape a)) / IZR (plan_batch p))%R.

(** What the real-to-complex transform of plan [p] writes into the array
    [ay] when it reads the real data [f] of the array [ax]. *)
Definition fft_data (p : Plan) (ax ay : gpuarray) (f : index -> R)
    (scale : bool) : index -> C :=
  let nb := lead ax p in
  let F := fun idx =>
    dftn (-1) (plan_exts p)
         (fun sp => Cx.of_R (f (firstn nb idx ++ sp))) (skipn nb idx) in
  maskC (a_shape ay)
    (if scale then fun idx => Cx.scal (/ scale_of ax p) (F idx) else F).

(** What the complex-to-real transform of plan [p] writes into the array
    [ay] when it reads the half spectrum [G]. *)
Definition ifft_data (p : Plan) (ay : gpuarray) (G : index -> C)
    (scale : bool) : index -> R :=
  let nb := lead ay p in
  let f := fun idx =>
    Cx.re (dftn 1 (plan_exts p)
             (herm_ext (plan_exts p) (fun k => G (firstn nb idx ++ k)))
             (skipn nb idx)) in
  maskR (a_shape ay)
    (if scale then fun idx => (f idx / scale_of ay p)%R else f).

(** [skcuda.fft.fft(x, y, plan, scale)]: real [x] to half spectrum [y]. *)
Definition fft (x y : loc) (p : Plan) (scale : bool) : M unit :=
  ax <- load x ;;
  ay <- load y ;;
  match a_buf ax, a_buf ay with
  | RealBuf f, CplxBuf _ => store_buf y (CplxBuf (fft_data p ax ay f scale))
  | _, _ => raise BackendError
  end.

(** [skcuda.fft.ifft(x, y, plan, scale)]: half spectrum [x] to real [y]. *)
Definition ifft (x y : loc) (p : Plan) (scale : bool) : M unit :=
  ax <- load x ;;
  ay <- load y ;;
  match a_buf ax, a_buf ay with
  | CplxBuf G, RealBuf _ => store_buf y (RealBuf (ifft_data p ay G scale))
  | _, _ => raise BackendError
  end.

(** ** The frequency-domain operator kernels *)

(** Modelled from the spec: the device kernels
    [metric_cuda.forward_operator_2d] and [metric_cuda.inverse_operator_2d]
    are missing from the sources.  At every frequency the kernel builds the
    symmetric matrix

      A = alpha * L * I + beta * (s s^T) + gamma * I

    where [L] is the sum of the per-axis [1 - cos] lookup entries and [s] is
    the vector of the per-axis [sin] lookup entries; the forward kernel
    multiplies the two components of the spectrum by [A], the inverse kernel
    by the closed-form inverse of [A].  The result is the triple
    (A00, A01, A11).

    The closed-form inverse divides by the determinant.  It is the inverse
    of [A] where the determinant is not zero; where it is zero the spec
    defines no inverse and the quotient written here has no meaning for the
    code.  Every statement below about the elements that the inverse kernel
    produces is therefore made for coefficients [alpha >= 0], [beta >= 0],
    [gamma > 0] only, for which [A] is positive definite at every
    frequency. *)
Definition symbol_2d (ci si cj sj alpha beta gamma : R) : R * R * R :=
  let lam := (alpha * (ci + cj) + gamma)%R in
  ((lam + beta * (si * si))%R, (beta * (si * sj))%R, (lam + beta * (sj * sj))%R).

Definition apply_symbol (inverse : bool) (A : R * R * R) (u0 u1 : C) : C * C :=
  let '(a00, a01, a11) := A in
  if inverse then
    let det := (a00 * a11 - a01 * a01)%R in
    (Cx.scal (/ det) (Cx.sub (Cx.scal a11 u0) (Cx.scal a01 u1)),
     Cx.scal (/ det) (Cx.sub (Cx.scal a00 u1) (Cx.scal a01 u0)))
  else
    (Cx.add (Cx.scal a00 u0) (Cx.scal a01 u1),
     Cx.add (Cx.scal a01 u0) (Cx.scal a11 u1)).

(** The element [idx] of the spectrum after the kernel has run over
    [nn] batches and [nx * ny] frequencies. *)
Definition operator_2d_at (inverse : bool) (F : index -> C)
    (cos0 sin0 cos1 sin1 : list R) (alpha beta gamma : R) (nn nx ny : Z)
    (idx : index) : C :=
  match idx with
  | [n; c; i; j] =>
      if ((Z.of_nat n <? nn) && (Z.of_nat i <? nx) && (Z.of_nat j <? ny))%Z
           && (c <? 2)%nat
      then
        let A := symbol_2d (nth i cos0 0%R) (nth i sin0 0%R)
                           (nth j cos1 0%R) (nth j sin1 0%R) alpha beta gamma in
        let r := apply_symbol inverse A (F [n; 0%nat; i; j]) (F [n; 1%nat; i; j]) in
        if (c =? 0)%nat then fst r else snd r
      else F idx
  | _ => F idx
  end.

(** Modelled from the spec: [metric_cuda.forward_operator_2d] /
    [metric_cuda.inverse_operator_2d], launched on the spectrum [Fm], which
    they overwrite in place. *)
Definition operator_2d (inverse : bool) (Fm : loc)
    (cos0 sin0 cos1 sin1 : list R) (alpha beta gamma : R) (nn nx ny : Z) :
  M unit :=
  a <- load Fm ;;
  match a_buf a with
  | CplxBuf F =>
      store_buf Fm (CplxBuf (maskC (a_shape a)
        (operator_2d_at inverse F cos0 sin0 cos1 sin1 alpha beta gamma nn nx ny)))
  | RealBuf _ => raise BackendError
  end.

(** ** [FluidMetric] *)

(** Python's [l[i]] for a non-negative [i]. *)
Definition getitem {A} (l : list A) (i : nat) : M A :=
  match nth_error l i with
  | Some x => ret x
  | None => raise IndexError
  end.

Definition Rleb (x y : R) : bool := if Rle_dec x y then true else false.

(** A lookup table on the device: [gpuarray.to_gpu(a)] for a 1-D host
    array [a].  The array lives in the store at [lut_at].  Its contents are
    written once, when it is sent up, and no method of [FluidMetric] writes
    them afterwards (spec 3: the tables are immutable for the lifetime of the
    instance), so they are kept next to the address and the kernels read
    them from there. *)
Record lut : Type := mkLut {
  lut_at : loc;
  lut_data : list R
}.

(** The elements of a 1-D array with the entries [data]. *)
Definition vector (data : list R) : index -> R :=
  fun idx => match idx with
             | [k] => nth k data 0%R
             | _ => 0%R
             end.

(** [gpuarray.to_gpu(a)]: a fresh contiguous array of the shape and dtype
    of the host array [a], holding its entries. *)
Definition to_gpu (d : np_dtype) (data : list R) : M lut :=
  l <- alloc (mkArr [Z.of_nat (List.length data)] d true (RealBuf (vector data))) ;;
  ret (mkLut l data).

(** [skcuda.fft.Plan(shape, in_dtype, out_dtype, batch)] refuses a batch
    count that is not positive.  That is the one refusal of the libraries
    that is part of this model; failures of the device itself (no memory
    left, extents the transform library cannot plan) are not. *)
Definition new_Plan (sh : list Z) (din dout : np_dtype) (batch : Z) : M Plan :=
  if (batch <=? 0)%Z then raise (ValueError "batch size must be greater than 0")
  else ret (mkPlan sh din dout batch).

Record FluidMetric : Type := mkFluidMetric {
  shape : list Z;
  complexshape : list Z;
  alpha : R;
  beta : R;
  gamma : R;
  dim : Z;
  precision : string;
  dtype : np_dtype;
  complex_dtype : np_dtype;
  Fv : loc;                  (* scratch spectrum, shared by every call *)
  luts_cos : list lut;       (* luts['cos'] *)
  luts_sin : list lut;       (* luts['sin'] *)
  fftplan : Plan;
  ifftplan : Plan
}.

(** [complexshape = list(shape); complexshape[-1] = complexshape[-1]//2+1] *)
Definition half_last (sh : list Z) : M (list Z) :=
  match sh with
  | [] => raise IndexError
  | _ => ret (removelast sh ++ [(last sh 0 / 2 + 1)%Z])
  end.

(** [initialize_luts]: for every spatial axis of extent [N] the tables
    [1 - cos(2 pi k / N)] and [sin(2 pi k / N)], [k = 0 .. N-1], each sent
    up to the device as an array of the dtype of the instance: first the
    cosine table of an axis, then its sine table. *)
Definition cos_lut (N : Z) : list R :=
  map (fun k => (1 - cos (2 * PI * INR k / IZR N))%R) (seq 0 (Z.to_nat N)).
Definition sin_lut (N : Z) : list R :=
  map (fun k => sin (2 * PI * INR k / IZR N)) (seq 0 (Z.to_nat N)).

Fixpoint luts_loop (d : np_dtype) (axes : list (Z * Z)) (cs ss : list lut) :
  M (list lut * list lut) :=
  match axes with
  | [] => ret (cs, ss)
  | (_, N) :: axes' =>
      c <- to_gpu d (cos_lut N) ;;
      s <- to_gpu d (sin_lut N) ;;
      luts_loop d axes' (cs ++ [c]) (ss ++ [s])
  end.

Definition initialize_luts (cshape sh : list Z) (d : np_dtype) :
  M (list lut * list lut) :=
  luts_loop d (combine (skipn 2 cshape) (skipn 2 sh)) [] [].

Definition ill_conditioned_warning : string :=
  "WARNING: ill-conditioned kernel. gamma <= 4*alpha + 2*beta".

(** [FluidMetric.__init__(shape, alpha, beta, gamma, precision)] *)
Definition FluidMetric_init (sh : list Z) (al be ga : R) (prec : string) :
  M FluidMetric :=
  cshape <- half_last sh ;;
  (if Rleb ga (4 * al + 2 * be) && false
   then print ill_conditioned_warning else ret tt) ;;;
  let d := (Z.of_nat (List.length sh) - 2)%Z in
  if negb (d =? 2)%Z && negb (d =? 3)%Z then raise (InvalidDimension d) else
  dts <- (if String.eqb prec "single" then ret (float32, complex64)
          else if String.eqb prec "double" then ret (float64, complex128)
          else raise (UnsupportedPrecision prec)) ;;
  fv <- gpuarray_empty cshape (snd dts) ;;
  luts <- initialize_luts cshape sh (fst dts) ;;
  let batch := (nth 0 sh 0 * nth 1 sh 0)%Z in
  fftplan <- new_Plan (skipn 2 sh) (fst dts) (snd dts) batch ;;
  ifftplan <- new_Plan (skipn 2 sh) (snd dts) (fst dts) batch ;;
  ret (mkFluidMetric sh cshape al be ga d prec (fst dts) (snd dts) fv
         (fst luts) (snd luts) fftplan ifftplan).

(** [operator_fourier(Fm, inverse)].  The launch geometry [block], [grid]
    covers every frequency and does not enter the result; the two reads of
    [complexshape] that compute it are kept. *)
Definition operator_fourier (self : FluidMetric) (Fm : loc) (inverse : bool) :
  M unit :=
  _ <- getitem (complexshape self) 2 ;;
  _ <- getitem (complexshape self) 3 ;;
  if (dim self =? 2)%Z then
    cos0 <- getitem (luts_cos self) 0 ;;
    sin0 <- getitem (luts_sin self) 0 ;;
    cos1 <- getitem (luts_cos self) 1 ;;
    sin1 <- getitem (luts_sin self) 1 ;;
    nn <- getitem (complexshape self) 0 ;;
    nx <- getitem (complexshape self) 2 ;;
    ny <- getitem (complexshape self) 3 ;;
    operator_2d inverse Fm
                (lut_data cos0) (lut_data sin0) (lut_data cos1) (lut_data sin1)
                (alpha self) (beta self) (gamma self) nn nx ny
  else if (dim self =? 3)%Z then raise NotImplementedError
  else ret tt.

(** [sharp(m, out=None)]: momentum to velocity. *)
Definition sharp (self : FluidMetric) (m : loc) (out : option loc) : M loc :=
  am <- load m ;;
  assert (c_contiguous am) "Momentum array must be contiguous" ;;;
  af <- load (Fv self) ;;
  assert (c_contiguous af) "Fv must be contiguous" ;;;
  o <- match out with
       | None => gpuarray_empty_like m
       | Some o => ret o
       end ;;
  fft m (Fv self) (fftplan self) true ;;;
  operator_fourier self (Fv self) true ;;;
  ifft (Fv self) o (ifftplan self) false ;;;
  ret o.

(** [flat(m, out=None)]: velocity to momentum. *)
Definition flat (self : FluidMetric) (m : loc) (out : option loc) : M loc :=
  am <- load m ;;
  assert (c_contiguous am) "Momentum array must be contiguous" ;;;
  af <- load (Fv self) ;;
  assert (c_contiguous af) "Fv must be contiguous" ;;;
  o <- match out with
       | None => gpuarray_empty_like m
       | Some o => ret o
       end ;;
  m' <- astype m (dtype self) ;;
  fft m' (Fv self) (fftplan self) false ;;;
  operator_fourier self (Fv self) false ;;;
  ifft (Fv self) o (ifftplan self) true ;;;
  ret o.

(** ** Grid fields as values

    The operators of [AdjRep] never write into their arguments; they are
    modelled on field values.  A field of shape (N, C, spatial...) is a
    function of the multi-index [n; c; x...]. *)

Definition Field : Type := index -> R.

Definition fadd (a b : Field) : Field := fun idx => (a idx + b idx)%R.
Definition fsub (a b : Field) : Field := fun idx => (a idx - b idx)%R.
Definition fmul (a b : Field) : Field := fun idx => (a idx * b idx)%R.
Definition fneg (a : Field) : Field := fun idx => (- a idx)%R.
Definition fscal (c : R) (a : Field) : Field := fun idx => (c * a idx)%R.
Definition fzero : Field := fun _ => 0%R.

(** [s.expand_dims(1)] of a scalar field [s] of shape (N, spatial...),
    broadcast along the new channel axis. *)
Definition expand_dims1 (s : Field) : Field :=
  fun idx => match idx with
             | n :: _ :: x => s (n :: x)
             | _ => 0%R
             end.

(** Sum of [f] over all indices of a shape. *)
Fixpoint grid_sum (sh : list nat) (f : index -> R) : R :=
  match sh with
  | [] => f []
  | N :: sh' => Rsum N (fun i => grid_sum sh' (fun x => f (i :: x)))
  end.

(** The discrete inner product of two fields of shape [sh]: the sum over
    the grid of the pointwise dot products. *)
Definition pairing (sh : list nat) (a b : Field) : R :=
  grid_sum sh (fmul a b).

(** ** [AdjRep] *)

(** A Python value, as far as [AdjRep.__init__] can tell them apart. *)
Inductive pyval : Type :=
| PyNone
| PyInt (z : Z)
| PyFloat (x : R)
| PyStr (s : string).

Record AdjRep : Type := mkAdjRep { adj_dim : pyval }.

(** Anything that offers [sharp] and [flat]. *)
Record Metric : Type := mkMetric {
  metric_sharp : Field -> M Field;
  metric_flat : Field -> M Field
}.

Section AdjRepOps.
(** The differential operator suite of [lagomorph.diff] and
    [lagomorph.deform], which [adjrep.py] imports. *)
Variable jacobian_times_vectorfield : Field -> Field -> bool -> Field.
Variable divergence : Field -> Field.
Variable interp_def : Field -> Field -> Field.

(** [AdjRep.__init__(dim)] *)
Definition AdjRep_init (d : pyval) : M AdjRep := ret (mkAdjRep d).

(** [ad(v, w) = Dv w - Dw v] *)
Definition ad (self : AdjRep) (v w : Field) : Field :=
  fsub (jacobian_times_vectorfield v w false)
       (jacobian_times_vectorfield w v false).

(** [Ad(phi, v)] *)
Definition Ad (self : AdjRep) (phi v : Field) : M Field :=
  raise NotImplementedError.

(** [ad_star(v, m) = (Dv)^T m + Dm v + m div v] *)
Definition ad_star (self : AdjRep) (v m : Field) : Field :=
  let out := fadd (jacobian_times_vectorfield v m true)
                  (jacobian_times_vectorfield m v false) in
  let dv := divergence v in
  fadd out (fmul m (expand_dims1 dv)).

(** [Ad_star(phi, m)(x) = (D phi(x)) m(phi(x))] *)
Definition Ad_star (self : AdjRep) (phi m : Field) : Field :=
  let mphi := interp_def m phi in
  jacobian_times_vectorfield phi mphi false.

Definition ad_dagger (self : AdjRep) (x y : Field) (metric : Metric) : M Field :=
  fy <- metric_flat metric y ;;
  metric_sharp metric (ad_star self x fy).

Definition Ad_dagger (self : AdjRep) (phi y : Field) (metric : Metric) : M Field :=
  fy <- metric_flat metric y ;;
  metric_sharp metric (Ad_star self phi fy).

Definition sym (self : AdjRep) (x y : Field) (metric : Metric) : M Field :=
  a <- ad_dagger self x y metric ;;
  b <- ad_dagger self y x metric ;;
  ret (fneg (fadd a b)).

Definition sym_dagger (self : AdjRep) (x y : Field) (metric : Metric) : M Field :=
  a <- ad_dagger self y x metric ;;
  ret (fsub a (ad self x y)).
End AdjRepOps.

(** ** The differential operator suite, from its contract *)

Section Suite.
(** Number of vector components of the fields at hand (their axis 1). *)
Variable d : nat.
(** [partial j s]: the discrete derivative along spatial axis [j] of a
    scalar field [s] indexed by [n; x...]. *)
Variable partial : nat -> Field -> Field.

(** Component [i] of a vector field, as a scalar field. *)
Definition comp (a : Field) (i : nat) : Field :=
  fun nx => match nx with
            | n :: x => a (n :: i :: x)
            | [] => 0%R
            end.

(** Modelled from the spec: [diff.jacobian_times_vectorfield(a, b,
    transpose)] is missing from the sources; it is the Jacobian-vector
    product [Da b], component [i] being the sum over [j] of
    [d_j a_i * b_j], and with [transpose=True] it is [(Da)^T b], the sum
    over [j] of [d_i a_j * b_j]. *)
Definition jtv (a b : Field) (transpose : bool) : Field :=
  fun idx => match idx with
             | n :: i :: x =>
                 Rsum d (fun j =>
                   ((if transpose then partial i (comp a j)
                     else partial j (comp a i)) (n :: x)
                    * b (n :: j :: x))%R)
             | _ => 0%R
             end.

(** Modelled from the spec: [diff.divergence(v)] is missing from the
    sources; it is the sum over [j] of [d_j v_j], a scalar field. *)
Definition div (v : Field) : Field :=
  fun nx => Rsum d (fun j => partial j (comp v j) nx).
End Suite.

(** ** Concrete configurations used to run the model *)

(** The world before anything is allocated or printed. *)
Definition world0 : world := mkWorld (fun _ => None) 0 [] [].

(** Spatial rank of a shape: [len(shape) - 2]. *)
Definition rank (sh : list Z) : Z := (Z.of_nat (List.length sh) - 2)%Z.

(** The half-spectrum shape, the pair of dtypes and the instance that a
    successful construction computes; [fv] is the address of the scratch
    spectrum. *)
Definition cshape_of (sh : list Z) : list Z :=
  removelast sh ++ [(last sh 0 / 2 + 1)%Z].

Definition dtypes_of (prec : string) : np_dtype * np_dtype :=
  if String.eqb prec "single" then (float32, complex64)
  else (float64, complex128).

(** The lookup tables of the axes [axes] when the first of them is
    allocated at [l]: they take consecutive addresses, the cosine table of
    an axis before its sine table. *)
Fixpoint tables_from (l : loc) (axes : list (Z * Z)) : list lut * list lut :=
  match axes with
  | [] => ([], [])
  | (_, N) :: axes' =>
      let r := tables_from (S (S l)) axes' in
      (mkLut l (cos_lut N) :: fst r, mkLut (S l) (sin_lut N) :: snd r)
  end.

Definition instance_of (sh : list Z) (al be ga : R) (prec : string) (fv : loc) :
  FluidMetric :=
  let dts := dtypes_of prec in
  let luts := tables_from (S fv) (combine (skipn 2 (cshape_of sh)) (skipn 2 sh)) in
  let batch := (nth 0 sh 0 * nth 1 sh 0)%Z in
  mkFluidMetric sh (cshape_of sh) al be ga (rank sh) prec (fst dts) (snd dts)
    fv (fst luts) (snd luts)
    (mkPlan (skipn 2 sh) (fst dts) (snd dts) batch)
    (mkPlan (skipn 2 sh) (snd dts) (fst dts) batch).

(** The world after [w] once the scratch spectrum has been allocated. *)
Definition world_with_Fv (sh : list Z) (prec : string) (w : world) : world :=
  mkWorld (upd (heap w) (next w)
             (mkArr (cshape_of sh) (snd (dtypes_of prec)) true
                    (zero_buf (snd (dtypes_of prec)))))
          (S (next w)) (stdout w) (copied w).

(** The world after [w] once the scratch spectrum and the lookup tables
    have been allocated: the world a successful construction leaves. *)
Definition world_after_init (sh : list Z) (prec : string) (w : world) : world :=
  snd (initialize_luts (cshape_of sh) sh (fst (dtypes_of prec))
         (world_with_Fv sh prec w)).

(** Number of arrays a construction allocates: the scratch spectrum and two
    tables for every spatial axis. *)
Definition arrays_of_instance (sh : list Z) : nat :=
  S (2 * (List.length sh - 2)).

(** A binary operator on fields is bilinear. *)
Definition bilinear (J : Field -> Field -> Field) : Prop :=
  (forall a b w idx, J (fadd a b) w idx = (J a w idx + J b w idx)%R)
  /\ (forall c a w idx, J (fscal c a) w idx = (c * J a w idx)%R)
  /\ (forall a v w idx, J a (fadd v w) idx = (J a v idx + J a w idx)%R)
  /\ (forall c a w idx, J a (fscal c w) idx = (c * J a w idx)%R).

(** A discrete derivative is linear; it sees its argument only through its
    values. *)
Definition linear_partial (partial : nat -> Field -> Field) : Prop :=
  (forall j f g h, (forall idx, h idx = (f idx + g idx)%R) ->
                   forall idx, partial j h idx = (partial j f idx + partial j g idx)%R)
  /\ (forall j c f h, (forall idx, h idx = (c * f idx)%R) ->
                      forall idx, partial j h idx = (c * partial j f idx)%R).

(** The grid point [x] moved along axis [j] by [step N x_j] on the periodic
    grid [exts]. *)
Fixpoint shift (step : nat -> nat -> nat) (exts : list nat) (j : nat)
    (x : index) : index :=
  match exts, x with
  | N :: exts', xi :: x' =>
      match j with
      | O => step N xi :: x'
      | S j' => xi :: shift step exts' j' x'
      end
  | _, _ => x
  end.

(** One admissible derivative: the central difference on a periodic grid,
    [(s(x + e_j) - s(x - e_j)) / 2]. *)
Definition central_diff (exts : list nat) (j : nat) (s : Field) : Field :=
  fun nx => match nx with
            | n :: x =>
                ((s (n :: shift (fun N xi => (xi + 1) mod N) exts j x)
                  - s (n :: shift (fun N xi => (xi + (N - 1)) mod N) exts j x)) / 2)%R
            | [] => 0%R
            end.

(** What integration by parts leaves behind on the grid: the sum over the
    grid and over the pairs (i, j) of
    [d_j(m_i) v_j w_i + m_i d_j(v_j) w_i + m_i v_j d_j(w_i)]. *)
Definition leibniz_defect (d : nat) (partial : nat -> Field -> Field)
    (sh : list nat) (v m w : Field) : R :=
  grid_sum sh (fun idx =>
    match idx with
    | n :: i :: x =>
        Rsum d (fun j =>
          (partial j (comp m i) (n :: x) * v (n :: j :: x) * w (n :: i :: x)
           + m (n :: i :: x) * partial j (comp v j) (n :: x) * w (n :: i :: x)
           + m (n :: i :: x) * v (n :: j :: x) * partial j (comp w i) (n :: x))%R)
    | _ => 0%R
    end).

(** The field that is 1 in component 0 at the grid point [(i, 0)] of batch 0
    and 0 elsewhere. *)
Definition bump (i : nat) : Field :=
  fun idx => match idx with
             | [O; O; i'; O] => if Nat.eqb i' i then 1%R else 0%R
             | _ => 0%R
             end.

(** A 2-D instance on a 2 x 2 grid, built in the empty world (scratch
    spectrum at address 0, lookup tables at 1 to 4), and two arrays of its
    shape and dtype: a contiguous one at address 5 and a non-contiguous one
    at address 6. *)
Definition metric22 : FluidMetric :=
  instance_of [1; 2; 2; 2]%Z 1 1 10 "double" 0.

Definition world22 : world :=
  let w := world_after_init [1; 2; 2; 2]%Z "double" world0 in
  let w := snd (alloc (mkArr [1; 2; 2; 2]%Z float64 true (RealBuf (fun _ => 1%R))) w) in
  snd (alloc (mkArr [1; 2; 2; 2]%Z float64 false (RealBuf (fun _ => 1%R))) w).



(** Every address from [next] on is free. *)
Definition wf (w : world) : Prop :=
  forall l, (next w <= l)%nat -> heap w l = None.

(** The computation [c], started with at least [b] addresses in use, keeps
    them in use, leaves every array below [b] outside [L] as it was, and
    returns only values in [V]. *)
Definition frame {A} (b : loc) (L : loc -> Prop) (V : A -> Prop) (c : M A) : Prop :=
  forall w, (b <= next w)%nat ->
    (b <= next (snd (c w)))%nat
    /\ (forall l, (l < b)%nat -> ~ L l -> heap (snd (c w)) l = heap w l)
    /\ (forall a, fst (c w) = Ok a -> V a).

(** The computation [c] makes no copy of an array. *)
Definition nocopy {A} (c : M A) : Prop :=
  forall w, copied (snd (c w)) = copied w.

(** What a call [call] of [sharp] or [flat] on the input [m] with the
    optional output [out] may touch: every array that existed before, other
    than the scratch spectrum and the supplied output, is as it was; a call
    that returns has returned the supplied output, or else an array that did
    not exist before, and its input, unless it was supplied as the output
    too, is as it was. *)
Definition respects_frame (self : FluidMetric) (m : loc) (out : option loc)
    (w : world) (call : M loc) : Prop :=
  (forall l, (l < next w)%nat -> l <> Fv self -> out <> Some l ->
             heap (snd (call w)) l = heap w l)
  /\ (forall r, fst (call w) = Ok r ->
        match out with
        | Some o => r = o
        | None => heap w r = None
        end)
  /\ (forall r, fst (call w) = Ok r -> out <> Some m ->
                heap (snd (call w)) m = heap w m).

(** The write set of a call and the value it returns. *)
Definition touched (self : FluidMetric) (out : option loc) : loc -> Prop :=
  fun l => l = Fv self \/ out = Some l.

Definition returned (b : loc) (out : option loc) : loc -> Prop :=
  fun r => match out with Some o => r = o | None => (b <= r)%nat end.

(** [k] addresses a point of the grid of extents [exts]. *)
Fixpoint in_grid (exts : list nat) (k : index) : Prop :=
  match exts, k with
  | [], [] => True
  | N :: exts', i :: k' => (i < N)%nat /\ in_grid exts' k'
  | _, _ => False
  end.

(** Number of points of a grid. *)
Definition points (exts : list nat) : nat := fold_right Nat.mul 1%nat exts.

(** The shape (Nb, 2, W, H) of the fields of a 2-D metric, and the metric
    a successful construction returns for it. *)
Definition shape2 (Nb W H : nat) : list Z :=
  [Z.of_nat Nb; 2%Z; Z.of_nat W; Z.of_nat H].

Definition metric2 (Nb W H : nat) (al be ga : R) (prec : string) (fv : loc) :
  FluidMetric :=
  instance_of (shape2 Nb W H) al be ga prec fv.

(** What [sharp] and [flat] do once the output array [o] is known. *)
Definition apply_metric (self : FluidMetric) (m o : loc)
    (inverse scale_fft scale_ifft : bool) : M loc :=
  fft m (Fv self) (fftplan self) scale_fft ;;;
  operator_fourier self (Fv self) inverse ;;;
  ifft (Fv self) o (ifftplan self) scale_ifft ;;;
  ret o.

(** The spectrum the kernel of [metric2] leaves when it is launched on the
    spectrum [F] with [ny] frequencies along the last axis. *)
Definition kernel2 (Nb W H : nat) (al be ga : R) (inverse : bool) (ny : Z)
    (F : index -> C) : index -> C :=
  operator_2d_at inverse F
    (cos_lut (Z.of_nat W)) (sin_lut (Z.of_nat W))
    (cos_lut (Z.of_nat H)) (sin_lut (Z.of_nat H))
    al be ga (Z.of_nat Nb) (Z.of_nat W) ny.

(** The contents of the output array after [apply_metric] on a 2-D metric:
    [am], [af], [ao] are the input, scratch and output arrays and [f] the
    input data. *)
Definition result2 (Nb W H : nat) (al be ga : R) (prec : string) (fv : loc)
    (inverse scale_fft scale_ifft : bool) (am af ao : gpuarray)
    (f : index -> R) : index -> R :=
  let self := metric2 Nb W H al be ga prec fv in
  ifft_data (ifftplan self) ao
    (maskC (a_shape af)
       (kernel2 Nb W H al be ga inverse (Z.of_nat H / 2 + 1)%Z
          (fft_data (fftplan self) am af f scale_fft)))
    scale_ifft.

(** The unnormalised spectrum of the real field [f] of a 2-D metric, at
    every frequency of the W x H grid. *)
Definition spectrum2 (W H : nat) (f : index -> R) : index -> C :=
  fun idx =>
    dftn (-1) [W; H] (fun sp => Cx.of_R (f (firstn 2 idx ++ sp))) (skipn 2 idx).

(** The scale factor of a transform leg. *)
Definition leg_factor (W H : nat) (scale : bool) : R :=
  if scale then (/ (INR W * INR H))%R else 1%R.

(** Determinant of the symmetric matrix (A00, A01, A11). *)
Definition det_of (A : R * R * R) : R :=
  let '(a00, a01, a11) := A in (a00 * a11 - a01 * a01)%R.

(** The scratch spectrum of [self] is in place in the world [w]. *)
Definition scratch_ready (self : FluidMetric) (w : world) : Prop :=
  exists af g, heap w (Fv self) = Some af
               /\ a_shape af = complexshape self
               /\ c_contiguous af = true
               /\ a_buf af = CplxBuf g.

(** The address [m] holds a contiguous real array of the shape of [self]
    with the data [f].  This is what a call needs in order to run; it says
    nothing about the precision of the array. *)
Definition holds_field (self : FluidMetric) (w : world) (m : loc)
    (f : index -> R) : Prop :=
  exists am, heap w m = Some am
             /\ a_shape am = shape self
             /\ c_contiguous am = true
             /\ is_complex (a_dtype am) = false
             /\ a_buf am = RealBuf f.

(** The address [m] holds a field of [self]: a contiguous array of the shape
    and of the dtype of [self] (spec 3: fields sharing a grid have identical
    shape and floating-point precision) with the data [f].  The transforms
    read and write the elements of such arrays and of no others, so every
    statement about the elements of a result asks for it. *)
Definition native_field (self : FluidMetric) (w : world) (m : loc)
    (f : index -> R) : Prop :=
  exists am, heap w m = Some am
             /\ a_shape am = shape self
             /\ c_contiguous am = true
             /\ a_dtype am = dtype self
             /\ a_buf am = RealBuf f.

(** The output argument of a call: omitted, or a field of [self]. *)
Definition native_out (self : FluidMetric) (w : world) (out : option loc) : Prop :=
  match out with
  | None => True
  | Some o => exists h, native_field self w o h
  end.


(** The matrix of the metric is regular at every frequency of the grid. *)
Definition regular2 (W H : nat) (al be ga : R) : Prop :=
  forall k l, (k < W)%nat -> (l < H)%nat ->
    det_of (symbol_2d (nth k (cos_lut (Z.of_nat W)) 0%R)
                      (nth k (sin_lut (Z.of_nat W)) 0%R)
                      (nth l (cos_lut (Z.of_nat H)) 0%R)
                      (nth l (sin_lut (Z.of_nat H)) 0%R) al be ga) <> 0%R.

(** A 3-D instance on a 2 x 2 x 2 grid (scratch spectrum at address 0,
    lookup tables at 1 to 6) and a contiguous array of its shape at
    address 7. *)
Definition metric222 : FluidMetric :=
  instance_of [1; 3; 2; 2; 2]%Z 1 1 10 "double" 0.

Definition world222 : world :=
  let w := world_after_init [1; 3; 2; 2; 2]%Z "double" world0 in
  snd (alloc (mkArr [1; 3; 2; 2; 2]%Z float64 true (RealBuf (fun _ => 1%R))) w).

(** A 2-D instance on a 2 x 1 grid with a negative [alpha], and the field
    that is 1 and -1 at the two grid points of component 0. *)
Definition metric21 : FluidMetric :=
  instance_of [1; 2; 2; 1]%Z (-1) 0 2 "double" 0.

Definition zigzag : index -> R :=
  fun idx => match idx with
             | [O; O; O; O] => 1%R
             | [O; O; S O; O] => (-1)%R
             | _ => 0%R
             end.

Definition world21 : world :=
  let w := world_after_init [1; 2; 2; 1]%Z "double" world0 in
  snd (alloc (mkArr [1; 2; 2; 1]%Z float64 true (RealBuf zigzag)) w).

(** The field that is 1 at the index [p] and 0 elsewhere. *)
Definition unit_bump (p : index) : Field :=
  fun idx => if list_eq_dec Nat.eq_dec idx p then 1%R else 0%R.

(** ** Further definitions: clients, contracts and invariants *)

(** The optional output of a call is omitted, or names a contiguous real
    array of the shape of [self]. *)
Definition usable_out (self : FluidMetric) (w : world) (out : option loc) : Prop :=
  match out with
  | None => True
  | Some o => exists h, holds_field self w o h
  end.

(** The lookup table [t] is in place in the world [w]: at its address
    there is the contiguous 1-D array of dtype [d] that [to_gpu] sent up,
    holding the entries recorded for it. *)
Definition table_in_place (d : np_dtype) (w : world) (t : lut) : Prop :=
  heap w (lut_at t)
  = Some (mkArr [Z.of_nat (List.length (lut_data t))] d true
                (RealBuf (vector (lut_data t)))).

(** All lookup tables of [self] are in place. *)
Definition luts_in_place (self : FluidMetric) (w : world) : Prop :=
  Forall (table_in_place (dtype self) w) (luts_cos self ++ luts_sin self).

(** [out] does not name a lookup table of [self]. *)
Definition not_a_table (self : FluidMetric) (out : option loc) : Prop :=
  forall t, In t (luts_cos self ++ luts_sin self) -> out <> Some (lut_at t).

(** A client that applies a sequence of calls, each one to the array the
    call before it returned: [true] stands for [sharp], [false] for
    [flat]. *)
Fixpoint chain (self : FluidMetric) (ops : list bool) (m : loc) : M loc :=
  match ops with
  | [] => ret m
  | b :: ops' =>
      r <- (if b then sharp self m None else flat self m None) ;;
      chain self ops' r
  end.

(** What an array is apart from its contents: shape, dtype and layout. *)
Definition meta (a : gpuarray) : list Z * np_dtype * bool :=
  (a_shape a, a_dtype a, c_contiguous a).

(** The computation [c] keeps the store in order: addresses are not
    reused, nothing is printed, and every array that exists stays where it
    is with its shape, dtype and layout; only contents may change. *)
Definition keeps_arrays {A} (c : M A) : Prop :=
  forall w, wf w ->
    wf (snd (c w))
    /\ stdout (snd (c w)) = stdout w
    /\ (forall l a, heap w l = Some a ->
          exists a', heap (snd (c w)) l = Some a' /\ meta a' = meta a).

(** A metric whose results are functions of its argument alone: in every
    state that satisfies [Inv], [sharp] returns [S f] and [flat] returns
    [F f], and [Inv] holds again afterwards. *)
Definition functional_metric (Inv : world -> Prop) (metric : Metric)
    (S F : Field -> Field) : Prop :=
  forall f w, Inv w ->
    (exists w', metric_sharp metric f w = (Ok (S f), w') /\ Inv w')
    /\ (exists w', metric_flat metric f w = (Ok (F f), w') /\ Inv w').

(** A unary operator on fields is linear. *)
Definition linear_map (D : Field -> Field) : Prop :=
  (forall a b idx, D (fadd a b) idx = (D a idx + D b idx)%R)
  /\ (forall c a idx, D (fscal c a) idx = (c * D a idx)%R).

(** A [FluidMetric] as the [metric] argument of the operators of [AdjRep]:
    the field is passed as a contiguous array of the declared shape and
    dtype, the call allocates its result, and the result is read back. *)
Definition field_array (self : FluidMetric) (f : Field) : gpuarray :=
  mkArr (shape self) (dtype self) true (RealBuf (maskR (shape self) f)).

Definition contents (l : loc) : M Field :=
  a <- load l ;;
  match a_buf a with
  | RealBuf f => ret f
  | CplxBuf _ => raise BackendError
  end.

Definition as_metric (self : FluidMetric) : Metric :=
  mkMetric
    (fun f => m <- alloc (field_array self f) ;;
              r <- sharp self m None ;;
              contents r)
    (fun f => m <- alloc (field_array self f) ;;
              r <- flat self m None ;;
              contents r).

(** The state a [FluidMetric] needs between calls. *)
Definition ready (self : FluidMetric) (w : world) : Prop :=
  wf w /\ scratch_ready self w.

(** The fields that [sharp] and [flat] of a 2-D metric return for the
    field [f]. *)
Definition field2 (Nb W H : nat) (al be ga : R) (inverse : bool) (f : Field) :
  Field :=
  let a := mkArr (shape2 Nb W H) float64 true (RealBuf (fun _ => 0%R)) in
  let af := mkArr (cshape_of (shape2 Nb W H)) complex128 true
                  (CplxBuf (fun _ => Cx.zero)) in
  result2 Nb W H al be ga "double" 0 inverse inverse (negb inverse) a af a
    (maskR (shape2 Nb W H) f).

(** The computation [c] allocates nothing. *)
Definition same_next {A} (c : M A) : Prop :=
  forall w, next (snd (c w)) = next w.

(** Sum of a complex function over all points of a grid. *)
Fixpoint Cgrid_sum (sh : list nat) (f : index -> C) : C :=
  match sh with
  | [] => f []
  | N :: sh' => Cx.sum N (fun i => Cgrid_sum sh' (fun x => f (i :: x)))
  end.



(** * Properties *)

(** ** Construction of a [FluidMetric] *)

(** The loop of [initialize_luts] appends the tables of the remaining axes
    at consecutive addresses. *)
Lemma luts_loop_run d axes : forall cs ss w,
  luts_loop d axes cs ss w
  = (Ok (cs ++ fst (tables_from (next w) axes),
         ss ++ snd (tables_from (next w) axes)),
     snd (luts_loop d axes [] [] w)).
Proof.
  induction axes as [|[Nf N] axes IH]; intros cs ss w.
  - cbn. unfold ret. rewrite !app_nil_r. reflexivity.
  - cbn [luts_loop tables_from fst snd]. unfold to_gpu, alloc, bind, ret.
    cbn [fst snd next].
    rewrite IH. cbn [next fst snd]. rewrite <- !app_assoc. cbn [app].
    f_equal. symmetry. rewrite IH. reflexivity.
Qed.

Lemma initialize_luts_run sh prec w :
  initialize_luts (cshape_of sh) sh (fst (dtypes_of prec)) (world_with_Fv sh prec w)
  = (Ok (tables_from (S (next w)) (combine (skipn 2 (cshape_of sh)) (skipn 2 sh))),
     world_after_init sh prec w).
Proof.
  unfold initialize_luts, world_after_init, initialize_luts.
  rewrite luts_loop_run. cbn [app world_with_Fv next].
  destruct (tables_from _ _); reflexivity.
Qed.

(** The tables leave what was printed and copied alone, take
    [2 * length axes] fresh addresses and keep every array already there. *)
Lemma luts_loop_world d axes : forall cs ss w,
  let w' := snd (luts_loop d axes cs ss w) in
  stdout w' = stdout w /\ copied w' = copied w
  /\ next w' = (next w + 2 * List.length axes)%nat
  /\ (forall l, (l < next w)%nat -> heap w' l = heap w l)
  /\ (forall l, (next w' <= l)%nat -> heap w' l = heap w l).
Proof.
  induction axes as [|[Nf N] axes IH]; intros cs ss w; cbn zeta.
  - cbn. repeat split; auto.
  - cbn [luts_loop]. unfold to_gpu, alloc, bind, ret.
    cbn [fst snd next stdout copied heap].
    match goal with |- context [luts_loop d axes ?c ?s ?w1] =>
      specialize (IH c s w1); cbn zeta in IH; cbn [next stdout copied heap] in IH;
      destruct IH as (I1 & I2 & I3 & I4 & I5)
    end.
    rewrite I1, I2, I3. cbn [List.length]. repeat split; try lia.
    + intros l Hl. rewrite I4 by lia. unfold upd.
      destruct (Nat.eqb_spec l (S (next w))); [lia|].
      destruct (Nat.eqb_spec l (next w)); [lia|]. reflexivity.
    + intros l Hl. rewrite I5 by lia. unfold upd.
      destruct (Nat.eqb_spec l (S (next w))); [lia|].
      destruct (Nat.eqb_spec l (next w)); [lia|]. reflexivity.
Qed.

Lemma world_after_init_facts sh prec w :
  let w' := world_after_init sh prec w in
  stdout w' = stdout w /\ copied w' = copied w
  /\ next w' = (S (next w) + 2 * List.length (combine (skipn 2 (cshape_of sh)) (skipn 2 sh)))%nat
  /\ (forall l, (l < next w)%nat -> heap w' l = heap w l)
  /\ heap w' (next w) = Some (mkArr (cshape_of sh) (snd (dtypes_of prec)) true
                                    (zero_buf (snd (dtypes_of prec))))
  /\ (forall l, (next w' <= l)%nat -> heap w' l = heap (world_with_Fv sh prec w) l).
Proof.
  cbn zeta. unfold world_after_init, initialize_luts.
  destruct (luts_loop_world (fst (dtypes_of prec))
              (combine (skipn 2 (cshape_of sh)) (skipn 2 sh)) [] []
              (world_with_Fv sh prec w)) as (I1 & I2 & I3 & I4 & I5).
  cbn [world_with_Fv next stdout copied] in *.
  rewrite I1, I2, I3. repeat split; auto.
  - intros l Hl. rewrite I4 by lia. unfold world_with_Fv. cbn [heap]. unfold upd.
    destruct (Nat.eqb_spec l (next w)); [lia|]. reflexivity.
  - rewrite I4 by lia. unfold world_with_Fv. cbn [heap]. unfold upd.
    rewrite Nat.eqb_refl. reflexivity.
  - intros l Hl. apply I5. rewrite I3. exact Hl.
Qed.

Lemma init_unfold sh al be ga prec w :
  FluidMetric_init sh al be ga prec w =
  match sh with
  | [] => (Raise IndexError, w)
  | _ =>
    if negb (rank sh =? 2)%Z && negb (rank sh =? 3)%Z
    then (Raise (InvalidDimension (rank sh)), w)
    else if String.eqb prec "single" || String.eqb prec "double"
    then if (nth 0 sh 0 * nth 1 sh 0 <=? 0)%Z
         then (Raise (ValueError "batch size must be greater than 0"),
               world_after_init sh prec w)
         else (Ok (instance_of sh al be ga prec (next w)), world_after_init sh prec w)
    else (Raise (UnsupportedPrecision prec), w)
  end.
Proof.
  destruct sh as [|n sh']; [reflexivity|].
  set (sh := n :: sh').
  unfold FluidMetric_init.
  change (half_last sh) with (@ret (list Z) (cshape_of sh)).
  unfold bind at 1. unfold ret at 1.
  rewrite andb_false_r. unfold bind at 1. unfold ret at 1.
  change (Z.of_nat (List.length sh) - 2)%Z with (rank sh).
  destruct (negb (rank sh =? 2)%Z && negb (rank sh =? 3)%Z); [reflexivity|].
  assert (Hgo : forall dts, dts = dtypes_of prec ->
    bind (@ret (np_dtype * np_dtype) dts) (fun dts =>
      fv <- gpuarray_empty (cshape_of sh) (snd dts) ;;
      luts <- initialize_luts (cshape_of sh) sh (fst dts) ;;
      fftplan <- new_Plan (skipn 2 sh) (fst dts) (snd dts) (nth 0 sh 0 * nth 1 sh 0)%Z ;;
      ifftplan <- new_Plan (skipn 2 sh) (snd dts) (fst dts) (nth 0 sh 0 * nth 1 sh 0)%Z ;;
      ret (mkFluidMetric sh (cshape_of sh) al be ga (rank sh) prec (fst dts) (snd dts) fv
             (fst luts) (snd luts) fftplan ifftplan)) w
    = if (nth 0 sh 0 * nth 1 sh 0 <=? 0)%Z
      then (Raise (ValueError "batch size must be greater than 0"),
            world_after_init sh prec w)
      else (Ok (instance_of sh al be ga prec (next w)), world_after_init sh prec w)).
  { intros dts ->. unfold bind at 1. unfold ret at 1.
    unfold bind at 1. unfold gpuarray_empty, alloc.
    change (mkWorld _ _ _ _) with (world_with_Fv sh prec w).
    unfold bind at 1. rewrite initialize_luts_run.
    unfold new_Plan, bind, ret.
    destruct (nth 0 sh 0 * nth 1 sh 0 <=? 0)%Z; reflexivity. }
  unfold dtypes_of in Hgo at 1.
  destruct (String.eqb prec "single") eqn:E1.
  { cbn [orb]. apply Hgo. reflexivity. }
  destruct (String.eqb prec "double") eqn:E2.
  { cbn [orb]. apply Hgo. reflexivity. }
  reflexivity.
Qed.

(** What a successful construction returns. *)
Lemma init_ok sh al be ga prec w self w' :
  FluidMetric_init sh al be ga prec w = (Ok self, w') ->
  (rank sh = 2%Z \/ rank sh = 3%Z)
  /\ self = instance_of sh al be ga prec (next w)
  /\ w' = world_after_init sh prec w.
Proof.
  rewrite init_unfold. destruct sh as [|n sh']; [discriminate|].
  destruct (Z.eqb_spec (rank (n :: sh')) 2) as [E2|E2];
    destruct (Z.eqb_spec (rank (n :: sh')) 3) as [E3|E3]; cbn [negb andb];
    try discriminate;
    (destruct (String.eqb prec "single" || String.eqb prec "double");
     [|discriminate]);
    (destruct (_ <=? 0)%Z; [discriminate|]); intros H; inversion H; auto.
Qed.

(** A successful construction was given a valid precision and a positive
    batch count [shape[0] * shape[1]]. *)
Lemma init_ok_args sh al be ga prec w self w' :
  FluidMetric_init sh al be ga prec w = (Ok self, w') ->
  (prec = "single"%string \/ prec = "double"%string)
  /\ (0 < nth 0 sh 0 * nth 1 sh 0)%Z.
Proof.
  rewrite init_unfold. destruct sh as [|n sh']; [discriminate|].
  destruct (negb _ && negb _); [discriminate|].
  destruct (String.eqb_spec prec "single") as [P1|P1];
    [|destruct (String.eqb_spec prec "double") as [P2|P2]]; cbn [orb];
    try discriminate;
    (destruct (Z.leb_spec (nth 0 (n :: sh') 0 * nth 1 (n :: sh') 0)%Z 0%Z);
     [discriminate|]); intros _; split; auto.
Qed.

(** C3 (as amended): constructing a [FluidMetric] never prints the
    ill-conditioning warning, whatever the coefficients; the test
    [gamma <= 4*alpha + 2*beta] is evaluated but its guard is always false,
    so the lines printed so far are left as they were. *)
Theorem FluidMetric_init_never_warns (sh : list Z) (al be ga : R)
    (prec : string) (w : world) :
  stdout (snd (FluidMetric_init sh al be ga prec w)) = stdout w.
Proof.
  rewrite init_unfold.
  destruct sh as [|n sh']; [reflexivity|].
  destruct (negb (rank (n :: sh') =? 2)%Z && negb (rank (n :: sh') =? 3)%Z);
    [reflexivity|].
  destruct (String.eqb prec "single" || String.eqb prec "double"); [|reflexivity].
  pose proof (world_after_init_facts (n :: sh') prec w) as F. cbn zeta in F.
  destruct F as (F & _).
  destruct (_ <=? 0)%Z; exact F.
Qed.

(** C3 (counterexample): with [alpha = beta = gamma = 1], so that
    [gamma <= 4*alpha + 2*beta], construction on a 4 x 4 grid succeeds and
    nothing at all has been printed. *)
Lemma FluidMetric_init_ill_conditioned_silent :
  (1 <= 4 * 1 + 2 * 1)%R /\
  (exists self w, FluidMetric_init [1; 2; 4; 4]%Z 1 1 1 "single" world0 = (Ok self, w)
                  /\ stdout w = []).
Proof.
  split; [lra|].
  rewrite init_unfold. cbn -[instance_of world_after_init].
  eexists; eexists; split; [reflexivity|].
  pose proof (world_after_init_facts [1; 2; 4; 4]%Z "single" world0) as F.
  cbn zeta in F. destruct F as (F & _). exact F.
Qed.

(** C4 (as amended): construction fails with the dimensionality error
    exactly when the shape is not empty and its spatial rank is neither 2
    nor 3; it fails with the unsupported-precision error exactly when the
    spatial rank is 2 or 3 and the precision is neither "single" nor
    "double" (the rank is tested first); on either of these two failures no
    instance is returned and the world is as it was before: nothing has been
    allocated yet. *)
Theorem FluidMetric_init_errors (sh : list Z) (al be ga : R) (prec : string)
    (w : world) :
  ((exists d, fst (FluidMetric_init sh al be ga prec w) = Raise (InvalidDimension d))
   <-> sh <> [] /\ rank sh <> 2%Z /\ rank sh <> 3%Z)
  /\
  ((exists p, fst (FluidMetric_init sh al be ga prec w) = Raise (UnsupportedPrecision p))
   <-> (rank sh = 2%Z \/ rank sh = 3%Z) /\ prec <> "single"%string /\ prec <> "double"%string)
  /\
  (forall e, fst (FluidMetric_init sh al be ga prec w) = Raise e ->
             (exists d, e = InvalidDimension d) \/ (exists p, e = UnsupportedPrecision p) ->
             snd (FluidMetric_init sh al be ga prec w) = w).
Proof.
  rewrite init_unfold.
  destruct sh as [|n sh'].
  { cbn [fst snd]. split; [|split].
    - split; [intros [d H]; discriminate | intros [H _]; now elim H].
    - split; [intros [p H]; discriminate|].
      unfold rank; cbn. intros [[H|H] _]; discriminate.
    - reflexivity. }
  set (s := n :: sh').
  assert (Hs : s <> []) by discriminate.
  assert (Hvalid : (rank s = 2 \/ rank s = 3)%Z ->
    let r := if String.eqb prec "single" || String.eqb prec "double"
             then if (nth 0 s 0 * nth 1 s 0 <=? 0)%Z
                  then (@Raise FluidMetric (ValueError "batch size must be greater than 0"),
                        world_after_init s prec w)
                  else (Ok (instance_of s al be ga prec (next w)),
                        world_after_init s prec w)
             else (Raise (UnsupportedPrecision prec), w) in
    ((exists d, fst r = Raise (InvalidDimension d))
     <-> s <> [] /\ rank s <> 2%Z /\ rank s <> 3%Z)
    /\ ((exists p, fst r = Raise (UnsupportedPrecision p))
        <-> (rank s = 2%Z \/ rank s = 3%Z)
            /\ prec <> "single"%string /\ prec <> "double"%string)
    /\ (forall e, fst r = Raise e ->
          (exists d, e = InvalidDimension d) \/ (exists p, e = UnsupportedPrecision p) ->
          snd r = w)).
  { intros Hr. cbn zeta.
    destruct (String.eqb_spec prec "single") as [P1|P1];
      [|destruct (String.eqb_spec prec "double") as [P2|P2]]; cbn [orb].
    1,2: destruct (nth 0 s 0 * nth 1 s 0 <=? 0)%Z; cbn [fst snd];
      (split; [|split]);
      [ split; [intros [? H]; discriminate | intros (_ & ? & ?); lia]
      | split; [intros [? H]; discriminate | intros (_ & ? & ?); congruence]
      | intros e H [[d Hd]|[p Hp]]; subst e; discriminate
      | split; [intros [? H]; discriminate | intros (_ & ? & ?); lia]
      | split; [intros [? H]; discriminate | intros (_ & ? & ?); congruence]
      | intros e H; discriminate ].
    cbn [fst snd]. split; [|split].
    - split; [intros [? H]; discriminate | intros (_ & ? & ?); lia].
    - split; [intros _; auto | intros _; eexists; reflexivity].
    - reflexivity. }
  destruct (Z.eqb_spec (rank s) 2) as [E2|E2];
    destruct (Z.eqb_spec (rank s) 3) as [E3|E3]; cbn [negb andb];
    try (exfalso; lia).
  - apply Hvalid. auto.
  - apply Hvalid. auto.
  - (* any other rank *)
    cbn [fst snd]. split; [|split].
    + split; [intros _; auto | intros _; eexists; reflexivity].
    + split; [intros [p H]; discriminate | intros [[H|H] _]; contradiction].
    + reflexivity.
Qed.

(** C4 (counterexample): a shape of spatial rank 4 together with the
    precision "half" fails with the dimensionality error, not with the
    unsupported-precision error, although "half" is outside
    {"single", "double"}. *)
Lemma FluidMetric_init_rank_before_precision :
  fst (FluidMetric_init [1; 2; 4; 4; 4; 4]%Z 1 1 10 "half" world0)
    = Raise (InvalidDimension 4)
  /\ "half"%string <> "single"%string /\ "half"%string <> "double"%string.
Proof.
  rewrite init_unfold. cbn. repeat split; discriminate.
Qed.

(** A later failure is of another kind: with a valid rank and precision the
    transform plan refuses the batch count 0 of the shape (0, 2, 4, 4), and
    by then the scratch spectrum and the four lookup tables have been
    allocated. *)
Lemma FluidMetric_init_batch_failure :
  fst (FluidMetric_init [0; 2; 4; 4]%Z 1 1 10 "single" world0)
    = Raise (ValueError "batch size must be greater than 0")
  /\ next (snd (FluidMetric_init [0; 2; 4; 4]%Z 1 1 10 "single" world0)) = 5%nat
  /\ (forall l, (l < 5)%nat ->
        heap (snd (FluidMetric_init [0; 2; 4; 4]%Z 1 1 10 "single" world0)) l <> None).
Proof.
  rewrite init_unfold. cbn -[world_after_init].
  split; [reflexivity|]. split; [reflexivity|].
  intros l Hl.
  do 5 (destruct l as [|l]; [cbn; discriminate|]). lia.
Qed.

(** ** Unimplemented operations *)

Lemma cshape_length sh : sh <> [] -> List.length (cshape_of sh) = List.length sh.
Proof.
  intros H. unfold cshape_of.
  destruct (exists_last H) as (l & x & ->).
  rewrite removelast_last, !length_app. reflexivity.
Qed.

Lemma getitem_ok {A} (l : list A) (i : nat) :
  (i < List.length l)%nat -> exists x, nth_error l i = Some x /\
                                  forall w, getitem l i w = (Ok x, w).
Proof.
  intros H. unfold getitem.
  destruct (nth_error l i) as [x|] eqn:E.
  - exists x. split; reflexivity.
  - apply nth_error_None in E. lia.
Qed.

Lemma rank_nonempty sh : (rank sh = 2 \/ rank sh = 3)%Z -> sh <> [].
Proof. intros [H|H] ->; discriminate. Qed.

(** C7: [Ad] raises [NotImplementedError] on every input, and so does
    [operator_fourier] on every instance that was constructed with spatial
    dimension 3; in both cases the world is left as it was (no numeric result
    is produced). *)
Theorem not_implemented_signals (sh : list Z) (al be ga : R) (prec : string)
    (w0 w1 : world) (self : FluidMetric)
    (Hinit : FluidMetric_init sh al be ga prec w0 = (Ok self, w1))
    (Hdim : dim self = 3%Z) :
  (forall (adj : AdjRep) (phi v : Field) (w : world),
      Ad adj phi v w = (Raise NotImplementedError, w))
  /\
  (forall (Fm : loc) (inverse : bool) (w : world),
      operator_fourier self Fm inverse w = (Raise NotImplementedError, w)).
Proof.
  split; [reflexivity|].
  intros Fm inverse w.
  destruct (init_ok _ _ _ _ _ _ _ _ Hinit) as (Hr & -> & _).
  cbn [dim instance_of] in Hdim.
  assert (Hlen : List.length (cshape_of sh) = 5%nat).
  { rewrite cshape_length by (apply rank_nonempty; auto). unfold rank in Hdim. lia. }
  unfold operator_fourier. cbn [complexshape dim instance_of].
  destruct (getitem_ok (cshape_of sh) 2%nat) as (x2 & _ & H2); [lia|].
  destruct (getitem_ok (cshape_of sh) 3%nat) as (x3 & _ & H3); [lia|].
  unfold bind. rewrite H2, H3, Hdim. reflexivity.
Qed.

Lemma not_implemented_signals_witness :
  exists self w1,
    FluidMetric_init [1; 3; 2; 2; 2]%Z 1 1 10 "double" world0 = (Ok self, w1)
    /\ dim self = 3%Z
    /\ (forall (adj : AdjRep) (phi v : Field) (w : world),
           Ad adj phi v w = (Raise NotImplementedError, w))
    /\ (forall (Fm : loc) (inverse : bool) (w : world),
           operator_fourier self Fm inverse w = (Raise NotImplementedError, w)).
Proof.
  exists (instance_of [1; 3; 2; 2; 2]%Z 1 1 10 "double" 0).
  exists (world_after_init [1; 3; 2; 2; 2]%Z "double" world0).
  assert (H : FluidMetric_init [1; 3; 2; 2; 2]%Z 1 1 10 "double" world0
              = (Ok (instance_of [1; 3; 2; 2; 2]%Z 1 1 10 "double" 0),
                 world_after_init [1; 3; 2; 2; 2]%Z "double" world0)).
  { rewrite init_unfold. reflexivity. }
  split; [exact H|]. split; [reflexivity|].
  exact (not_implemented_signals _ _ _ _ _ _ _ _ H eq_refl).
Defined.

(** ** [AdjRep]: the stored dimension is never read *)

(** C10: [AdjRep] can be constructed from any value [dim], without
    validation, and no operation depends on the stored value: on any two
    instances every operation returns the same result for the same
    arguments. *)
Theorem AdjRep_dim_irrelevant :
  (forall (d : pyval) (w : world),
      exists self, AdjRep_init d w = (Ok self, w) /\ adj_dim self = d)
  /\
  (forall (jacobian_times_vectorfield : Field -> Field -> bool -> Field)
          (divergence : Field -> Field) (interp_def : Field -> Field -> Field)
          (self1 self2 : AdjRep) (x y : Field) (metric : Metric),
      ad jacobian_times_vectorfield self1 x y
        = ad jacobian_times_vectorfield self2 x y
      /\ ad_star jacobian_times_vectorfield divergence self1 x y
        = ad_star jacobian_times_vectorfield divergence self2 x y
      /\ Ad_star jacobian_times_vectorfield interp_def self1 x y
        = Ad_star jacobian_times_vectorfield interp_def self2 x y
      /\ ad_dagger jacobian_times_vectorfield divergence self1 x y metric
        = ad_dagger jacobian_times_vectorfield divergence self2 x y metric
      /\ Ad_dagger jacobian_times_vectorfield interp_def self1 x y metric
        = Ad_dagger jacobian_times_vectorfield interp_def self2 x y metric
      /\ sym jacobian_times_vectorfield divergence self1 x y metric
        = sym jacobian_times_vectorfield divergence self2 x y metric
      /\ sym_dagger jacobian_times_vectorfield divergence self1 x y metric
        = sym_dagger jacobian_times_vectorfield divergence self2 x y metric).
Proof.
  split.
  - intros d w. exists (mkAdjRep d). split; reflexivity.
  - intros. repeat split.
Qed.

(** ** Finite sums *)

Lemma Rsum_ext n f g :
  (forall i, (i < n)%nat -> f i = g i) -> Rsum n f = Rsum n g.
Proof.
  induction n as [|n IH]; intros H; cbn; [reflexivity|].
  rewrite IH by (intros; apply H; lia). rewrite H by lia. reflexivity.
Qed.

Lemma Rsum_plus n f g :
  Rsum n (fun i => (f i + g i)%R) = (Rsum n f + Rsum n g)%R.
Proof. induction n as [|n IH]; cbn; [lra|]. rewrite IH. lra. Qed.

Lemma Rsum_minus n f g :
  Rsum n (fun i => (f i - g i)%R) = (Rsum n f - Rsum n g)%R.
Proof. induction n as [|n IH]; cbn; [lra|]. rewrite IH. lra. Qed.

Lemma Rsum_scal n c f :
  Rsum n (fun i => (c * f i)%R) = (c * Rsum n f)%R.
Proof. induction n as [|n IH]; cbn; [lra|]. rewrite IH. lra. Qed.

Lemma Rsum_scal_r n c f :
  Rsum n (fun i => (f i * c)%R) = (Rsum n f * c)%R.
Proof. induction n as [|n IH]; cbn; [lra|]. rewrite IH. lra. Qed.

Lemma Rsum_zero n : Rsum n (fun _ => 0%R) = 0%R.
Proof. induction n as [|n IH]; cbn; [reflexivity|]. rewrite IH. lra. Qed.

Lemma Rsum_swap n p (f : nat -> nat -> R) :
  Rsum n (fun i => Rsum p (fun j => f i j))
  = Rsum p (fun j => Rsum n (fun i => f i j)).
Proof.
  induction n as [|n IH]; cbn.
  - symmetry. apply Rsum_zero.
  - rewrite IH, <- Rsum_plus. reflexivity.
Qed.

Lemma grid_sum_ext sh : forall f g,
  (forall x, f x = g x) -> grid_sum sh f = grid_sum sh g.
Proof.
  induction sh as [|N sh IH]; intros f g H; cbn; [apply H|].
  apply Rsum_ext. intros i _. apply IH. intros x. apply H.
Qed.

Lemma grid_sum_plus sh : forall f g,
  grid_sum sh (fun x => (f x + g x)%R) = (grid_sum sh f + grid_sum sh g)%R.
Proof.
  induction sh as [|N sh IH]; intros f g; cbn; [reflexivity|].
  rewrite <- Rsum_plus. apply Rsum_ext. intros i _. apply IH.
Qed.

Lemma grid_sum_minus sh : forall f g,
  grid_sum sh (fun x => (f x - g x)%R) = (grid_sum sh f - grid_sum sh g)%R.
Proof.
  induction sh as [|N sh IH]; intros f g; cbn; [reflexivity|].
  rewrite <- Rsum_minus. apply Rsum_ext. intros i _. apply IH.
Qed.

Lemma grid_sum_Rsum sh : forall p (f : nat -> index -> R),
  grid_sum sh (fun x => Rsum p (fun j => f j x))
  = Rsum p (fun j => grid_sum sh (f j)).
Proof.
  induction sh as [|N sh IH]; intros p f; cbn; [reflexivity|].
  rewrite Rsum_swap. apply Rsum_ext. intros i _.
  rewrite <- (IH p (fun j x => f j (i :: x))). reflexivity.
Qed.

(** ** The adjoint action [ad] *)

(** C6: [ad] is antisymmetric, [ad(v,w) = -ad(w,v)], vanishes on the
    diagonal, [ad(v,v) = 0], and is bilinear, for every Jacobian-vector
    product that is itself bilinear. *)
Theorem ad_antisymmetric_bilinear
    (jacobian_times_vectorfield : Field -> Field -> bool -> Field)
    (self : AdjRep)
    (Hjtv : bilinear (fun a b => jacobian_times_vectorfield a b false)) :
  (forall v w idx, ad jacobian_times_vectorfield self v w idx
                   = (- ad jacobian_times_vectorfield self w v idx)%R)
  /\ (forall v idx, ad jacobian_times_vectorfield self v v idx = 0%R)
  /\ bilinear (ad jacobian_times_vectorfield self).
Proof.
  destruct Hjtv as (Hal & Hsl & Har & Hsr).
  split; [|split].
  - intros v w idx. unfold ad, fsub. lra.
  - intros v idx. unfold ad, fsub. lra.
  - unfold bilinear, ad, fsub. repeat split; intros.
    + rewrite Hal, Har. lra.
    + rewrite Hsl, Hsr. lra.
    + rewrite Hal, Har. lra.
    + rewrite Hsl, Hsr. lra.
Qed.

(** The Jacobian-vector product built on a linear derivative is bilinear. *)
Lemma jtv_bilinear d partial :
  linear_partial partial -> bilinear (fun a b => jtv d partial a b false).
Proof.
  intros [Hadd Hscal]. unfold bilinear, jtv. repeat split; intros.
  - destruct idx as [|n [|i x]]; try lra.
    rewrite <- Rsum_plus. apply Rsum_ext. intros j _.
    rewrite (Hadd j (comp a i) (comp b i)); [lra|].
    intros [|n' x']; cbn; unfold fadd; lra.
  - destruct idx as [|n [|i x]]; try lra.
    rewrite <- Rsum_scal. apply Rsum_ext. intros j _.
    rewrite (Hscal j c (comp a i)); [lra|].
    intros [|n' x']; cbn; unfold fscal; lra.
  - destruct idx as [|n [|i x]]; try lra.
    rewrite <- Rsum_plus. apply Rsum_ext. intros j _. unfold fadd. lra.
  - destruct idx as [|n [|i x]]; try lra.
    rewrite <- Rsum_scal. apply Rsum_ext. intros j _. unfold fscal. lra.
Qed.

Lemma central_diff_linear exts : linear_partial (central_diff exts).
Proof.
  split; intros j; intros; unfold central_diff;
    (destruct idx as [|n x]; [lra|]); rewrite !H; lra.
Qed.

Lemma ad_antisymmetric_bilinear_witness :
  bilinear (fun a b => jtv 2 (central_diff [4; 4]%nat) a b false)
  /\ (forall v w idx,
         ad (jtv 2 (central_diff [4; 4]%nat)) (mkAdjRep (PyInt 2)) v w idx
         = (- ad (jtv 2 (central_diff [4; 4]%nat)) (mkAdjRep (PyInt 2)) w v idx)%R)
  /\ (forall v idx,
         ad (jtv 2 (central_diff [4; 4]%nat)) (mkAdjRep (PyInt 2)) v v idx = 0%R)
  /\ bilinear (ad (jtv 2 (central_diff [4; 4]%nat)) (mkAdjRep (PyInt 2))).
Proof.
  split.
  - exact (jtv_bilinear 2 (central_diff [4; 4]%nat)
             (central_diff_linear [4; 4]%nat)).
  - exact (ad_antisymmetric_bilinear (jtv 2 (central_diff [4; 4]%nat))
             (mkAdjRep (PyInt 2))
             (jtv_bilinear 2 (central_diff [4; 4]%nat)
                (central_diff_linear [4; 4]%nat))).
Defined.

(** ** The coadjoint action [ad_star] and the pairing *)

Lemma pairing_unfold nb d exts (a b : Field) :
  pairing (nb :: d :: exts) a b
  = Rsum nb (fun n => Rsum d (fun i =>
      grid_sum exts (fun x => (a (n :: i :: x) * b (n :: i :: x))%R))).
Proof. reflexivity. Qed.

(** The transposed Jacobian term of [ad_star] pairs with [w] exactly as [m]
    pairs with the first term of [ad]: exchanging the two channel sums. *)
Lemma transpose_exchange d exts (T : nat -> nat -> index -> R) :
  Rsum d (fun i => grid_sum exts (fun x => Rsum d (fun j => T i j x)))
  = Rsum d (fun i => grid_sum exts (fun x => Rsum d (fun j => T j i x))).
Proof.
  transitivity (Rsum d (fun i => Rsum d (fun j => grid_sum exts (T i j)))).
  { apply Rsum_ext. intros i _. apply grid_sum_Rsum. }
  rewrite Rsum_swap. apply Rsum_ext. intros i _.
  symmetry. apply (grid_sum_Rsum exts d (fun j x => T j i x)).
Qed.

(** Within one batch [n]: the pairing of [ad_star(v,m)] with [w] is the
    pairing of [m] with [ad(v,w)] plus the remainder of integration by
    parts. *)
Lemma ad_star_pairing_batch (d : nat) (partial : nat -> Field -> Field)
    (self : AdjRep) (exts : list nat) (v m w : Field) (n : nat) :
  Rsum d (fun i => grid_sum exts (fun x =>
    (ad_star (jtv d partial) (div d partial) self v m (n :: i :: x)
     * w (n :: i :: x))%R))
  = (Rsum d (fun i => grid_sum exts (fun x =>
       (m (n :: i :: x) * ad (jtv d partial) self v w (n :: i :: x))%R))
     + Rsum d (fun i => grid_sum exts (fun x =>
         Rsum d (fun j =>
           (partial j (comp m i) (n :: x) * v (n :: j :: x) * w (n :: i :: x)
            + m (n :: i :: x) * partial j (comp v j) (n :: x) * w (n :: i :: x)
            + m (n :: i :: x) * v (n :: j :: x) * partial j (comp w i) (n :: x))%R))))%R.
Proof.
  set (T := fun i j x => (partial i (comp v j) (n :: x) * m (n :: j :: x)
                          * w (n :: i :: x))%R).
  set (U := fun i j x =>
              (partial j (comp m i) (n :: x) * v (n :: j :: x) * w (n :: i :: x)
               + m (n :: i :: x) * partial j (comp v j) (n :: x) * w (n :: i :: x))%R).
  transitivity (Rsum d (fun i => grid_sum exts (fun x =>
                  Rsum d (fun j => T i j x)))
                + Rsum d (fun i => grid_sum exts (fun x =>
                  Rsum d (fun j => U i j x))))%R.
  { rewrite <- Rsum_plus. apply Rsum_ext. intros i _.
    rewrite <- grid_sum_plus. apply grid_sum_ext. intros x.
    unfold ad_star, fadd, fmul, jtv, div, expand_dims1, T, U.
    rewrite !Rsum_plus, !Rsum_scal_r, !Rsum_scal. ring. }
  rewrite transpose_exchange.
  rewrite <- !Rsum_plus. apply Rsum_ext. intros i _.
  rewrite <- !grid_sum_plus. apply grid_sum_ext. intros x.
  unfold ad, fsub, jtv, T, U.
  rewrite <- !Rsum_plus, <- Rsum_minus, <- Rsum_scal, <- Rsum_plus.
  apply Rsum_ext. intros j _. ring.
Qed.

(** C2 (as amended): for all fields [v], [m], [w] of shape (nb, d, exts),
    the pairing of [ad_star(v,m)] with [w] equals the pairing of [m] with
    [ad(v,w)] plus the remainder that integration by parts leaves on the
    grid; the two pairings agree exactly when that remainder vanishes. *)
Theorem ad_star_pairing (d : nat) (partial : nat -> Field -> Field)
    (self : AdjRep) (nb : nat) (exts : list nat) (v m w : Field) :
  pairing (nb :: d :: exts) (ad_star (jtv d partial) (div d partial) self v m) w
  = (pairing (nb :: d :: exts) m (ad (jtv d partial) self v w)
     + leibniz_defect d partial (nb :: d :: exts) v m w)%R.
Proof.
  rewrite !pairing_unfold. unfold leibniz_defect. cbn [grid_sum].
  rewrite <- Rsum_plus. apply Rsum_ext. intros n _.
  apply ad_star_pairing_batch.
Qed.

Lemma bump_pairings :
  pairing [1; 2; 3; 1]%nat
    (ad_star (jtv 2 (central_diff [3; 1]%nat)) (div 2 (central_diff [3; 1]%nat))
             (mkAdjRep (PyInt 2)) (bump 0) (bump 0)) (bump 1) = 0%R
  /\ pairing [1; 2; 3; 1]%nat (bump 0)
       (ad (jtv 2 (central_diff [3; 1]%nat)) (mkAdjRep (PyInt 2)) (bump 0) (bump 1))
     = (- (1 / 2))%R.
Proof.
  split; unfold pairing, ad_star, ad, jtv, div, central_diff, fadd, fsub, fmul,
    expand_dims1, comp, bump; cbn; lra.
Qed.

(** C2 (counterexample): on one batch of a periodic 3 x 1 grid with the
    central difference, take [v = m] the unit bump at grid point 0 and [w] the
    unit bump at grid point 1: the pairing of [ad_star(v,m)] with [w] is 0,
    the pairing of [m] with [ad(v,w)] is -1/2. *)
Lemma ad_star_pairing_not_exact :
  pairing [1; 2; 3; 1]%nat
    (ad_star (jtv 2 (central_diff [3; 1]%nat)) (div 2 (central_diff [3; 1]%nat))
             (mkAdjRep (PyInt 2)) (bump 0) (bump 0)) (bump 1)
  <> pairing [1; 2; 3; 1]%nat (bump 0)
       (ad (jtv 2 (central_diff [3; 1]%nat)) (mkAdjRep (PyInt 2)) (bump 0) (bump 1)).
Proof.
  destruct bump_pairings as [-> ->]. lra.
Qed.

(** ** The pairing identity is exact for no difference quotient *)

Lemma Rsum_single n i (f : nat -> R) :
  (i < n)%nat -> (forall j, (j < n)%nat -> j <> i -> f j = 0%R) ->
  Rsum n f = f i.
Proof.
  induction n as [|n IH]; intros Hi Hz; [lia|]. cbn.
  destruct (Nat.eq_dec n i) as [->|Hne].
  - rewrite (Rsum_ext i f (fun _ => 0%R)) by (intros j Hj; apply Hz; lia).
    rewrite Rsum_zero. ring.
  - rewrite IH by (try lia; intros j Hj Hji; apply Hz; lia).
    rewrite (Hz n) by lia. ring.
Qed.

Lemma grid_sum_ext_in sh : forall f g,
  (forall x, in_grid sh x -> f x = g x) -> grid_sum sh f = grid_sum sh g.
Proof.
  induction sh as [|N sh IH]; intros f g H; cbn; [apply H; exact I|].
  apply Rsum_ext. intros i Hi. apply IH. intros x Hx. apply H. cbn. auto.
Qed.

Lemma grid_sum_zero sh : grid_sum sh (fun _ => 0%R) = 0%R.
Proof.
  induction sh as [|N sh IH]; cbn; [reflexivity|].
  rewrite (Rsum_ext N _ (fun _ => 0%R)) by (intros; apply IH). apply Rsum_zero.
Qed.

(** A sum over a grid with a single non-zero term. *)
Lemma grid_sum_single sh : forall (F : index -> R) p,
  in_grid sh p ->
  (forall x, in_grid sh x -> x <> p -> F x = 0%R) ->
  grid_sum sh F = F p.
Proof.
  induction sh as [|N sh IH]; intros F p Hp Hz.
  - destruct p; [reflexivity|contradiction].
  - destruct p as [|i p]; [contradiction|]. destruct Hp as [Hi Hp]. cbn [grid_sum].
    rewrite (Rsum_single N i); [|exact Hi|].
    + apply (IH (fun x => F (i :: x)) p Hp).
      intros x Hx Hne. apply Hz; [cbn; auto|congruence].
    + intros j Hj Hji.
      rewrite (grid_sum_ext_in sh _ (fun _ => 0%R)); [apply grid_sum_zero|].
      intros x Hx. apply Hz; [cbn; auto|congruence].
Qed.

Lemma unit_bump_at p : unit_bump p p = 1%R.
Proof. unfold unit_bump. destruct (list_eq_dec Nat.eq_dec p p); [reflexivity|congruence]. Qed.

Lemma unit_bump_off p x : x <> p -> unit_bump p x = 0%R.
Proof.
  intros H. unfold unit_bump.
  destruct (list_eq_dec Nat.eq_dec x p); [contradiction|reflexivity].
Qed.

(** The remainder of integration by parts on two equal bumps at [p] and a
    bump at another point [q]: only the derivative of the bump at [q], taken
    at [p], is left. *)
Lemma leibniz_defect_bumps d partial nb exts n c p q :
  (n < nb)%nat -> (c < d)%nat -> in_grid exts p -> p <> q ->
  leibniz_defect d partial (nb :: d :: exts)
    (unit_bump (n :: c :: p)) (unit_bump (n :: c :: p)) (unit_bump (n :: c :: q))
  = partial c (comp (unit_bump (n :: c :: q)) c) (n :: p).
Proof.
  intros Hn Hc Hp Hpq. unfold leibniz_defect.
  assert (Hw : unit_bump (n :: c :: q) (n :: c :: p) = 0%R)
    by (apply unit_bump_off; congruence).
  rewrite (grid_sum_single (nb :: d :: exts) _ (n :: c :: p)); [|cbn; auto|].
  - rewrite (Rsum_single d c); [|exact Hc|].
    + rewrite !unit_bump_at, Hw. ring.
    + intros j Hj Hjc.
      rewrite (unit_bump_off (n :: c :: p) (n :: j :: p)) by congruence.
      rewrite Hw. ring.
  - intros x Hx Hne. destruct x as [|n' [|i' x]]; try (cbn in Hx; tauto).
    rewrite (Rsum_ext d _ (fun _ => 0%R)); [apply Rsum_zero|].
    intros j Hj.
    rewrite (unit_bump_off (n :: c :: p) (n' :: i' :: x)) by exact Hne.
    destruct (list_eq_dec Nat.eq_dec (n' :: j :: x) (n :: c :: p)) as [E|E].
    + inversion E; subst.
      rewrite (unit_bump_off (n :: c :: q) (n :: i' :: p)) by congruence. ring.
    + rewrite (unit_bump_off (n :: c :: p) (n' :: j :: x)) by exact E. ring.
Qed.

(** If the pairing identity held exactly for all fields, the derivative of
    every unit bump would vanish at every other grid point: no difference
    quotient does that. *)
Lemma exact_pairing_flattens_bumps d partial self nb exts :
  (forall v m w,
      pairing (nb :: d :: exts)
        (ad_star (jtv d partial) (div d partial) self v m) w
      = pairing (nb :: d :: exts) m (ad (jtv d partial) self v w)) ->
  forall n c p q,
    (n < nb)%nat -> (c < d)%nat -> in_grid exts p -> p <> q ->
    partial c (comp (unit_bump (n :: c :: q)) c) (n :: p) = 0%R.
Proof.
  intros Hexact n c p q Hn Hc Hp Hpq.
  pose proof (leibniz_defect_bumps d partial nb exts n c p q Hn Hc Hp Hpq) as Hd.
  specialize (Hexact (unit_bump (n :: c :: p)) (unit_bump (n :: c :: p))
                (unit_bump (n :: c :: q))).
  rewrite !pairing_unfold in Hexact. unfold leibniz_defect in Hd.
  cbn [grid_sum] in Hd.
  rewrite (Rsum_ext nb _ _
             (fun n' _ => ad_star_pairing_batch d partial self exts
                            (unit_bump (n :: c :: p)) (unit_bump (n :: c :: p))
                            (unit_bump (n :: c :: q)) n')) in Hexact.
  rewrite Rsum_plus in Hexact. lra.
Qed.

(** ** Array copies made by [sharp] and [flat] *)

Lemma nocopy_ret {A} (a : A) : nocopy (ret a).
Proof. intros w. reflexivity. Qed.

Lemma nocopy_raise {A} (e : exn) : nocopy (@raise A e).
Proof. intros w. reflexivity. Qed.

Lemma nocopy_bind {A B} (c : M A) (k : A -> M B) :
  nocopy c -> (forall a, nocopy (k a)) -> nocopy (bind c k).
Proof.
  intros Hc Hk w. unfold bind. specialize (Hc w).
  destruct (c w) as [[a|e] w1]; cbn in *; [|exact Hc].
  rewrite Hk. exact Hc.
Qed.

Lemma nocopy_load l : nocopy (load l).
Proof. intros w. unfold load. destruct (heap w l); reflexivity. Qed.

Lemma nocopy_assert c msg : nocopy (assert c msg).
Proof. intros w. unfold assert. destruct c; reflexivity. Qed.

Lemma nocopy_getitem {A} (l : list A) i : nocopy (getitem l i).
Proof. intros w. unfold getitem. destruct (nth_error l i); reflexivity. Qed.

Lemma nocopy_store_buf l b : nocopy (store_buf l b).
Proof. intros w. unfold store_buf. destruct (heap w l); reflexivity. Qed.

Lemma nocopy_alloc a : nocopy (alloc a).
Proof. intros w. reflexivity. Qed.

Ltac nocopy_step :=
  first
    [ apply nocopy_bind; [|intros ?]
    | apply nocopy_ret | apply nocopy_raise | apply nocopy_load
    | apply nocopy_assert | apply nocopy_getitem | apply nocopy_store_buf
    | apply nocopy_alloc
    | match goal with
      | |- nocopy (match ?x with _ => _ end) => destruct x
      end ].

Lemma nocopy_empty_like l : nocopy (gpuarray_empty_like l).
Proof. unfold gpuarray_empty_like. repeat nocopy_step. Qed.

Lemma nocopy_fft x y p s : nocopy (fft x y p s).
Proof. unfold fft. repeat nocopy_step. Qed.

Lemma nocopy_ifft x y p s : nocopy (ifft x y p s).
Proof. unfold ifft. repeat nocopy_step. Qed.

Lemma nocopy_operator_2d inv Fm c0 s0 c1 s1 al be ga nn nx ny :
  nocopy (operator_2d inv Fm c0 s0 c1 s1 al be ga nn nx ny).
Proof. unfold operator_2d. repeat nocopy_step. Qed.

Lemma nocopy_operator_fourier self Fm inv : nocopy (operator_fourier self Fm inv).
Proof.
  unfold operator_fourier.
  repeat first [apply nocopy_operator_2d | nocopy_step].
Qed.

Lemma nocopy_sharp self m out : nocopy (sharp self m out).
Proof.
  unfold sharp.
  repeat first [apply nocopy_fft | apply nocopy_ifft | apply nocopy_empty_like
               | apply nocopy_operator_fourier | nocopy_step].
Qed.

(** Everything [flat] does after the conversion of its input. *)
Lemma nocopy_flat_rest self m' o :
  nocopy (fft m' (Fv self) (fftplan self) false ;;;
          operator_fourier self (Fv self) false ;;;
          ifft (Fv self) o (ifftplan self) true ;;;
          ret o).
Proof.
  repeat first [apply nocopy_fft | apply nocopy_ifft
               | apply nocopy_operator_fourier | nocopy_step].
Qed.

(** Successful runs, step by step. *)
Lemma bind_ok {A B} (c : M A) (k : A -> M B) w r w' :
  bind c k w = (Ok r, w') ->
  exists a w1, c w = (Ok a, w1) /\ k a w1 = (Ok r, w').
Proof.
  unfold bind. destruct (c w) as [[a|e] w1]; [|discriminate].
  intros H. exists a, w1. split; [reflexivity|exact H].
Qed.

Lemma load_ok l w a w1 :
  load l w = (Ok a, w1) -> heap w l = Some a /\ w1 = w.
Proof.
  unfold load. destruct (heap w l); [|discriminate].
  intros H; inversion H; auto.
Qed.

Lemma assert_ok c msg w u w1 :
  assert c msg w = (Ok u, w1) -> c = true /\ w1 = w.
Proof.
  unfold assert. destruct c; [|discriminate]. intros H; inversion H; auto.
Qed.

Lemma output_ok m out w o w1 :
  match out with
  | None => gpuarray_empty_like m
  | Some o => ret o
  end w = (Ok o, w1) ->
  copied w1 = copied w
  /\ (forall l a, heap w l = Some a -> (l < next w)%nat -> heap w1 l = Some a).
Proof.
  destruct out as [o'|].
  - intros H; inversion H; subst. auto.
  - unfold gpuarray_empty_like. intros H.
    apply bind_ok in H. destruct H as (a & w0 & Hl & H).
    apply load_ok in Hl. destruct Hl as [_ ->].
    inversion H; subst; cbn. split; [reflexivity|].
    intros l a' Hl Hlt. unfold upd.
    destruct (Nat.eqb_spec l (next w)); [lia|exact Hl].
Qed.

Lemma astype_ok l d w l' w1 :
  astype l d w = (Ok l', w1) -> copied w1 = copied w ++ [(l, l')].
Proof.
  unfold astype. intros H.
  apply bind_ok in H. destruct H as (a & w0 & Hl & H).
  apply load_ok in Hl. destruct Hl as [_ ->].
  destruct (a_buf a); [|discriminate].
  inversion H; subst; reflexivity.
Qed.

(** A successful [flat] has made exactly one copy: of its input. *)
Lemma flat_copies self m out w r w' :
  flat self m out w = (Ok r, w') ->
  exists m', copied w' = copied w ++ [(m, m')].
Proof.
  unfold flat. intros H.
  apply bind_ok in H. destruct H as (am & w1 & H1 & H).
  apply load_ok in H1. destruct H1 as [_ ->].
  apply bind_ok in H. destruct H as (u & w1 & H1 & H).
  apply assert_ok in H1. destruct H1 as [_ ->].
  apply bind_ok in H. destruct H as (af & w1 & H1 & H).
  apply load_ok in H1. destruct H1 as [_ ->].
  apply bind_ok in H. destruct H as (u' & w1 & H1 & H).
  apply assert_ok in H1. destruct H1 as [_ ->].
  apply bind_ok in H. destruct H as (o & w1 & H1 & H).
  apply output_ok in H1. destruct H1 as [Hc1 _].
  apply bind_ok in H. destruct H as (m' & w2 & H2 & H).
  apply astype_ok in H2.
  exists m'. rewrite <- Hc1, <- H2.
  pose proof (nocopy_flat_rest self m' o w2) as Hn.
  rewrite H in Hn. exact Hn.
Qed.

(** C8 (as amended): an input array of [sharp] or [flat] that is not
    C-contiguous makes the call fail at once with the assertion error,
    before anything is allocated or written; [sharp] never copies an array;
    a call of [flat] that is accepted does copy its input once, through
    [m.astype(self.dtype)], and transforms that copy. *)
Theorem sharp_flat_contiguity (self : FluidMetric) (m : loc) (out : option loc)
    (w : world) (am : gpuarray) (Hm : heap w m = Some am) :
  (c_contiguous am = false ->
     sharp self m out w
       = (Raise (AssertionError "Momentum array must be contiguous"), w)
     /\ flat self m out w
       = (Raise (AssertionError "Momentum array must be contiguous"), w))
  /\ copied (snd (sharp self m out w)) = copied w
  /\ (forall r w', flat self m out w = (Ok r, w') ->
                   exists m', copied w' = copied w ++ [(m, m')]).
Proof.
  split; [|split].
  - intros Hc. unfold sharp, flat, bind, load. rewrite Hm. cbn.
    rewrite Hc. split; reflexivity.
  - apply nocopy_sharp.
  - intros r w'. apply flat_copies.
Qed.

Lemma sharp_flat_contiguity_witness :
  (sharp metric22 6 None world22
     = (Raise (AssertionError "Momentum array must be contiguous"), world22)
   /\ flat metric22 6 None world22
     = (Raise (AssertionError "Momentum array must be contiguous"), world22))
  /\ copied (snd (sharp metric22 5 None world22)) = copied world22
  /\ (exists r w' m', flat metric22 5 None world22 = (Ok r, w')
                      /\ copied w' = copied world22 ++ [(5%nat, m')]).
Proof.
  split; [|split].
  - exact (proj1 (sharp_flat_contiguity metric22 6 None world22 _ eq_refl) eq_refl).
  - exact (proj1 (proj2 (sharp_flat_contiguity metric22 5 None world22 _ eq_refl))).
  - eexists; eexists.
    assert (H : flat metric22 5 None world22
                = (fst (flat metric22 5 None world22),
                   snd (flat metric22 5 None world22)))
      by (destruct (flat metric22 5 None world22); reflexivity).
    change (fst (flat metric22 5 None world22)) with (@Ok loc 7%nat) in H.
    destruct (proj2 (proj2 (sharp_flat_contiguity metric22 5 None world22 _ eq_refl))
                _ _ H) as [m' Hm'].
    exists m'. split; [exact H | exact Hm'].
Defined.

(** C8 (counterexample): [flat] on the contiguous array at address 5 is
    accepted, and when it returns the array has been copied to address 8. *)
Lemma flat_copies_contiguous_input :
  (exists am, heap world22 5%nat = Some am /\ c_contiguous am = true)
  /\ fst (flat metric22 5 None world22) = Ok 7%nat
  /\ copied world22 = []
  /\ copied (snd (flat metric22 5 None world22)) = [(5%nat, 8%nat)].
Proof.
  split; [eexists; split; reflexivity|].
  split; [reflexivity|]. split; reflexivity.
Qed.

(** ** The arrays touched by [sharp] and [flat] *)

Lemma frame_ret {A} b L (V : A -> Prop) (a : A) : V a -> frame b L V (ret a).
Proof.
  intros Ha w Hb. cbn. repeat split; auto. intros a' H; inversion H; subst; auto.
Qed.

Lemma frame_raise {A} b L (V : A -> Prop) e : frame b L V (raise e).
Proof. intros w Hb. cbn. repeat split; auto. intros a' H; discriminate. Qed.

Lemma frame_bind {A B} b L (V : A -> Prop) (V' : B -> Prop) (c : M A) (k : A -> M B) :
  frame b L V c -> (forall a, V a -> frame b L V' (k a)) -> frame b L V' (bind c k).
Proof.
  intros Hc Hk w Hb. unfold bind. destruct (Hc w Hb) as (Hn & Hh & Hv).
  destruct (c w) as [[a|e] w1]; cbn in *.
  - destruct (Hk a (Hv a eq_refl) w1 Hn) as (Hn' & Hh' & Hv').
    repeat split; auto. intros l Hl HL. rewrite Hh', Hh; auto.
  - repeat split; auto. intros a' H; discriminate.
Qed.

Lemma frame_load b L l : frame b L (fun _ => True) (load l).
Proof.
  intros w Hb. unfold load. destruct (heap w l); cbn; repeat split; auto.
Qed.

Lemma frame_assert b L c msg : frame b L (fun _ => True) (assert c msg).
Proof. intros w Hb. unfold assert. destruct c; cbn; repeat split; auto. Qed.

Lemma frame_getitem {A} b L (l : list A) i : frame b L (fun _ => True) (getitem l i).
Proof.
  intros w Hb. unfold getitem. destruct (nth_error l i); cbn; repeat split; auto.
Qed.

Lemma frame_store_buf b (L : loc -> Prop) l buf :
  L l \/ (b <= l)%nat -> frame b L (fun _ => True) (store_buf l buf).
Proof.
  intros Hl w Hb. unfold store_buf. destruct (heap w l); cbn; repeat split; auto.
  intros l' Hl' HL. unfold upd. destruct (Nat.eqb_spec l' l); [|reflexivity].
  subst. destruct Hl; [contradiction|lia].
Qed.

Lemma frame_alloc b L a : frame b L (fun l => (b <= l)%nat) (alloc a).
Proof.
  intros w Hb. cbn. split; [lia|]. split.
  - intros l Hl _. unfold upd. destruct (Nat.eqb_spec l (next w)); [lia|reflexivity].
  - intros l H; inversion H; subst; exact Hb.
Qed.

Lemma frame_log_copy b L x y : frame b L (fun _ => True) (log_copy x y).
Proof. intros w Hb. cbn. repeat split; auto. Qed.

Ltac frame_step :=
  first
    [ eapply frame_bind; [|intros ? ?]
    | apply frame_load | apply frame_assert | apply frame_getitem
    | apply frame_alloc | apply frame_log_copy | apply frame_raise
    | apply frame_store_buf; assumption
    | apply frame_ret; solve [auto]
    | match goal with
      | |- frame _ _ _ (match ?x with _ => _ end) => destruct x
      end ].

Lemma frame_empty_like b L l : frame b L (fun l' => (b <= l')%nat) (gpuarray_empty_like l).
Proof. unfold gpuarray_empty_like. repeat frame_step. Qed.

Lemma frame_astype b L l d : frame b L (fun l' => (b <= l')%nat) (astype l d).
Proof. unfold astype. repeat frame_step. Qed.

Lemma frame_fft b (L : loc -> Prop) x y p s :
  L y \/ (b <= y)%nat -> frame b L (fun _ => True) (fft x y p s).
Proof. intros Hy. unfold fft. repeat frame_step. Qed.

Lemma frame_ifft b (L : loc -> Prop) x y p s :
  L y \/ (b <= y)%nat -> frame b L (fun _ => True) (ifft x y p s).
Proof. intros Hy. unfold ifft. repeat frame_step. Qed.

Lemma frame_operator_fourier b (L : loc -> Prop) self Fm inv :
  L Fm \/ (b <= Fm)%nat -> frame b L (fun _ => True) (operator_fourier self Fm inv).
Proof. intros HF. unfold operator_fourier, operator_2d. repeat frame_step. Qed.

Lemma frame_output b self m out :
  frame b (touched self out)
        (fun o => (touched self out o \/ (b <= o)%nat) /\ returned b out o)
        match out with
        | None => gpuarray_empty_like m
        | Some o => ret o
        end.
Proof.
  destruct out as [o|].
  - apply frame_ret. unfold touched, returned. auto.
  - intros w Hb. destruct (frame_empty_like b (touched self None) m w Hb)
      as (H1 & H2 & H3).
    split; [exact H1|]. split; [exact H2|]. intros a H.
    split; [right|unfold returned]; apply H3; exact H.
Qed.

Lemma frame_sharp b self m out :
  frame b (touched self out) (returned b out) (sharp self m out).
Proof.
  unfold sharp.
  eapply frame_bind; [apply frame_load|]; intros am _.
  eapply frame_bind; [apply frame_assert|]; intros _ _.
  eapply frame_bind; [apply frame_load|]; intros af _.
  eapply frame_bind; [apply frame_assert|]; intros _ _.
  eapply frame_bind; [apply frame_output|]. intros o [Ho Hr].
  assert (HF : touched self out (Fv self) \/ (b <= Fv self)%nat)
    by (left; left; reflexivity).
  repeat first [apply frame_fft; assumption | apply frame_ifft; assumption
               | apply frame_operator_fourier; assumption
               | apply frame_ret; assumption | frame_step].
Qed.

Lemma frame_flat b self m out :
  frame b (touched self out) (returned b out) (flat self m out).
Proof.
  unfold flat.
  eapply frame_bind; [apply frame_load|]; intros am _.
  eapply frame_bind; [apply frame_assert|]; intros _ _.
  eapply frame_bind; [apply frame_load|]; intros af _.
  eapply frame_bind; [apply frame_assert|]; intros _ _.
  eapply frame_bind; [apply frame_output|]. intros o [Ho Hr].
  eapply frame_bind; [apply frame_astype|]. intros m' Hm'.
  assert (HF : touched self out (Fv self) \/ (b <= Fv self)%nat)
    by (left; left; reflexivity).
  repeat first [apply frame_fft; assumption | apply frame_ifft; assumption
               | apply frame_operator_fourier; assumption
               | apply frame_ret; assumption | frame_step].
Qed.

Lemma fft_ok x y p s w u w' :
  fft x y p s w = (Ok u, w') ->
  exists ax ay f g, heap w x = Some ax /\ a_buf ax = RealBuf f
                    /\ heap w y = Some ay /\ a_buf ay = CplxBuf g.
Proof.
  unfold fft. intros H.
  apply bind_ok in H. destruct H as (ax & w1 & H1 & H).
  apply load_ok in H1. destruct H1 as [Hx ->].
  apply bind_ok in H. destruct H as (ay & w1 & H1 & H).
  apply load_ok in H1. destruct H1 as [Hy ->].
  destruct (a_buf ax) as [f|] eqn:Ex; [|destruct (a_buf ay); discriminate].
  destruct (a_buf ay) as [|g] eqn:Ey; [discriminate|].
  exists ax, ay, f, g. auto.
Qed.

Lemma output_wf m out w o w1 :
  wf w ->
  match out with
  | None => gpuarray_empty_like m
  | Some o => ret o
  end w = (Ok o, w1) ->
  wf w1 /\ (forall l, (l < next w)%nat -> heap w1 l = heap w l).
Proof.
  intros Hwf. destruct out as [o'|].
  - intros H; inversion H; subst. auto.
  - unfold gpuarray_empty_like. intros H.
    apply bind_ok in H. destruct H as (a & w0 & Hl & H).
    apply load_ok in Hl. destruct Hl as [_ ->].
    inversion H; subst; cbn. split.
    + intros l Hl. cbn in *. unfold upd.
      destruct (Nat.eqb_spec l (next w)); [lia|]. apply Hwf. lia.
    + intros l Hl. unfold upd. destruct (Nat.eqb_spec l (next w)); [lia|reflexivity].
Qed.

Lemma wf_lt w l a : wf w -> heap w l = Some a -> (l < next w)%nat.
Proof.
  intros Hwf Hl. destruct (Nat.lt_ge_cases l (next w)) as [H|H]; [exact H|].
  rewrite (Hwf l H) in Hl. discriminate.
Qed.

(** An accepted input exists and is not the scratch spectrum. *)
Lemma sharp_input self m out w r :
  fst (sharp self m out w) = Ok r ->
  (exists am, heap w m = Some am) /\ m <> Fv self.
Proof.
  intros H.
  destruct (sharp self m out w) as [res w'] eqn:Hs. cbn in H. subst res.
  unfold sharp in Hs.
  apply bind_ok in Hs. destruct Hs as (am & w1 & H1 & Hs).
  apply load_ok in H1. destruct H1 as [Hm ->].
  split; [eauto|]. intros E. subst m.
  apply bind_ok in Hs. destruct Hs as (u & w1 & H1 & Hs).
  apply assert_ok in H1. destruct H1 as [_ ->].
  apply bind_ok in Hs. destruct Hs as (af & w1 & H1 & Hs).
  apply load_ok in H1. destruct H1 as [_ ->].
  apply bind_ok in Hs. destruct Hs as (u' & w1 & H1 & Hs).
  apply assert_ok in H1. destruct H1 as [_ ->].
  apply bind_ok in Hs. destruct Hs as (o & w1 & H1 & Hs).
  apply bind_ok in Hs. destruct Hs as (u'' & w2 & H2 & Hs).
  apply fft_ok in H2. destruct H2 as (ax & ay & f & g & Hx & Ex & Hy & Ey).
  congruence.
Qed.

Lemma flat_input self m out w r :
  wf w -> fst (flat self m out w) = Ok r ->
  (exists am, heap w m = Some am) /\ m <> Fv self.
Proof.
  intros Hwf H.
  destruct (flat self m out w) as [res w'] eqn:Hs. cbn in H. subst res.
  unfold flat in Hs.
  apply bind_ok in Hs. destruct Hs as (am & w1 & H1 & Hs).
  apply load_ok in H1. destruct H1 as [Hm ->].
  split; [eauto|]. intros E. subst m.
  apply bind_ok in Hs. destruct Hs as (u & w1 & H1 & Hs).
  apply assert_ok in H1. destruct H1 as [_ ->].
  apply bind_ok in Hs. destruct Hs as (af & w1 & H1 & Hs).
  apply load_ok in H1. destruct H1 as [_ ->].
  apply bind_ok in Hs. destruct Hs as (u' & w1 & H1 & Hs).
  apply assert_ok in H1. destruct H1 as [_ ->].
  apply bind_ok in Hs. destruct Hs as (o & w1 & H1 & Hs).
  destruct (output_wf _ _ _ _ _ Hwf H1) as [Hwf1 Hsame].
  apply bind_ok in Hs. destruct Hs as (m' & w2 & H2 & Hs).
  apply bind_ok in Hs. destruct Hs as (u'' & w3 & H3 & Hs).
  apply fft_ok in H3. destruct H3 as (ax & ay & f & g & Hx & Ex & Hy & Ey).
  (* the conversion read a real array at the address of the spectrum *)
  unfold astype in H2.
  apply bind_ok in H2. destruct H2 as (a1 & w0 & Hl & H2).
  apply load_ok in Hl. destruct Hl as [Hl ->].
  destruct (a_buf a1) as [f1|] eqn:E1; [|discriminate].
  inversion H2; subst; clear H2. cbn in Hy. unfold upd in Hy.
  pose proof (wf_lt _ _ _ Hwf1 Hl) as Hlt.
  destruct (Nat.eqb_spec (Fv self) (next w1)); [lia|]. congruence.
Qed.

Lemma respects_frame_of_frame self m out w (call : M loc) :
  wf w ->
  frame (next w) (touched self out) (returned (next w) out) call ->
  (forall r, fst (call w) = Ok r ->
             (exists am, heap w m = Some am) /\ m <> Fv self) ->
  respects_frame self m out w call.
Proof.
  intros Hwf Hfr Hin.
  destruct (Hfr w (Nat.le_refl _)) as (_ & Hh & Hv).
  assert (H1 : forall l, (l < next w)%nat -> l <> Fv self -> out <> Some l ->
                         heap (snd (call w)) l = heap w l).
  { intros l Hl HF Ho. apply Hh; [exact Hl|].
    unfold touched. intros [E|E]; [exact (HF E)|exact (Ho E)]. }
  split; [exact H1|]. split.
  - intros r Hr. specialize (Hv r Hr). unfold returned in Hv.
    destruct out as [o|]; [exact Hv|]. apply Hwf. exact Hv.
  - intros r Hr Ho. destruct (Hin r Hr) as [[am Hm] HF].
    apply H1; [eapply wf_lt; eauto | exact HF | exact Ho].
Qed.

(** C9 (as amended): in a call of [sharp] or [flat], every array that
    existed before the call, other than the scratch spectrum [Fv] and the
    supplied [out], is left unchanged; when [out] is supplied the call
    returns that same array, and when it is omitted the call returns an array
    that did not exist before; the input array is left unchanged unless it
    was itself supplied as [out]. *)
Theorem sharp_flat_frame (self : FluidMetric) (m : loc) (out : option loc)
    (w : world) (Hwf : wf w) :
  respects_frame self m out w (sharp self m out)
  /\ respects_frame self m out w (flat self m out).
Proof.
  split; apply respects_frame_of_frame; try exact Hwf.
  - apply frame_sharp.
  - intros r. apply sharp_input.
  - apply frame_flat.
  - intros r. apply flat_input. exact Hwf.
Qed.

Lemma wf_world0 : wf world0.
Proof. intros l _. reflexivity. Qed.

Lemma wf_alloc a w : wf w -> wf (snd (alloc a w)).
Proof.
  intros Hwf l Hl. cbn in *. unfold upd.
  destruct (Nat.eqb_spec l (next w)); [lia|]. apply Hwf. lia.
Qed.

(** Construction keeps the store well formed. *)
Lemma wf_after_init sh prec w : wf w -> wf (world_after_init sh prec w).
Proof.
  intros Hwf l Hl.
  pose proof (world_after_init_facts sh prec w) as F. cbn zeta in F.
  destruct F as (_ & _ & Hn & _ & _ & Hfree).
  rewrite Hfree by exact Hl. unfold world_with_Fv. cbn [heap]. unfold upd.
  destruct (Nat.eqb_spec l (next w)); [lia|]. apply Hwf. lia.
Qed.

Lemma wf_world22 : wf world22.
Proof.
  unfold world22. cbn zeta.
  apply wf_alloc, wf_alloc, wf_after_init, wf_world0.
Qed.

Lemma sharp_flat_frame_witness :
  wf world22
  /\ fst (sharp metric22 5 None world22) = Ok 7%nat
  /\ fst (flat metric22 5 None world22) = Ok 7%nat
  /\ respects_frame metric22 5 None world22 (sharp metric22 5 None)
  /\ respects_frame metric22 5 None world22 (flat metric22 5 None).
Proof.
  split; [exact wf_world22|]. split; [reflexivity|]. split; [reflexivity|].
  exact (sharp_flat_frame metric22 5 None world22 wf_world22).
Defined.

(** ** Complex arithmetic *)

Ltac cx :=
  unfold Cx.add, Cx.sub, Cx.mul, Cx.scal, Cx.conj, Cx.opp, Cx.of_R, Cx.zero,
    Cx.one, Cx.re, Cx.im in *;
  repeat match goal with z : C |- _ => destruct z end;
  cbn [fst snd] in *; try (f_equal; ring).

Lemma Cadd_comm z w : Cx.add z w = Cx.add w z.
Proof. cx. Qed.

Lemma Cadd_assoc z w u : Cx.add (Cx.add z w) u = Cx.add z (Cx.add w u).
Proof. cx. Qed.

Lemma Cadd_0_l z : Cx.add Cx.zero z = z.
Proof. cx. Qed.

Lemma Cadd_0_r z : Cx.add z Cx.zero = z.
Proof. cx. Qed.

Lemma Cmul_comm z w : Cx.mul z w = Cx.mul w z.
Proof. cx. Qed.

Lemma Cmul_assoc z w u : Cx.mul (Cx.mul z w) u = Cx.mul z (Cx.mul w u).
Proof. cx. Qed.

Lemma Cmul_1_l z : Cx.mul Cx.one z = z.
Proof. cx. Qed.

Lemma Cmul_0_l z : Cx.mul Cx.zero z = Cx.zero.
Proof. cx. Qed.

Lemma Cmul_0_r z : Cx.mul z Cx.zero = Cx.zero.
Proof. cx. Qed.

Lemma Cmul_add_r z w u : Cx.mul z (Cx.add w u) = Cx.add (Cx.mul z w) (Cx.mul z u).
Proof. cx. Qed.

Lemma Cmul_add_l z w u : Cx.mul (Cx.add z w) u = Cx.add (Cx.mul z u) (Cx.mul w u).
Proof. cx. Qed.

Lemma Cscal_mul a z : Cx.scal a z = Cx.mul (Cx.of_R a) z.
Proof. cx. Qed.

Lemma Cscal_1 z : Cx.scal 1 z = z.
Proof. cx. Qed.


Lemma Cscal_scal a b z : Cx.scal a (Cx.scal b z) = Cx.scal (a * b) z.
Proof. cx. Qed.

Lemma Cscal_0_r a : Cx.scal a Cx.zero = Cx.zero.
Proof. cx. Qed.

Lemma Cmul_scal_r a z w : Cx.mul z (Cx.scal a w) = Cx.scal a (Cx.mul z w).
Proof. cx. Qed.

Lemma Cconj_add z w : Cx.conj (Cx.add z w) = Cx.add (Cx.conj z) (Cx.conj w).
Proof. cx. Qed.

Lemma Cconj_mul z w : Cx.conj (Cx.mul z w) = Cx.mul (Cx.conj z) (Cx.conj w).
Proof. cx. Qed.

Lemma Cconj_scal a z : Cx.conj (Cx.scal a z) = Cx.scal a (Cx.conj z).
Proof. cx. Qed.

Lemma Cconj_conj z : Cx.conj (Cx.conj z) = z.
Proof. cx. Qed.


Lemma Cconj_of_R x : Cx.conj (Cx.of_R x) = Cx.of_R x.
Proof. cx. Qed.

(** The complex numbers have no zero divisors. *)
Lemma Cmul_integral z w : Cx.mul z w = Cx.zero -> z = Cx.zero \/ w = Cx.zero.
Proof.
  destruct z as [a b], w as [c d]. unfold Cx.mul, Cx.zero. cbn [fst snd].
  intros H. inversion H as [[H1 H2]].
  assert (Hn : ((a * a + b * b) * (c * c + d * d) = 0)%R) by nra.
  apply Rmult_integral in Hn. destruct Hn as [Hn|Hn]; [left|right];
    f_equal; nra.
Qed.

(** *** Finite complex sums *)

Lemma Csum_ext n f g :
  (forall i, (i < n)%nat -> f i = g i) -> Cx.sum n f = Cx.sum n g.
Proof.
  induction n as [|n IH]; intros H; cbn; [reflexivity|].
  rewrite IH by (intros; apply H; lia). rewrite H by lia. reflexivity.
Qed.

Lemma Csum_zero n : Cx.sum n (fun _ => Cx.zero) = Cx.zero.
Proof. induction n as [|n IH]; cbn; [reflexivity|]. rewrite IH. cx. Qed.

Lemma Csum_add n f g :
  Cx.sum n (fun i => Cx.add (f i) (g i)) = Cx.add (Cx.sum n f) (Cx.sum n g).
Proof. induction n as [|n IH]; cbn; [cx|]. rewrite IH. cx. Qed.

Lemma Csum_mul_l n c f :
  Cx.sum n (fun i => Cx.mul c (f i)) = Cx.mul c (Cx.sum n f).
Proof. induction n as [|n IH]; cbn; [cx|]. rewrite IH. cx. Qed.

Lemma Csum_mul_r n c f :
  Cx.sum n (fun i => Cx.mul (f i) c) = Cx.mul (Cx.sum n f) c.
Proof. induction n as [|n IH]; cbn; [cx|]. rewrite IH. cx. Qed.

Lemma Csum_scal n a f :
  Cx.sum n (fun i => Cx.scal a (f i)) = Cx.scal a (Cx.sum n f).
Proof. induction n as [|n IH]; cbn; [cx|]. rewrite IH. cx. Qed.

Lemma Csum_conj n f :
  Cx.conj (Cx.sum n f) = Cx.sum n (fun i => Cx.conj (f i)).
Proof. induction n as [|n IH]; cbn; [cx|]. rewrite <- IH. cx. Qed.

Lemma Csum_swap n p (f : nat -> nat -> C) :
  Cx.sum n (fun i => Cx.sum p (fun j => f i j))
  = Cx.sum p (fun j => Cx.sum n (fun i => f i j)).
Proof.
  induction n as [|n IH]; cbn.
  - symmetry. apply Csum_zero.
  - rewrite IH, <- Csum_add. reflexivity.
Qed.

(** A sum with a single non-zero term. *)
Lemma Csum_single n i (f : nat -> C) :
  (i < n)%nat ->
  Cx.sum n (fun j => if Nat.eqb j i then f j else Cx.zero) = f i.
Proof.
  induction n as [|n IH]; intros Hi; [lia|]. cbn.
  destruct (Nat.eqb_spec n i) as [->|Hne].
  - rewrite (Csum_ext i _ (fun _ => Cx.zero)).
    + rewrite Csum_zero. apply Cadd_0_l.
    + intros j Hj. destruct (Nat.eqb_spec j i); [lia|reflexivity].
  - rewrite IH by lia. apply Cadd_0_r.
Qed.

(** ** Roots of unity *)

Lemma cis_add a b : Cx.cis (a + b) = Cx.mul (Cx.cis a) (Cx.cis b).
Proof.
  unfold Cx.cis, Cx.mul. cbn [fst snd]. rewrite cos_plus, sin_plus.
  f_equal; ring.
Qed.

Lemma cis_0 : Cx.cis 0 = Cx.one.
Proof. unfold Cx.cis, Cx.one. rewrite cos_0, sin_0. reflexivity. Qed.

Lemma cis_neg t : Cx.cis (- t) = Cx.conj (Cx.cis t).
Proof. unfold Cx.cis, Cx.conj. cbn [fst snd]. rewrite cos_neg, sin_neg. reflexivity. Qed.

Lemma cis_2PI_nat k : Cx.cis (2 * PI * INR k) = Cx.one.
Proof.
  unfold Cx.cis, Cx.one.
  replace (2 * PI * INR k)%R with (0 + 2 * INR k * PI)%R by ring.
  rewrite cos_period, sin_period, cos_0, sin_0. reflexivity.
Qed.

Lemma cis_not_one t : (0 < t < 2 * PI)%R -> Cx.cis t <> Cx.one.
Proof.
  intros [H0 H1] H. unfold Cx.cis, Cx.one in H. inversion H as [[Hc Hs]].
  destruct (sin_eq_O_2PI_0 t) as [E|[E|E]]; try lra.
  rewrite E, cos_PI in Hc. lra.
Qed.

(** The geometric sum of the powers of [cis t]. *)
Lemma cis_geometric t n :
  Cx.mul (Cx.sub (Cx.cis t) Cx.one) (Cx.sum n (fun k => Cx.cis (INR k * t)))
  = Cx.sub (Cx.cis (INR n * t)) Cx.one.
Proof.
  induction n as [|n IH].
  - cbn [Cx.sum INR]. rewrite Rmult_0_l, cis_0. cx.
  - cbn [Cx.sum]. rewrite Cmul_add_r, IH.
    rewrite S_INR.
    replace ((INR n + 1) * t)%R with (t + INR n * t)%R by ring.
    rewrite (cis_add t). generalize (Cx.cis (INR n * t)) (Cx.cis t).
    intros z u. cx.
Qed.

Lemma cis_power_sum_zero t n :
  Cx.cis t <> Cx.one -> Cx.cis (INR n * t) = Cx.one ->
  Cx.sum n (fun k => Cx.cis (INR k * t)) = Cx.zero.
Proof.
  intros Hne Hone. pose proof (cis_geometric t n) as H.
  rewrite Hone in H.
  replace (Cx.sub Cx.one Cx.one) with Cx.zero in H by cx.
  apply Cmul_integral in H. destruct H as [H|H]; [|exact H].
  exfalso. apply Hne. destruct (Cx.cis t) as [a b].
  unfold Cx.sub, Cx.one, Cx.zero in *. cbn [fst snd] in H.
  inversion H. f_equal; lra.
Qed.

Lemma Csum_const n c : Cx.sum n (fun _ => c) = Cx.scal (INR n) c.
Proof.
  induction n as [|n IH].
  - cbn. cx.
  - cbn [Cx.sum]. rewrite IH, S_INR. cx.
Qed.

(** The [N]-th roots of unity other than 1 sum to zero over their powers. *)
Lemma root_sum_zero (s : R) (N d : nat) :
  (s = 1 \/ s = -1)%R -> (0 < d < N)%nat ->
  Cx.sum N (fun k => Cx.cis (INR k * (s * (2 * PI * INR d / INR N)))) = Cx.zero.
Proof.
  intros Hs [Hd HN].
  assert (HN0 : (0 < INR N)%R) by (apply lt_0_INR; lia).
  assert (Hd0 : (0 < INR d)%R) by (apply lt_0_INR; lia).
  assert (HdN : (INR d < INR N)%R) by (apply lt_INR; lia).
  pose proof PI_RGT_0 as Hpi.
  set (t := (2 * PI * INR d / INR N)%R).
  assert (Ht : (0 < t < 2 * PI)%R).
  { unfold t. split.
    - apply Rdiv_lt_0_compat; nra.
    - apply (Rmult_lt_reg_r (INR N)); [exact HN0|].
      unfold Rdiv. rewrite Rmult_assoc, Rinv_l by lra. nra. }
  assert (Hone : Cx.cis (INR N * t) = Cx.one).
  { unfold t. replace (INR N * (2 * PI * INR d / INR N))%R
      with (2 * PI * INR d)%R by (field; lra).
    apply cis_2PI_nat. }
  destruct Hs as [-> | ->].
  - rewrite (Csum_ext N _ (fun k => Cx.cis (INR k * t))).
    + apply cis_power_sum_zero; [apply cis_not_one; exact Ht|exact Hone].
    + intros k _. f_equal. ring.
  - rewrite (Csum_ext N _ (fun k => Cx.conj (Cx.cis (INR k * t)))).
    + rewrite <- Csum_conj.
      rewrite cis_power_sum_zero; [cx|apply cis_not_one; exact Ht|exact Hone].
    + intros k _. rewrite <- cis_neg. f_equal. ring.
Qed.

Lemma expi_pair (s : R) N i j k :
  Cx.mul (expi s N i k) (expi (- s) N k j)
  = Cx.cis (INR k * (s * (2 * PI * (INR i - INR j) / INR N))).
Proof.
  unfold expi. rewrite <- cis_add. f_equal. rewrite !mult_INR.
  unfold Rdiv. ring.
Qed.

(** Orthogonality of the characters of the cyclic group of order [N]. *)
Lemma expi_orthogonal (s : R) N i j :
  (s = 1 \/ s = -1)%R -> (i < N)%nat -> (j < N)%nat ->
  Cx.sum N (fun k => Cx.mul (expi s N i k) (expi (- s) N k j))
  = if Nat.eqb j i then Cx.of_R (INR N) else Cx.zero.
Proof.
  intros Hs Hi Hj.
  rewrite (Csum_ext N _ (fun k =>
             Cx.cis (INR k * (s * (2 * PI * (INR i - INR j) / INR N)))))
    by (intros; apply expi_pair).
  destruct (Nat.eqb_spec j i) as [->|Hne].
  - rewrite (Csum_ext N _ (fun _ => Cx.one)).
    + rewrite Csum_const. cx.
    + intros k _. rewrite <- cis_0. f_equal. unfold Rdiv. ring.
  - destruct (Nat.lt_ge_cases j i) as [Hlt|Hge].
    + rewrite <- (root_sum_zero s N (i - j)); [|exact Hs|lia].
      apply Csum_ext. intros k _. f_equal. rewrite minus_INR by lia. reflexivity.
    + rewrite <- (root_sum_zero (- s) N (j - i)); [|destruct Hs; lra|lia].
      apply Csum_ext. intros k _. f_equal. rewrite minus_INR by lia.
      unfold Rdiv. ring.
Qed.

(** ** The transform over a grid *)

Lemma dftn_ext s exts : forall f g k,
  (forall x, in_grid exts x -> f x = g x) ->
  dftn s exts f k = dftn s exts g k.
Proof.
  induction exts as [|N e IH]; intros f g k H; cbn.
  - apply H. exact I.
  - destruct k as [|ka k']; [reflexivity|].
    apply Csum_ext. intros i Hi. f_equal.
    apply IH. intros x Hx. apply H. cbn. auto.
Qed.

Lemma dftn_sum s exts : forall n (F : nat -> index -> C) k,
  dftn s exts (fun x => Cx.sum n (fun j => F j x)) k
  = Cx.sum n (fun j => dftn s exts (F j) k).
Proof.
  induction exts as [|N e IH]; intros n F k; cbn; [reflexivity|].
  destruct k as [|ka k']; [symmetry; apply Csum_zero|].
  rewrite Csum_swap. apply Csum_ext. intros i _.
  rewrite Csum_mul_l. f_equal.
  apply (IH n (fun j sp => F j (i :: sp))).
Qed.

Lemma dftn_mul_l s exts : forall c f k,
  dftn s exts (fun x => Cx.mul c (f x)) k = Cx.mul c (dftn s exts f k).
Proof.
  induction exts as [|N e IH]; intros c f k; cbn; [reflexivity|].
  destruct k as [|ka k']; [symmetry; apply Cmul_0_r|].
  rewrite <- Csum_mul_l. apply Csum_ext. intros i _.
  rewrite (IH c (fun sp => f (i :: sp))).
  rewrite <- !Cmul_assoc. f_equal. apply Cmul_comm.
Qed.

Lemma dftn_scal s exts a f k :
  dftn s exts (fun x => Cx.scal a (f x)) k = Cx.scal a (dftn s exts f k).
Proof.
  rewrite Cscal_mul, <- dftn_mul_l. apply dftn_ext.
  intros x _. apply Cscal_mul.
Qed.


Lemma in_grid_length exts : forall k, in_grid exts k -> List.length k = List.length exts.
Proof.
  induction exts as [|N e IH]; intros [|i k] H; cbn in *; try contradiction;
    [reflexivity|]. f_equal. apply IH. tauto.
Qed.

(** The transform with the opposite sign inverts the transform, up to the
    number of grid points. *)
Lemma dftn_inverse s exts : (s = 1 \/ s = -1)%R -> forall f i,
  in_grid exts i ->
  dftn s exts (dftn (- s) exts f) i = Cx.scal (INR (points exts)) (f i).
Proof.
  intros Hs. induction exts as [|N e IH]; intros f i Hi.
  - destruct i; [|contradiction]. cbn. symmetry. apply Cscal_1.
  - destruct i as [|i i']; [contradiction|]. destruct Hi as [Hi Hi'].
    set (P := INR (points e)).
    assert (Hin : forall k, (k < N)%nat ->
      Cx.mul (expi s N i k)
             (dftn s e (fun sp => dftn (- s) (N :: e) f (k :: sp)) i')
      = Cx.sum N (fun j =>
          Cx.mul (Cx.mul (expi s N i k) (expi (- s) N k j))
                 (Cx.scal P (f (j :: i'))))).
    { intros k Hk.
      rewrite (Csum_ext N _ (fun j =>
                 Cx.mul (expi s N i k)
                        (Cx.mul (expi (- s) N k j) (Cx.scal P (f (j :: i'))))))
        by (intros; apply Cmul_assoc).
      rewrite Csum_mul_l. f_equal.
      transitivity (Cx.sum N (fun j =>
        dftn s e (fun sp => Cx.mul (expi (- s) N k j)
                              (dftn (- s) e (fun sp' => f (j :: sp')) sp)) i')).
      { apply (dftn_sum s e N
                 (fun j sp => Cx.mul (expi (- s) N k j)
                                (dftn (- s) e (fun sp' => f (j :: sp')) sp))). }
      apply Csum_ext. intros j Hj. rewrite dftn_mul_l.
      rewrite (IH (fun sp' => f (j :: sp')) i' Hi'). reflexivity. }
    change (dftn s (N :: e) (dftn (- s) (N :: e) f) (i :: i'))
      with (Cx.sum N (fun k =>
              Cx.mul (expi s N i k)
                (dftn s e (fun sp => dftn (- s) (N :: e) f (k :: sp)) i'))).
    rewrite (Csum_ext N _ _ Hin).
    rewrite Csum_swap.
    rewrite (Csum_ext N _ (fun j =>
               if Nat.eqb j i
               then Cx.mul (Cx.of_R (INR N)) (Cx.scal P (f (j :: i')))
               else Cx.zero)).
    + rewrite Csum_single by exact Hi.
      unfold P. change (points (N :: e)) with (N * points e)%nat.
      rewrite mult_INR. generalize (f (i :: i')) (INR (points e)).
      intros z q. cx.
    + intros j Hj. rewrite Csum_mul_r.
      rewrite (expi_orthogonal s N i j Hs Hi Hj).
      destruct (Nat.eqb j i); [reflexivity|apply Cmul_0_l].
Qed.

(** ** Conjugation and the opposite frequency *)

Lemma neg_index_cons N e k k' :
  neg_index (N :: e) (k :: k') = ((N - k) mod N)%nat :: neg_index e k'.
Proof. reflexivity. Qed.

Lemma neg_coord_lt N k : (k < N)%nat -> ((N - k) mod N < N)%nat.
Proof. intros H. apply Nat.mod_upper_bound. lia. Qed.


Lemma neg_index_in_grid e : forall k, in_grid e k -> in_grid e (neg_index e k).
Proof.
  induction e as [|N e IH]; intros [|k k'] H; cbn in H; try contradiction.
  - exact I.
  - rewrite neg_index_cons. cbn. destruct H as [H H'].
    split; [apply neg_coord_lt; exact H | apply IH; exact H'].
Qed.


Lemma expi_conj s N k i :
  (s = 1 \/ s = -1)%R -> (k < N)%nat ->
  Cx.conj (expi s N k i) = expi s N ((N - k) mod N) i.
Proof.
  intros Hs Hk. unfold expi. rewrite <- cis_neg.
  assert (HN : (0 < INR N)%R) by (apply lt_0_INR; lia).
  destruct k as [|k].
  - rewrite Nat.sub_0_r, Nat.Div0.mod_same. cbn [Nat.mul INR].
    f_equal. unfold Rdiv. ring.
  - rewrite Nat.mod_small by lia.
    rewrite !mult_INR, minus_INR by lia.
    set (x := INR (S k)).
    replace (s * (2 * PI * ((INR N - x) * INR i) / INR N))%R
      with (- (s * (2 * PI * (x * INR i) / INR N)) + s * (2 * PI * INR i))%R
      by (field; lra).
    rewrite cis_add.
    assert (H1 : Cx.cis (s * (2 * PI * INR i)) = Cx.one).
    { destruct Hs as [-> | ->].
      - rewrite Rmult_1_l. apply cis_2PI_nat.
      - replace (-1 * (2 * PI * INR i))%R with (- (2 * PI * INR i))%R by ring.
        rewrite cis_neg, cis_2PI_nat. cx. }
    rewrite H1. generalize (Cx.cis (- (s * (2 * PI * (x * INR i) / INR N)))).
    intros z. cx.
Qed.

(** Conjugating a transform is transforming the conjugate signal at the
    opposite frequency. *)
Lemma dftn_conj s exts : (s = 1 \/ s = -1)%R -> forall f k,
  in_grid exts k ->
  Cx.conj (dftn s exts f k)
  = dftn s exts (fun x => Cx.conj (f x)) (neg_index exts k).
Proof.
  intros Hs. induction exts as [|N e IH]; intros f [|k k'] H; cbn in H;
    try contradiction.
  - reflexivity.
  - destruct H as [H H']. rewrite neg_index_cons. cbn [dftn].
    rewrite Csum_conj. apply Csum_ext. intros i _.
    rewrite Cconj_mul, (expi_conj s N k i Hs H). f_equal.
    apply (IH (fun sp => f (i :: sp)) k' H').
Qed.

(** A grid function is Hermitian when its value at the opposite frequency is
    the conjugate. *)
Lemma dftn_real_hermitian s exts (f : index -> R) k :
  (s = 1 \/ s = -1)%R -> in_grid exts k ->
  dftn s exts (fun x => Cx.of_R (f x)) (neg_index exts k)
  = Cx.conj (dftn s exts (fun x => Cx.of_R (f x)) k).
Proof.
  intros Hs Hk. rewrite (dftn_conj s exts Hs _ k Hk).
  apply dftn_ext. intros x _. symmetry. apply Cconj_of_R.
Qed.




(** ** The stored half spectrum *)

Lemma in_grid_last e : forall k,
  in_grid e k -> e <> [] -> (last k 0 < last e 0)%nat.
Proof.
  induction e as [|N e IH]; intros [|k k'] H Hne; cbn in H; try contradiction.
  destruct H as [H H']. destruct e as [|N' e'].
  - destruct k'; [exact H|contradiction].
  - destruct k' as [|k1 k2]; [contradiction|].
    change (last (k1 :: k2) 0 < last (N' :: e') 0)%nat.
    apply IH; [exact H'|discriminate].
Qed.

Lemma last_neg_index e : forall k,
  in_grid e k -> e <> [] ->
  last (neg_index e k) 0%nat = ((last e 0 - last k 0) mod last e 0)%nat.
Proof.
  induction e as [|N e IH]; intros [|k k'] H Hne; cbn in H; try contradiction.
  destruct H as [H H']. rewrite neg_index_cons. destruct e as [|N' e'].
  - destruct k'; [reflexivity|contradiction].
  - destruct k' as [|k1 k2]; [contradiction|].
    rewrite neg_index_cons.
    change (last (neg_index (N' :: e') (k1 :: k2)) 0%nat
            = ((last (N' :: e') 0 - last (k1 :: k2) 0) mod last (N' :: e') 0)%nat).
    apply IH; [exact H'|discriminate].
Qed.

Lemma half_reflect H l : (l < H)%nat -> (H / 2 < l)%nat -> ((H - l) mod H <= H / 2)%nat.
Proof.
  intros Hl Hh. rewrite Nat.mod_small by lia.
  pose proof (Nat.div_mod_eq H 2). pose proof (Nat.mod_upper_bound H 2). lia.
Qed.

(** From the stored half of a Hermitian spectrum the full spectrum is
    recovered. *)
Lemma herm_ext_half exts (G X : index -> C) :
  (forall k, in_grid exts k -> (last k 0 <= last exts 0 / 2)%nat -> G k = X k) ->
  (forall k, in_grid exts k -> X (neg_index exts k) = Cx.conj (X k)) ->
  forall k, in_grid exts k -> herm_ext exts G k = X k.
Proof.
  intros HG HX k Hk. unfold herm_ext.
  destruct (Nat.leb_spec (last k 0) (last exts 0 / 2)) as [Hle|Hgt].
  - apply HG; assumption.
  - assert (Hne : exts <> []).
    { intros ->. destruct k; [cbn in Hgt; lia|contradiction]. }
    pose proof (in_grid_last exts k Hk Hne) as Hlt.
    rewrite HG.
    + rewrite HX by exact Hk. apply Cconj_conj.
    + apply neg_index_in_grid. exact Hk.
    + rewrite last_neg_index by assumption. apply half_reflect; assumption.
Qed.

(** ** The lookup tables *)

Lemma cos_lut_nth N k :
  (k < N)%nat ->
  nth k (cos_lut (Z.of_nat N)) 0%R = (1 - cos (2 * PI * INR k / INR N))%R.
Proof.
  intros H. unfold cos_lut. rewrite Nat2Z.id.
  rewrite (nth_indep _ 0%R ((fun k => 1 - cos (2 * PI * INR k / IZR (Z.of_nat N))) 0%nat)%R)
    by (rewrite length_map, length_seq; exact H).
  rewrite (map_nth (fun k => (1 - cos (2 * PI * INR k / IZR (Z.of_nat N)))%R)).
  rewrite seq_nth by exact H. rewrite <- INR_IZR_INZ. reflexivity.
Qed.

Lemma sin_lut_nth N k :
  (k < N)%nat ->
  nth k (sin_lut (Z.of_nat N)) 0%R = sin (2 * PI * INR k / INR N).
Proof.
  intros H. unfold sin_lut. rewrite Nat2Z.id.
  rewrite (nth_indep _ 0%R ((fun k => sin (2 * PI * INR k / IZR (Z.of_nat N))) 0%nat))
    by (rewrite length_map, length_seq; exact H).
  rewrite (map_nth (fun k => sin (2 * PI * INR k / IZR (Z.of_nat N)))).
  rewrite seq_nth by exact H. rewrite <- INR_IZR_INZ. reflexivity.
Qed.

(** The lookup entries vanish at frequency 0. *)
Lemma luts_at_zero N :
  (0 < N)%nat ->
  nth 0 (cos_lut (Z.of_nat N)) 0%R = 0%R /\ nth 0 (sin_lut (Z.of_nat N)) 0%R = 0%R.
Proof.
  intros H. rewrite cos_lut_nth, sin_lut_nth by exact H. cbn [INR].
  replace (2 * PI * 0 / INR N)%R with 0%R by (unfold Rdiv; ring).
  rewrite cos_0, sin_0. split; ring.
Qed.

Lemma angle_reflect N k :
  (0 < k < N)%nat ->
  (2 * PI * INR (N - k) / INR N = - (2 * PI * INR k / INR N) + 2 * INR 1 * PI)%R.
Proof.
  intros H. assert (HN : (0 < INR N)%R) by (apply lt_0_INR; lia).
  rewrite minus_INR by lia. cbn [INR]. field. lra.
Qed.

(** The [1 - cos] table is even and the [sin] table is odd under
    [k -> (N - k) mod N]. *)
Lemma cos_lut_even N k :
  (k < N)%nat ->
  nth ((N - k) mod N) (cos_lut (Z.of_nat N)) 0%R = nth k (cos_lut (Z.of_nat N)) 0%R.
Proof.
  intros H. rewrite !cos_lut_nth by (try apply neg_coord_lt; exact H).
  destruct k as [|k].
  - rewrite Nat.sub_0_r, Nat.Div0.mod_same. reflexivity.
  - rewrite Nat.mod_small by lia. rewrite angle_reflect by lia.
    rewrite cos_period, cos_neg. reflexivity.
Qed.

Lemma sin_lut_odd N k :
  (k < N)%nat ->
  nth ((N - k) mod N) (sin_lut (Z.of_nat N)) 0%R
  = (- nth k (sin_lut (Z.of_nat N)) 0)%R.
Proof.
  intros H. rewrite !sin_lut_nth by (try apply neg_coord_lt; exact H).
  destruct k as [|k].
  - rewrite Nat.sub_0_r, Nat.Div0.mod_same. cbn [INR].
    replace (2 * PI * 0 / INR N)%R with 0%R by (unfold Rdiv; ring).
    rewrite sin_0. ring.
  - rewrite Nat.mod_small by lia. rewrite angle_reflect by lia.
    rewrite sin_period, sin_neg. reflexivity.
Qed.


(** ** Running [sharp] and [flat] on a 2-D metric *)

Lemma bind_run {A B} (c : M A) (k : A -> M B) w a w1 :
  c w = (Ok a, w1) -> bind c k w = k a w1.
Proof. intros H. unfold bind. rewrite H. reflexivity. Qed.

Lemma load_run l w a : heap w l = Some a -> load l w = (Ok a, w).
Proof. intros H. unfold load. rewrite H. reflexivity. Qed.

Lemma heap_put_eq w l a : heap (put w l a) l = Some a.
Proof. cbn. unfold upd. rewrite Nat.eqb_refl. reflexivity. Qed.

Lemma heap_put_neq w l a l' : l' <> l -> heap (put w l a) l' = heap w l'.
Proof.
  intros H. cbn. unfold upd. destruct (Nat.eqb_spec l' l); [contradiction|reflexivity].
Qed.

Lemma fft_run x y p s w ax ay f g :
  heap w x = Some ax -> a_buf ax = RealBuf f ->
  heap w y = Some ay -> a_buf ay = CplxBuf g ->
  fft x y p s w = (Ok tt, put w y (with_buf ay (CplxBuf (fft_data p ax ay f s)))).
Proof.
  intros Hx Ex Hy Ey. unfold fft.
  rewrite (bind_run _ _ _ _ _ (load_run _ _ _ Hx)).
  rewrite (bind_run _ _ _ _ _ (load_run _ _ _ Hy)).
  rewrite Ex, Ey. unfold store_buf. rewrite Hy. reflexivity.
Qed.

Lemma ifft_run x y p s w ax ay G h :
  heap w x = Some ax -> a_buf ax = CplxBuf G ->
  heap w y = Some ay -> a_buf ay = RealBuf h ->
  ifft x y p s w = (Ok tt, put w y (with_buf ay (RealBuf (ifft_data p ay G s)))).
Proof.
  intros Hx Ex Hy Ey. unfold ifft.
  rewrite (bind_run _ _ _ _ _ (load_run _ _ _ Hx)).
  rewrite (bind_run _ _ _ _ _ (load_run _ _ _ Hy)).
  rewrite Ex, Ey. unfold store_buf. rewrite Hy. reflexivity.
Qed.

Lemma operator_fourier_run Nb W H al be ga prec fv Fm inv w a F :
  heap w Fm = Some a -> a_buf a = CplxBuf F ->
  operator_fourier (metric2 Nb W H al be ga prec fv) Fm inv w
  = (Ok tt, put w Fm (with_buf a (CplxBuf (maskC (a_shape a)
       (kernel2 Nb W H al be ga inv (Z.of_nat H / 2 + 1)%Z F))))).
Proof.
  intros Ha EF. unfold operator_fourier, operator_2d.
  cbn -[Z.div Z.of_nat cos_lut sin_lut].
  unfold bind, getitem, load, store_buf, ret. cbn -[Z.div Z.of_nat cos_lut sin_lut].
  change (rank (shape2 Nb W H) =? 2)%Z with true. cbn beta iota.
  rewrite Ha, EF, Ha. reflexivity.
Qed.

Lemma sharp_unfold self m out w am af :
  heap w m = Some am -> c_contiguous am = true ->
  heap w (Fv self) = Some af -> c_contiguous af = true ->
  sharp self m out w
  = bind (match out with
          | None => gpuarray_empty_like m
          | Some o => ret o
          end)
         (fun o => apply_metric self m o true true false) w.
Proof.
  intros Hm Hc Hf Hcf. unfold sharp.
  rewrite (bind_run _ _ _ _ _ (load_run _ _ _ Hm)). rewrite Hc.
  unfold assert. rewrite (bind_run _ _ w tt w eq_refl).
  rewrite (bind_run _ _ _ _ _ (load_run _ _ _ Hf)). rewrite Hcf.
  rewrite (bind_run _ _ w tt w eq_refl). reflexivity.
Qed.

Lemma flat_unfold self m out w am af :
  heap w m = Some am -> c_contiguous am = true ->
  heap w (Fv self) = Some af -> c_contiguous af = true ->
  flat self m out w
  = bind (match out with
          | None => gpuarray_empty_like m
          | Some o => ret o
          end)
         (fun o => bind (astype m (dtype self))
                     (fun m' => apply_metric self m' o false false true)) w.
Proof.
  intros Hm Hc Hf Hcf. unfold flat.
  rewrite (bind_run _ _ _ _ _ (load_run _ _ _ Hm)). rewrite Hc.
  unfold assert. rewrite (bind_run _ _ w tt w eq_refl).
  rewrite (bind_run _ _ _ _ _ (load_run _ _ _ Hf)). rewrite Hcf.
  rewrite (bind_run _ _ w tt w eq_refl). reflexivity.
Qed.

Lemma apply_metric_run Nb W H al be ga prec fv m o inv s1 s2 w am af ao f g h :
  heap w m = Some am -> a_buf am = RealBuf f ->
  heap w fv = Some af -> a_buf af = CplxBuf g ->
  heap w o = Some ao -> a_buf ao = RealBuf h ->
  exists w',
    apply_metric (metric2 Nb W H al be ga prec fv) m o inv s1 s2 w = (Ok o, w')
    /\ heap w' o
       = Some (with_buf ao
                 (RealBuf (result2 Nb W H al be ga prec fv inv s1 s2 am af ao f)))
    /\ (exists g', heap w' fv = Some (with_buf af (CplxBuf g')))
    /\ (forall l, l <> o -> l <> fv -> heap w' l = heap w l)
    /\ next w' = next w.
Proof.
  intros Hm Em Hf Ef Ho Eo.
  assert (Hof : o <> fv) by (intros ->; congruence).
  unfold apply_metric. change (Fv (metric2 Nb W H al be ga prec fv)) with fv.
  rewrite (bind_run _ _ _ _ _ (fft_run _ _ _ _ _ _ _ _ _ Hm Em Hf Ef)).
  set (D1 := fft_data _ am af f s1).
  set (af1 := with_buf af (CplxBuf D1)).
  set (w1 := put w fv af1).
  rewrite (bind_run _ _ _ _ _
             (operator_fourier_run Nb W H al be ga prec fv fv inv w1 af1 D1
                (heap_put_eq w fv af1) eq_refl)).
  set (af2 := with_buf af1 _).
  set (w2 := put w1 fv af2).
  assert (Ho2 : heap w2 o = Some ao).
  { unfold w2, w1. rewrite !heap_put_neq by exact Hof. exact Ho. }
  rewrite (bind_run _ _ _ _ _
             (ifft_run fv o _ s2 w2 af2 ao _ h (heap_put_eq w1 fv af2) eq_refl
                Ho2 Eo)).
  eexists. split; [reflexivity|]. split; [apply heap_put_eq|].
  split; [|split].
  - eexists. rewrite heap_put_neq by (intros E; apply Hof; symmetry; exact E).
    unfold w2. rewrite heap_put_eq. reflexivity.
  - intros l Hlo Hlf. rewrite heap_put_neq by exact Hlo.
    unfold w2, w1. rewrite !heap_put_neq by exact Hlf. reflexivity.
  - reflexivity.
Qed.

(** ** The operator matrix at one frequency *)

Lemma apply_symbol_conj inv A u0 u1 :
  apply_symbol inv A (Cx.conj u0) (Cx.conj u1)
  = (Cx.conj (fst (apply_symbol inv A u0 u1)),
     Cx.conj (snd (apply_symbol inv A u0 u1))).
Proof.
  destruct A as [[a00 a01] a11], inv; unfold apply_symbol; cbn [fst snd];
    destruct u0, u1; unfold Cx.conj, Cx.scal, Cx.sub, Cx.add; cbn [fst snd];
    f_equal; f_equal; ring.
Qed.

Lemma apply_symbol_scal inv A a u0 u1 :
  apply_symbol inv A (Cx.scal a u0) (Cx.scal a u1)
  = (Cx.scal a (fst (apply_symbol inv A u0 u1)),
     Cx.scal a (snd (apply_symbol inv A u0 u1))).
Proof.
  destruct A as [[a00 a01] a11], inv; unfold apply_symbol; cbn [fst snd];
    destruct u0, u1; unfold Cx.conj, Cx.scal, Cx.sub, Cx.add; cbn [fst snd];
    f_equal; f_equal; ring.
Qed.


(** The matrix is the same at opposite frequencies. *)
Lemma symbol_2d_even ci si cj sj al be ga :
  symbol_2d ci (- si) cj (- sj) al be ga = symbol_2d ci si cj sj al be ga.
Proof. unfold symbol_2d. f_equal; [f_equal|]; ring. Qed.



Lemma apply_symbol_zero_freq al be ga u0 u1 :
  ga <> 0%R ->
  apply_symbol true (symbol_2d 0 0 0 0 al be ga) u0 u1
  = (Cx.scal (/ ga) u0, Cx.scal (/ ga) u1).
Proof.
  intros Hg. unfold symbol_2d, apply_symbol.
  destruct u0, u1; unfold Cx.scal, Cx.sub; cbn [fst snd].
  f_equal; f_equal; field; exact Hg.
Qed.

Lemma apply_symbol_zero inv A :
  apply_symbol inv A Cx.zero Cx.zero = (Cx.zero, Cx.zero).
Proof.
  destruct A as [[a00 a01] a11], inv; unfold apply_symbol, Cx.zero, Cx.scal,
    Cx.sub, Cx.add; cbn [fst snd]; f_equal; f_equal; ring.
Qed.

(** ** Shapes of a 2-D metric *)

Lemma in_shape2 Nb W H n c i j :
  (n < Nb)%nat -> (c < 2)%nat -> (i < W)%nat -> (j < H)%nat ->
  in_shape (shape2 Nb W H) [n; c; i; j] = true.
Proof.
  intros Hn Hc Hi Hj. cbn.
  assert (Hz : forall a b, (a < b)%nat -> (Z.of_nat a <? Z.of_nat b)%Z = true)
    by (intros; apply Z.ltb_lt; lia).
  rewrite (Hz n Nb Hn), (Hz i W Hi), (Hz j H Hj).
  assert (Hc2 : (Z.of_nat c <? 2)%Z = true) by (apply Z.ltb_lt; lia).
  rewrite Hc2. reflexivity.
Qed.


Lemma half_Z H l :
  (Z.of_nat l <? Z.of_nat H / 2 + 1)%Z = (l <=? H / 2)%nat.
Proof.
  change 2%Z with (Z.of_nat 2). rewrite <- Nat2Z.inj_div.
  destruct (Nat.leb_spec l (H / 2)).
  - apply Z.ltb_lt. lia.
  - apply Z.ltb_ge. lia.
Qed.

Lemma cshape2 Nb W H :
  cshape_of (shape2 Nb W H)
  = [Z.of_nat Nb; 2%Z; Z.of_nat W; (Z.of_nat H / 2 + 1)%Z].
Proof. reflexivity. Qed.

Lemma in_cshape2 Nb W H n c k l :
  (n < Nb)%nat -> (c < 2)%nat -> (k < W)%nat -> (l <= H / 2)%nat ->
  in_shape (cshape_of (shape2 Nb W H)) [n; c; k; l] = true.
Proof.
  intros Hn Hc Hk Hl. rewrite cshape2. cbn -[Z.div Z.of_nat].
  rewrite half_Z.
  assert (Hz : forall a b, (a < b)%nat -> (Z.of_nat a <? Z.of_nat b)%Z = true)
    by (intros; apply Z.ltb_lt; lia).
  rewrite (Hz n Nb Hn), (Hz k W Hk).
  assert (Hc2 : (Z.of_nat c <? 2)%Z = true) by (apply Z.ltb_lt; lia).
  rewrite Hc2. apply Nat.leb_le in Hl. rewrite Hl. reflexivity.
Qed.

(** The kernel at one frequency of one batch. *)
Lemma kernel2_at Nb W H al be ga inv ny F n c k l :
  (n < Nb)%nat -> (c < 2)%nat -> (k < W)%nat -> (Z.of_nat l < ny)%Z ->
  kernel2 Nb W H al be ga inv ny F [n; c; k; l]
  = let r := apply_symbol inv
               (symbol_2d (nth k (cos_lut (Z.of_nat W)) 0%R)
                          (nth k (sin_lut (Z.of_nat W)) 0%R)
                          (nth l (cos_lut (Z.of_nat H)) 0%R)
                          (nth l (sin_lut (Z.of_nat H)) 0%R) al be ga)
               (F [n; 0%nat; k; l]) (F [n; 1%nat; k; l]) in
    if (c =? 0)%nat then fst r else snd r.
Proof.
  intros Hn Hc Hk Hl. unfold kernel2, operator_2d_at.
  assert (Hz : forall a b, (a < b)%nat -> (Z.of_nat a <? Z.of_nat b)%Z = true)
    by (intros; apply Z.ltb_lt; lia).
  rewrite (Hz n Nb Hn), (Hz k W Hk).
  apply Z.ltb_lt in Hl. rewrite Hl.
  apply Nat.ltb_lt in Hc. rewrite Hc. reflexivity.
Qed.

(** ** The transform legs of a 2-D metric *)

Lemma plan_exts2 Nb W H al be ga prec fv :
  plan_exts (fftplan (metric2 Nb W H al be ga prec fv)) = [W; H]
  /\ plan_exts (ifftplan (metric2 Nb W H al be ga prec fv)) = [W; H].
Proof. unfold plan_exts. cbn. rewrite !Nat2Z.id. split; reflexivity. Qed.

Lemma scale_of2 Nb W H al be ga prec fv a :
  (0 < Nb)%nat -> a_shape a = shape2 Nb W H ->
  scale_of a (fftplan (metric2 Nb W H al be ga prec fv)) = (INR W * INR H)%R
  /\ scale_of a (ifftplan (metric2 Nb W H al be ga prec fv)) = (INR W * INR H)%R.
Proof.
  intros HNb Ha. unfold scale_of. rewrite Ha.
  cbn -[Z.mul Z.of_nat]. rewrite !mult_IZR, <- !INR_IZR_INZ.
  assert (INR Nb <> 0)%R by (apply not_0_INR; lia).
  split; field; lra.
Qed.

Lemma lead2 Nb W H al be ga prec fv a :
  a_shape a = shape2 Nb W H ->
  lead a (fftplan (metric2 Nb W H al be ga prec fv)) = 2%nat
  /\ lead a (ifftplan (metric2 Nb W H al be ga prec fv)) = 2%nat.
Proof. intros Ha. unfold lead. rewrite Ha. split; reflexivity. Qed.

(** The forward leg stores the spectrum, scaled, on the half grid. *)
Lemma fft_data_at Nb W H al be ga prec fv am af f s idx :
  (0 < Nb)%nat ->
  a_shape am = shape2 Nb W H -> a_shape af = cshape_of (shape2 Nb W H) ->
  in_shape (cshape_of (shape2 Nb W H)) idx = true ->
  fft_data (fftplan (metric2 Nb W H al be ga prec fv)) am af f s idx
  = Cx.scal (leg_factor W H s) (spectrum2 W H f idx).
Proof.
  intros HNb Ham Haf Hin. unfold fft_data, maskC. rewrite Haf, Hin.
  destruct (plan_exts2 Nb W H al be ga prec fv) as [-> _].
  destruct (lead2 Nb W H al be ga prec fv am Ham) as [-> _].
  destruct (scale_of2 Nb W H al be ga prec fv am HNb Ham) as [-> _].
  unfold leg_factor, spectrum2. destruct s; [reflexivity|].
  symmetry. apply Cscal_1.
Qed.

(** The backward leg rebuilds the full spectrum, transforms it and scales
    the real part. *)
Lemma ifft_data_at Nb W H al be ga prec fv ao G s idx :
  (0 < Nb)%nat ->
  a_shape ao = shape2 Nb W H ->
  in_shape (shape2 Nb W H) idx = true ->
  ifft_data (ifftplan (metric2 Nb W H al be ga prec fv)) ao G s idx
  = (leg_factor W H s
     * Cx.re (dftn 1 [W; H]
                (herm_ext [W; H] (fun k => G (firstn 2 idx ++ k)))
                (skipn 2 idx)))%R.
Proof.
  intros HNb Hao Hin. unfold ifft_data, maskR. rewrite Hao, Hin.
  destruct (plan_exts2 Nb W H al be ga prec fv) as [_ ->].
  destruct (lead2 Nb W H al be ga prec fv ao Hao) as [_ ->].
  destruct (scale_of2 Nb W H al be ga prec fv ao HNb Hao) as [_ ->].
  unfold leg_factor. destruct s; [|ring].
  unfold Rdiv. ring.
Qed.

(** The spectrum of a real field is Hermitian. *)
Lemma spectrum2_hermitian W H f n c k :
  in_grid [W; H] k ->
  spectrum2 W H f (n :: c :: neg_index [W; H] k)
  = Cx.conj (spectrum2 W H f (n :: c :: k)).
Proof.
  intros Hk. unfold spectrum2. cbn [firstn skipn app].
  apply (dftn_real_hermitian (-1) [W; H] (fun sp => f (n :: c :: sp)) k);
    [right; reflexivity|exact Hk].
Qed.

(** The kernel, launched on the full grid, keeps a spectrum Hermitian. *)
Lemma kernel2_hermitian Nb W H al be ga inv (X : index -> C) n c k :
  (n < Nb)%nat -> (c < 2)%nat -> in_grid [W; H] k ->
  (forall c', X (n :: c' :: neg_index [W; H] k) = Cx.conj (X (n :: c' :: k))) ->
  kernel2 Nb W H al be ga inv (Z.of_nat H) X (n :: c :: neg_index [W; H] k)
  = Cx.conj (kernel2 Nb W H al be ga inv (Z.of_nat H) X (n :: c :: k)).
Proof.
  intros Hn Hc Hk HX.
  destruct k as [|k [|l [|x k']]]; cbn in Hk; try tauto.
  destruct Hk as (Hk & Hl & _).
  pose proof (HX 0%nat) as HX0. pose proof (HX 1%nat) as HX1.
  rewrite !neg_index_cons in *. cbn [neg_index combine map] in *.
  rewrite !kernel2_at; try assumption; try lia;
    try (apply neg_coord_lt; assumption);
    try (apply Nat2Z.inj_lt; try apply neg_coord_lt; assumption).
  rewrite HX0, HX1.
  rewrite (cos_lut_even W k Hk), (cos_lut_even H l Hl).
  rewrite (sin_lut_odd W k Hk), (sin_lut_odd H l Hl).
  rewrite symbol_2d_even, apply_symbol_conj. cbn [fst snd].
  destruct (c =? 0)%nat; reflexivity.
Qed.

(** ** The spectrum of the result of [sharp] and [flat] *)

Lemma in_grid2 W H k :
  in_grid [W; H] k -> exists i j, k = [i; j] /\ (i < W)%nat /\ (j < H)%nat.
Proof.
  destruct k as [|i [|j [|x k']]]; cbn; try tauto.
  intros (Hi & Hj & _). exists i, j. auto.
Qed.

(** The full-grid spectrum that the kernel stands for: the spectrum of the
    input, scaled by the forward leg, multiplied at every frequency. *)
Lemma full_spectrum_hermitian Nb W H al be ga inv a (f : index -> R) n c k :
  (n < Nb)%nat -> (c < 2)%nat -> in_grid [W; H] k ->
  Cx.scal a (kernel2 Nb W H al be ga inv (Z.of_nat H) (spectrum2 W H f)
               (n :: c :: neg_index [W; H] k))
  = Cx.conj (Cx.scal a (kernel2 Nb W H al be ga inv (Z.of_nat H)
                          (spectrum2 W H f) (n :: c :: k))).
Proof.
  intros Hn Hc Hk. rewrite Cconj_scal. f_equal.
  apply kernel2_hermitian; try assumption.
  intros c'. apply spectrum2_hermitian. exact Hk.
Qed.

Lemma stored_spectrum Nb W H al be ga prec fv inv s1 am af f n c k :
  (0 < Nb)%nat ->
  a_shape am = shape2 Nb W H -> a_shape af = cshape_of (shape2 Nb W H) ->
  (n < Nb)%nat -> (c < 2)%nat -> in_grid [W; H] k ->
  herm_ext [W; H]
    (fun k' => maskC (a_shape af)
                 (kernel2 Nb W H al be ga inv (Z.of_nat H / 2 + 1)%Z
                    (fft_data (fftplan (metric2 Nb W H al be ga prec fv))
                       am af f s1))
                 (n :: c :: k')) k
  = Cx.scal (leg_factor W H s1)
      (kernel2 Nb W H al be ga inv (Z.of_nat H) (spectrum2 W H f) (n :: c :: k)).
Proof.
  intros HNb Ham Haf Hn Hc Hk.
  apply (herm_ext_half [W; H] _
           (fun k => Cx.scal (leg_factor W H s1)
                       (kernel2 Nb W H al be ga inv (Z.of_nat H)
                          (spectrum2 W H f) (n :: c :: k)))); [| |exact Hk].
  - clear k Hk. intros k Hk Hhalf.
    destruct (in_grid2 W H k Hk) as (i & l & -> & Hi & Hl).
    cbn [last] in Hhalf.
    unfold maskC. rewrite Haf, (in_cshape2 Nb W H n c i l) by assumption.
    rewrite !kernel2_at; try assumption; try lia;
      [|apply Z.ltb_lt; rewrite half_Z; apply Nat.leb_le; exact Hhalf].
    rewrite !(fft_data_at Nb W H al be ga prec fv am af f s1)
      by (try assumption; apply in_cshape2; try assumption; lia).
    rewrite apply_symbol_scal. cbn [fst snd].
    destruct (c =? 0)%nat; reflexivity.
  - clear k Hk. intros k Hk.
    apply full_spectrum_hermitian; assumption.
Qed.

(** The result of a call, as a filter in the frequency domain. *)
Lemma result2_at Nb W H al be ga prec fv inv s1 s2 am af ao f n c i j :
  (0 < Nb)%nat ->
  a_shape am = shape2 Nb W H -> a_shape af = cshape_of (shape2 Nb W H) ->
  a_shape ao = shape2 Nb W H ->
  (n < Nb)%nat -> (c < 2)%nat -> (i < W)%nat -> (j < H)%nat ->
  result2 Nb W H al be ga prec fv inv s1 s2 am af ao f [n; c; i; j]
  = (leg_factor W H s2
     * Cx.re (dftn 1 [W; H]
                (fun k => Cx.scal (leg_factor W H s1)
                            (kernel2 Nb W H al be ga inv (Z.of_nat H)
                               (spectrum2 W H f) (n :: c :: k)))
                [i; j]))%R.
Proof.
  intros HNb Ham Haf Hao Hn Hc Hi Hj. unfold result2.
  rewrite ifft_data_at by (try assumption; apply in_shape2; assumption).
  cbn [firstn skipn app]. f_equal. f_equal.
  apply dftn_ext. intros k Hk.
  apply stored_spectrum; assumption.
Qed.

Lemma points2 W H : INR (points [W; H]) = (INR W * INR H)%R.
Proof. unfold points. cbn [fold_right]. rewrite Nat.mul_1_r. apply mult_INR. Qed.


(** ** [sharp] after [flat] and [flat] after [sharp], on the data *)






(** ** Spatially constant fields *)

Lemma expi_sum_zero s N l :
  (s = 1 \/ s = -1)%R -> (0 < l < N)%nat ->
  Cx.sum N (fun j => expi s N l j) = Cx.zero.
Proof.
  intros Hs Hl. rewrite <- (root_sum_zero s N l Hs Hl).
  apply Csum_ext. intros j _. unfold expi. f_equal.
  rewrite mult_INR. unfold Rdiv. ring.
Qed.

(** A constant signal has no spectrum away from frequency 0. *)
Lemma dftn2_const_zero s W H z k l :
  (s = 1 \/ s = -1)%R -> (k < W)%nat -> (l < H)%nat ->
  (k <> 0 \/ l <> 0)%nat ->
  dftn s [W; H] (fun _ => z) [k; l] = Cx.zero.
Proof.
  intros Hs Hk Hl Hne. cbn [dftn].
  destruct (Nat.eq_dec l 0) as [->|Hl0].
  - destruct Hne as [Hk0|]; [|congruence].
    rewrite Csum_mul_r, expi_sum_zero by (auto; lia). apply Cmul_0_l.
  - rewrite (Csum_ext W _ (fun _ => Cx.zero)); [apply Csum_zero|].
    intros i _. rewrite Csum_mul_r, expi_sum_zero by (auto; lia).
    rewrite Cmul_0_l. apply Cmul_0_r.
Qed.

(** On the spectrum of a spatially constant field the inverse kernel is the
    division by [gamma]. *)
Lemma kernel2_constant Nb W H al be ga (f : index -> R) (a : nat -> nat -> R)
    n c k l :
  ga <> 0%R ->
  (forall n c i j, (n < Nb)%nat -> (c < 2)%nat -> (i < W)%nat -> (j < H)%nat ->
                   f [n; c; i; j] = a n c) ->
  (n < Nb)%nat -> (c < 2)%nat -> (k < W)%nat -> (l < H)%nat ->
  kernel2 Nb W H al be ga true (Z.of_nat H) (spectrum2 W H f) [n; c; k; l]
  = Cx.scal (/ ga) (spectrum2 W H f [n; c; k; l]).
Proof.
  intros Hg Hf Hn Hc Hk Hl.
  rewrite kernel2_at by (try assumption; lia).
  assert (Hconst : forall c', (c' < 2)%nat ->
            spectrum2 W H f [n; c'; k; l]
            = dftn (-1) [W; H] (fun _ => Cx.of_R (a n c')) [k; l]).
  { intros c' Hc'. unfold spectrum2. cbn [firstn skipn app].
    apply dftn_ext. intros x Hx.
    destruct (in_grid2 W H x Hx) as (i & j & -> & Hi & Hj).
    rewrite Hf by assumption. reflexivity. }
  destruct (Nat.eq_dec k 0) as [->|Hk0]; [destruct (Nat.eq_dec l 0) as [->|Hl0]|].
  - destruct (luts_at_zero W) as [-> ->]; [lia|].
    destruct (luts_at_zero H) as [-> ->]; [lia|].
    rewrite apply_symbol_zero_freq by exact Hg. cbn [fst snd].
    destruct c as [|[|c]]; [reflexivity|reflexivity|lia].
  - rewrite !Hconst by lia.
    rewrite !dftn2_const_zero by (auto; right; reflexivity).
    rewrite apply_symbol_zero. cbn [fst snd]. rewrite Cscal_0_r.
    destruct (c =? 0)%nat; reflexivity.
  - rewrite !Hconst by lia.
    rewrite !dftn2_const_zero by (auto; right; reflexivity).
    rewrite apply_symbol_zero. cbn [fst snd]. rewrite Cscal_0_r.
    destruct (c =? 0)%nat; reflexivity.
Qed.

(** The data [sharp] returns for a spatially constant field. *)
Lemma sharp_constant_data Nb W H al be ga prec fv am af ao
    (f : index -> R) (a : nat -> nat -> R) n c i j :
  ga <> 0%R ->
  a_shape am = shape2 Nb W H -> a_shape af = cshape_of (shape2 Nb W H) ->
  a_shape ao = shape2 Nb W H ->
  (forall n c i j, (n < Nb)%nat -> (c < 2)%nat -> (i < W)%nat -> (j < H)%nat ->
                   f [n; c; i; j] = a n c) ->
  (n < Nb)%nat -> (c < 2)%nat -> (i < W)%nat -> (j < H)%nat ->
  result2 Nb W H al be ga prec fv true true false am af ao f [n; c; i; j]
  = (a n c / ga)%R.
Proof.
  intros Hg Ham Haf Hao Hf Hn Hc Hi Hj.
  assert (HNb : (0 < Nb)%nat) by lia.
  assert (HW : (INR W <> 0)%R) by (apply not_0_INR; lia).
  assert (HH : (INR H <> 0)%R) by (apply not_0_INR; lia).
  rewrite result2_at by assumption.
  rewrite (dftn_ext 1 [W; H] _
             (fun k => Cx.scal (leg_factor W H true * / ga)
                         (dftn (-1) [W; H]
                            (fun sp => Cx.of_R (f (n :: c :: sp))) k))).
  - rewrite dftn_scal.
    replace 1%R with (- -1)%R at 2 by lra.
    rewrite dftn_inverse by (cbn; auto; right; reflexivity).
    rewrite points2, (Hf n c i j) by assumption.
    unfold leg_factor, Cx.scal, Cx.of_R, Cx.re. cbn [fst snd]. field.
    repeat split; assumption.
  - intros k Hk. destruct (in_grid2 W H k Hk) as (k0 & l & -> & Hk0 & Hl).
    rewrite (kernel2_constant Nb W H al be ga f a n c k0 l) by assumption.
    rewrite Cscal_scal. reflexivity.
Qed.

(** ** Running the calls in the store *)

Lemma holds_field_lt self w m f : wf w -> holds_field self w m f -> (m < next w)%nat.
Proof. intros Hwf (am & Hm & _). eapply wf_lt; eauto. Qed.

Lemma scratch_lt self w : wf w -> scratch_ready self w -> (Fv self < next w)%nat.
Proof. intros Hwf (af & g & Hf & _). eapply wf_lt; eauto. Qed.

(** The output array of a call: the supplied one, or a fresh one. *)
Lemma output_run self m out w f :
  wf w -> holds_field self w m f ->
  match out with
  | None => True
  | Some o => exists h, holds_field self w o h
  end ->
  exists w1 h,
    match out with
    | None => gpuarray_empty_like m
    | Some o => ret o
    end w = (Ok match out with Some o => o | None => next w end, w1)
    /\ wf w1
    /\ holds_field self w1 match out with Some o => o | None => next w end h
    /\ (forall l, (l < next w)%nat -> heap w1 l = heap w l)
    /\ (next w <= next w1)%nat
    /\ copied w1 = copied w.
Proof.
  intros Hwf Hm Hout. destruct out as [o|].
  - destruct Hout as [h Ho]. exists w, h. repeat split; auto.
  - destruct Hm as (am & Hm & Hsh & Hc & Hd & Hb).
    unfold gpuarray_empty_like.
    rewrite (bind_run _ _ _ _ _ (load_run _ _ _ Hm)).
    eexists. exists (fun _ => 0%R). split; [reflexivity|].
    split; [|split; [|split; [|split]]].
    + intros l Hl. cbn in *. unfold upd.
      destruct (Nat.eqb_spec l (next w)); [lia|]. apply Hwf. lia.
    + eexists. split; [cbn; unfold upd; rewrite Nat.eqb_refl; reflexivity|].
      cbn. unfold zero_buf. rewrite Hd. auto.
    + intros l Hl. cbn. unfold upd.
      destruct (Nat.eqb_spec l (next w)); [lia|reflexivity].
    + cbn. lia.
    + reflexivity.
Qed.

(** The three steps common to [sharp] and [flat] on a 2-D metric. *)
Lemma apply_metric_field Nb W H al be ga prec fv m o inv s1 s2 w f h :
  wf w ->
  scratch_ready (metric2 Nb W H al be ga prec fv) w ->
  holds_field (metric2 Nb W H al be ga prec fv) w m f ->
  holds_field (metric2 Nb W H al be ga prec fv) w o h ->
  exists w' am af ao,
    a_shape am = shape2 Nb W H
    /\ a_shape af = cshape_of (shape2 Nb W H)
    /\ a_shape ao = shape2 Nb W H
    /\ apply_metric (metric2 Nb W H al be ga prec fv) m o inv s1 s2 w = (Ok o, w')
    /\ wf w'
    /\ scratch_ready (metric2 Nb W H al be ga prec fv) w'
    /\ holds_field (metric2 Nb W H al be ga prec fv) w' o
         (result2 Nb W H al be ga prec fv inv s1 s2 am af ao f)
    /\ (forall l, l <> o -> l <> fv -> heap w' l = heap w l)
    /\ next w' = next w
    /\ copied w' = copied w.
Proof.
  intros Hwf Hs Hm Ho.
  pose proof (holds_field_lt _ _ _ _ Hwf Ho) as Holt.
  pose proof (scratch_lt _ _ Hwf Hs) as Hflt.
  destruct Hs as (af & g & Hf & Hfsh & Hfc & Hfb).
  destruct Hm as (am & Hm & Hmsh & Hmc & Hmd & Hmb).
  destruct Ho as (ao & Ho & Hosh & Hoc & Hod & Hob).
  change (Fv (metric2 Nb W H al be ga prec fv)) with fv in *.
  destruct (apply_metric_run Nb W H al be ga prec fv m o inv s1 s2 w
              am af ao f g h Hm Hmb Hf Hfb Ho Hob)
    as (w' & Hrun & Hro & (g' & Hrf) & Hfr & Hnx).
  exists w', am, af, ao.
  split; [exact Hmsh|]. split; [exact Hfsh|]. split; [exact Hosh|].
  split; [exact Hrun|]. split; [|split; [|split; [|split; [|split]]]].
  - intros l Hl. rewrite Hnx in Hl. rewrite Hfr by lia. apply Hwf. exact Hl.
  - exists (with_buf af (CplxBuf g')), g'. repeat split; assumption.
  - exists (with_buf ao (RealBuf (result2 Nb W H al be ga prec fv inv s1 s2
                                    am af ao f))).
    repeat split; assumption.
  - exact Hfr.
  - exact Hnx.
  - assert (Hn : nocopy (apply_metric (metric2 Nb W H al be ga prec fv)
                           m o inv s1 s2)).
    { unfold apply_metric.
      repeat first [apply nocopy_fft | apply nocopy_ifft
                   | apply nocopy_operator_fourier | nocopy_step]. }
    specialize (Hn w). rewrite Hrun in Hn. exact Hn.
Qed.

Lemma holds_field_mono self w w1 m f :
  wf w -> holds_field self w m f ->
  (forall l, (l < next w)%nat -> heap w1 l = heap w l) ->
  holds_field self w1 m f.
Proof.
  intros Hwf Hm Hsame. pose proof (holds_field_lt _ _ _ _ Hwf Hm) as Hlt.
  destruct Hm as (am & Hm & Hrest). exists am. rewrite Hsame by exact Hlt. auto.
Qed.

Lemma scratch_ready_mono self w w1 :
  wf w -> scratch_ready self w ->
  (forall l, (l < next w)%nat -> heap w1 l = heap w l) ->
  scratch_ready self w1.
Proof.
  intros Hwf Hs Hsame. pose proof (scratch_lt _ _ Hwf Hs) as Hlt.
  destruct Hs as (af & g & Hf & Hrest). exists af, g.
  rewrite Hsame by exact Hlt. auto.
Qed.

Lemma astype_run self m d w f :
  wf w -> holds_field self w m f -> is_complex d = false ->
  exists w2,
    astype m d w = (Ok (next w), w2)
    /\ wf w2
    /\ holds_field self w2 (next w) f
    /\ (forall l, (l < next w)%nat -> heap w2 l = heap w l)
    /\ copied w2 = copied w ++ [(m, next w)].
Proof.
  intros Hwf (am & Hm & Hsh & Hc & Hd & Hb) Hcd. unfold astype.
  rewrite (bind_run _ _ _ _ _ (load_run _ _ _ Hm)). rewrite Hb.
  eexists. split; [reflexivity|]. cbn. split; [|split; [|split]].
  - intros l Hl. cbn in *. unfold upd.
    destruct (Nat.eqb_spec l (next w)); [lia|]. apply Hwf. lia.
  - eexists. split; [cbn; unfold upd; rewrite Nat.eqb_refl; reflexivity|].
    cbn. auto.
  - intros l Hl. unfold upd. destruct (Nat.eqb_spec l (next w)); [lia|reflexivity].
  - reflexivity.
Qed.

Lemma dtype_of_real Nb W H al be ga prec fv :
  is_complex (dtype (metric2 Nb W H al be ga prec fv)) = false.
Proof. cbn. unfold dtypes_of. destruct (String.eqb prec "single"); reflexivity. Qed.

(** [sharp] on a 2-D metric runs to completion and leaves the filtered
    field in the output array. *)
Lemma sharp_run Nb W H al be ga prec fv m out w f :
  wf w ->
  scratch_ready (metric2 Nb W H al be ga prec fv) w ->
  holds_field (metric2 Nb W H al be ga prec fv) w m f ->
  match out with
  | None => True
  | Some o => exists h, holds_field (metric2 Nb W H al be ga prec fv) w o h
  end ->
  exists w' am af ao,
    a_shape am = shape2 Nb W H
    /\ a_shape af = cshape_of (shape2 Nb W H)
    /\ a_shape ao = shape2 Nb W H
    /\ sharp (metric2 Nb W H al be ga prec fv) m out w
       = (Ok match out with Some o => o | None => next w end, w')
    /\ wf w'
    /\ scratch_ready (metric2 Nb W H al be ga prec fv) w'
    /\ holds_field (metric2 Nb W H al be ga prec fv) w'
         match out with Some o => o | None => next w end
         (result2 Nb W H al be ga prec fv true true false am af ao f).
Proof.
  intros Hwf Hs Hm Hout.
  destruct (output_run _ m out w f Hwf Hm Hout)
    as (w1 & h & Hrun1 & Hwf1 & Ho1 & Hsame1 & Hnx1 & Hcp1).
  pose proof (holds_field_mono _ _ _ _ _ Hwf Hm Hsame1) as Hm1.
  pose proof (scratch_ready_mono _ _ _ Hwf Hs Hsame1) as Hs1.
  destruct (apply_metric_field Nb W H al be ga prec fv m _ true true false
              w1 f h Hwf1 Hs1 Hm1 Ho1)
    as (w' & am & af & ao & Ham & Haf & Hao & Hrun & Hwf' & Hs' & Ho' & _).
  exists w', am, af, ao. repeat (split; [assumption|]).
  split; [|repeat split; assumption].
  destruct Hm as (am0 & Hm0 & _ & Hc0 & _).
  destruct Hs as (af0 & g0 & Hf0 & _ & Hfc0 & _).
  rewrite (sharp_unfold _ m out w am0 af0 Hm0 Hc0 Hf0 Hfc0).
  rewrite (bind_run _ _ _ _ _ Hrun1). exact Hrun.
Qed.

(** [flat] on a 2-D metric runs to completion and leaves the filtered
    field in the output array. *)
Lemma flat_run Nb W H al be ga prec fv m out w f :
  wf w ->
  scratch_ready (metric2 Nb W H al be ga prec fv) w ->
  holds_field (metric2 Nb W H al be ga prec fv) w m f ->
  match out with
  | None => True
  | Some o => exists h, holds_field (metric2 Nb W H al be ga prec fv) w o h
  end ->
  exists w' am af ao,
    a_shape am = shape2 Nb W H
    /\ a_shape af = cshape_of (shape2 Nb W H)
    /\ a_shape ao = shape2 Nb W H
    /\ flat (metric2 Nb W H al be ga prec fv) m out w
       = (Ok match out with Some o => o | None => next w end, w')
    /\ wf w'
    /\ scratch_ready (metric2 Nb W H al be ga prec fv) w'
    /\ holds_field (metric2 Nb W H al be ga prec fv) w'
         match out with Some o => o | None => next w end
         (result2 Nb W H al be ga prec fv false false true am af ao f).
Proof.
  intros Hwf Hs Hm Hout.
  destruct (output_run _ m out w f Hwf Hm Hout)
    as (w1 & h & Hrun1 & Hwf1 & Ho1 & Hsame1 & Hnx1 & Hcp1).
  pose proof (holds_field_mono _ _ _ _ _ Hwf Hm Hsame1) as Hm1.
  pose proof (scratch_ready_mono _ _ _ Hwf Hs Hsame1) as Hs1.
  destruct (astype_run _ m _ w1 f Hwf1 Hm1
              (dtype_of_real Nb W H al be ga prec fv))
    as (w2 & Hrun2 & Hwf2 & Hm2 & Hsame2 & Hcp2).
  pose proof (holds_field_mono _ _ _ _ _ Hwf1 Ho1 Hsame2) as Ho2.
  pose proof (scratch_ready_mono _ _ _ Hwf1 Hs1 Hsame2) as Hs2.
  destruct (apply_metric_field Nb W H al be ga prec fv (next w1) _ false false
              true w2 f h Hwf2 Hs2 Hm2 Ho2)
    as (w' & am & af & ao & Ham & Haf & Hao & Hrun & Hwf' & Hs' & Ho' & _).
  exists w', am, af, ao. repeat (split; [assumption|]).
  split; [|repeat split; assumption].
  destruct Hm as (am0 & Hm0 & _ & Hc0 & _).
  destruct Hs as (af0 & g0 & Hf0 & _ & Hfc0 & _).
  rewrite (flat_unfold _ m out w am0 af0 Hm0 Hc0 Hf0 Hfc0).
  rewrite (bind_run _ _ _ _ _ Hrun1).
  rewrite (bind_run _ _ _ _ _ Hrun2). exact Hrun.
Qed.

(** ** The musical isomorphisms *)

Lemma init_metric2 Nb W H al be ga prec w0 self w1 :
  FluidMetric_init (shape2 Nb W H) al be ga prec w0 = (Ok self, w1) ->
  self = metric2 Nb W H al be ga prec (next w0).
Proof. intros Hinit. destruct (init_ok _ _ _ _ _ _ _ _ Hinit) as (_ & -> & _). reflexivity. Qed.




Lemma scratch_ready22 : scratch_ready metric22 world22.
Proof. eexists; eexists. repeat split; reflexivity. Qed.

Lemma holds_field22 : holds_field metric22 world22 5 (fun _ => 1%R).
Proof. eexists. repeat split; reflexivity. Qed.

Lemma native_field22 : native_field metric22 world22 5 (fun _ => 1%R).
Proof. eexists. repeat split; reflexivity. Qed.

Lemma init22 :
  FluidMetric_init (shape2 1 2 2) 1 1 10 "double" world0
  = (Ok metric22, world_after_init [1; 2; 2; 2]%Z "double" world0).
Proof. rewrite init_unfold. reflexivity. Qed.








(** C9 (counterexample): [sharp(m, out=m)] on the constant field 1 with
    [gamma = 10] is accepted and returns [m], whose elements are now 1/10:
    the input array has been overwritten. *)
Lemma sharp_in_place_overwrites_input :
  fst (sharp metric22 5 (Some 5%nat) world22) = Ok 5%nat
  /\ heap (snd (sharp metric22 5 (Some 5%nat) world22)) 5%nat
     <> heap world22 5%nat.
Proof.
  destruct (sharp_run 1 2 2 1 1 10 "double" 0 5 (Some 5%nat) world22
              (fun _ => 1%R) wf_world22 scratch_ready22 holds_field22
              (ex_intro _ _ holds_field22))
    as (w' & am & af & ao & Ham & Haf & Hao & Hrun & _ & _ & Hr).
  change (metric2 1 2 2 1 1 10 "double" 0) with metric22 in *.
  rewrite Hrun. cbn [fst snd]. split; [reflexivity|].
  destruct Hr as (a' & Ha' & _ & _ & _ & Hb). rewrite Ha'.
  change (heap world22 5%nat)
    with (Some (mkArr [1; 2; 2; 2]%Z float64 true (RealBuf (fun _ => 1%R)))).
  intros E. inversion E as [E']. rewrite E' in Hb. cbn in Hb.
  inversion Hb as [Hfun].
  assert (Hval : result2 1 2 2 1 1 10 "double" 0 true true false am af ao
                   (fun _ => 1%R) [0; 0; 0; 0]%nat = (1 / 10)%R).
  { apply (sharp_constant_data 1 2 2 1 1 10 "double" 0 am af ao
             (fun _ => 1%R) (fun _ _ => 1%R)); auto; lra. }
  rewrite <- Hfun in Hval. lra.
Qed.

(** ** A singular operator with [gamma > 4*alpha + 2*beta] *)

Lemma expi_zero s N i : expi s N 0 i = Cx.one.
Proof.
  unfold expi. cbn [Nat.mul INR]. rewrite <- cis_0. f_equal. unfold Rdiv. ring.
Qed.

Lemma dftn_zero s exts : forall k, dftn s exts (fun _ => Cx.zero) k = Cx.zero.
Proof.
  induction exts as [|N e IH]; intros k; cbn; [reflexivity|].
  destruct k as [|ka k']; [reflexivity|].
  rewrite (Csum_ext N _ (fun _ => Cx.zero)); [apply Csum_zero|].
  intros i _. rewrite IH. apply Cmul_0_r.
Qed.

Lemma luts21 :
  nth 1 (cos_lut (Z.of_nat 2)) 0%R = 2%R
  /\ nth 1 (sin_lut (Z.of_nat 2)) 0%R = 0%R.
Proof.
  rewrite cos_lut_nth, sin_lut_nth by lia. cbn [INR].
  replace (2 * PI * 1 / (1 + 1))%R with PI by field.
  rewrite cos_PI, sin_PI. split; ring.
Qed.

(** With [alpha = -1], [beta = 0], [gamma = 2] the matrix vanishes at
    frequency (1, 0) of the 2 x 1 grid although [gamma > 4*alpha + 2*beta]. *)
Lemma singular_with_negative_alpha :
  (4 * -1 + 2 * 0 < 2)%R /\ ~ regular2 2 1 (-1) 0 2.
Proof.
  split; [lra|]. intros Hreg. apply (Hreg 1%nat 0%nat); try lia.
  destruct luts21 as [-> ->]. destruct (luts_at_zero 1) as [-> ->]; [lia|].
  unfold symbol_2d, det_of. ring.
Qed.

(** The forward kernel annihilates the spectrum of [zigzag]. *)
Lemma zigzag_annihilated c k :
  (c < 2)%nat -> (k < 2)%nat ->
  kernel2 1 2 1 (-1) 0 2 false (Z.of_nat 1) (spectrum2 2 1 zigzag) [0; c; k; 0]%nat
  = Cx.zero.
Proof.
  intros Hc Hk. rewrite kernel2_at by (try assumption; lia).
  destruct (luts_at_zero 1) as [-> ->]; [lia|].
  destruct k as [|[|k]]; [| |lia].
  - destruct (luts_at_zero 2) as [-> ->]; [lia|].
    assert (H0 : forall c', spectrum2 2 1 zigzag [0; c'; 0; 0]%nat = Cx.zero).
    { intros c'. unfold spectrum2. cbn [firstn skipn app dftn Cx.sum].
      rewrite !expi_zero. destruct c' as [|c']; cbn [zigzag]; cx. }
    rewrite !H0, apply_symbol_zero. destruct (c =? 0)%nat; reflexivity.
  - destruct luts21 as [-> ->].
    unfold symbol_2d, apply_symbol.
    generalize (spectrum2 2 1 zigzag [0; 0; 1; 0]%nat)
               (spectrum2 2 1 zigzag [0; 1; 1; 0]%nat).
    intros u0 u1. destruct (c =? 0)%nat; cx.
Qed.

(** On that metric [flat] sends the field [zigzag], which is not zero, to
    the zero field: [flat] is not injective, so no map can undo it. *)
Lemma flat_annihilates_with_negative_alpha :
  (4 * -1 + 2 * 0 < 2)%R
  /\ exists r1 w1 g,
       flat metric21 5 None world21 = (Ok r1, w1)
       /\ holds_field metric21 w1 r1 g
       /\ zigzag [0; 0; 0; 0]%nat = 1%R
       /\ forall c i, (c < 2)%nat -> (i < 2)%nat -> g [0; c; i; 0]%nat = 0%R.
Proof.
  split; [lra|].
  assert (Hwf : wf world21).
  { unfold world21. cbn zeta. apply wf_alloc, wf_after_init, wf_world0. }
  assert (Hs : scratch_ready metric21 world21)
    by (eexists; eexists; repeat split; reflexivity).
  assert (Hm : holds_field metric21 world21 5 zigzag)
    by (eexists; repeat split; reflexivity).
  destruct (flat_run 1 2 1 (-1) 0 2 "double" 0 5 None world21 zigzag Hwf Hs Hm I)
    as (wa & am & af & ao & Ham & Haf & Hao & Hrun & Hwfa & Hsa & Hra).
  change (metric2 1 2 1 (-1) 0 2 "double" 0) with metric21 in *.
  eexists; eexists; eexists.
  split; [exact Hrun|]. split; [exact Hra|].
  split; [reflexivity|].
  intros c i Hc Hi.
  rewrite result2_at by (try assumption; lia).
  rewrite (dftn_ext 1 [2; 1]%nat _ (fun _ => Cx.zero)).
  { rewrite dftn_zero. cbn. ring. }
  intros k Hk. destruct (in_grid2 2 1 k Hk) as (k0 & l & -> & Hk0 & Hl).
  assert (l = 0)%nat by lia. subst l.
  rewrite zigzag_annihilated by assumption. apply Cscal_0_r.
Qed.

(** * Further properties *)

(** ** A constructed instance *)

Lemma cshape_nth sh i :
  (i < List.length sh - 1)%nat -> nth i (cshape_of sh) 0%Z = nth i sh 0%Z.
Proof.
  intros H. unfold cshape_of.
  assert (Hs : sh <> []) by (intros ->; cbn in H; lia).
  destruct (exists_last Hs) as (l & x & ->).
  rewrite removelast_last. rewrite length_app in H. cbn in H.
  rewrite !app_nth1 by lia. reflexivity.
Qed.

Lemma cshape_last sh : last (cshape_of sh) 0%Z = (last sh 0 / 2 + 1)%Z.
Proof. unfold cshape_of. apply last_last. Qed.

Lemma dtypes_of_kinds prec :
  is_complex (fst (dtypes_of prec)) = false
  /\ is_complex (snd (dtypes_of prec)) = true.
Proof. unfold dtypes_of. destruct (String.eqb prec "single"); split; reflexivity. Qed.

(** The tables of the axes, as the instance records them. *)
Lemma tables_from_nth axes : forall l i Nf N,
  nth_error axes i = Some (Nf, N) ->
  nth_error (fst (tables_from l axes)) i = Some (mkLut (l + 2 * i) (cos_lut N))
  /\ nth_error (snd (tables_from l axes)) i = Some (mkLut (l + 2 * i + 1) (sin_lut N)).
Proof.
  induction axes as [|[Nf0 N0] axes IH]; intros l i Nf N Hi.
  - destruct i; discriminate.
  - destruct i as [|i]; cbn [tables_from fst snd nth_error] in *.
    + inversion Hi; subst. rewrite Nat.mul_0_r, !Nat.add_0_r, Nat.add_1_r. auto.
    + destruct (IH (S (S l)) i Nf N Hi) as [H1 H2]. rewrite H1, H2.
      split; do 2 f_equal; lia.
Qed.

Lemma tables_from_length axes : forall l,
  List.length (fst (tables_from l axes)) = List.length axes
  /\ List.length (snd (tables_from l axes)) = List.length axes.
Proof.
  induction axes as [|[Nf N] axes IH]; intros l; [split; reflexivity|].
  cbn [tables_from fst snd List.length]. destruct (IH (S (S l))) as [-> ->]. auto.
Qed.

(** The tables of the axes, as the loop of [initialize_luts] leaves them in
    the store. *)
Lemma luts_loop_heap d axes : forall cs ss w i Nf N,
  nth_error axes i = Some (Nf, N) ->
  heap (snd (luts_loop d axes cs ss w)) (next w + 2 * i)
    = Some (mkArr [Z.of_nat (List.length (cos_lut N))] d true
                  (RealBuf (vector (cos_lut N))))
  /\ heap (snd (luts_loop d axes cs ss w)) (next w + 2 * i + 1)
    = Some (mkArr [Z.of_nat (List.length (sin_lut N))] d true
                  (RealBuf (vector (sin_lut N)))).
Proof.
  induction axes as [|[Nf0 N0] axes IH]; intros cs ss w i Nf N Hi.
  - destruct i; discriminate.
  - cbn [luts_loop]. unfold to_gpu, alloc, bind, ret.
    cbn [fst snd next stdout copied heap].
    match goal with |- context [luts_loop d axes ?c ?s ?wx] =>
      set (cs1 := c); set (ss1 := s); set (w1 := wx)
    end.
    destruct i as [|i]; cbn [nth_error] in Hi.
    + inversion Hi; subst.
      pose proof (luts_loop_world d axes cs1 ss1 w1) as F. cbn zeta in F.
      destruct F as (_ & _ & _ & F & _).
      rewrite Nat.mul_0_r, !Nat.add_0_r.
      rewrite !F by (unfold w1; cbn [next]; lia).
      unfold w1. cbn [heap]. unfold upd.
      rewrite Nat.add_1_r, Nat.eqb_refl.
      destruct (Nat.eqb_spec (next w) (S (next w))); [lia|].
      rewrite Nat.eqb_refl. auto.
    + destruct (IH cs1 ss1 w1 i Nf N Hi) as [H1 H2].
      replace (next w + 2 * S i)%nat with (next w1 + 2 * i)%nat
        by (unfold w1; cbn [next]; lia).
      auto.
Qed.

Lemma axes_length sh :
  sh <> [] ->
  List.length (combine (skipn 2 (cshape_of sh)) (skipn 2 sh)) = (List.length sh - 2)%nat.
Proof.
  intros Hs. rewrite length_combine, !length_skipn, cshape_length by exact Hs. lia.
Qed.

Lemma axes_nth sh i :
  sh <> [] -> (i < List.length sh - 2)%nat ->
  nth_error (combine (skipn 2 (cshape_of sh)) (skipn 2 sh)) i
  = Some (nth (2 + i) (cshape_of sh) 0%Z, nth (2 + i) sh 0%Z).
Proof.
  intros Hs Hi.
  assert (Hlen : (i < List.length (combine (skipn 2 (cshape_of sh)) (skipn 2 sh)))%nat)
    by (rewrite axes_length by exact Hs; exact Hi).
  rewrite (nth_error_nth' _ (0%Z, 0%Z) Hlen). f_equal.
  rewrite combine_nth by (rewrite !length_skipn, cshape_length by exact Hs; reflexivity).
  rewrite !nth_skipn. reflexivity.
Qed.

(** X1: constructing a [FluidMetric] from a shape of spatial rank 2 or 3
    whose extents are all positive, with the precision "single" or
    "double", returns an instance.  Whenever construction returns an
    instance, the spatial rank is 2 or 3, the precision is one of the two
    and the batch count [shape[0] * shape[1]] is positive; exactly
    [1 + 2 * dim] arrays have been allocated, at consecutive fresh
    addresses: first the scratch spectrum [Fv], contiguous, complex, of the
    shape [complexshape] (which is [shape] with its last extent [H] replaced
    by [H // 2 + 1]), then for every spatial axis its [1 - cos] table and
    its [sin] table, each a contiguous 1-D array of the dtype of the
    instance with one entry per grid point of the axis; [luts['cos']] and
    [luts['sin']] name these tables, [dim] each.  Every array that existed
    before, the printed lines and the copy log are as before, and the
    instance is ready for [sharp] and [flat]. *)
Theorem FluidMetric_init_success (sh : list Z) (al be ga : R) (prec : string)
    (w : world) :
  ((rank sh = 2%Z \/ rank sh = 3%Z) ->
   (prec = "single"%string \/ prec = "double"%string) ->
   Forall (fun n => (0 < n)%Z) sh ->
   exists self w', FluidMetric_init sh al be ga prec w = (Ok self, w'))
  /\
  (forall self w', FluidMetric_init sh al be ga prec w = (Ok self, w') ->
     (rank sh = 2%Z \/ rank sh = 3%Z)
     /\ (prec = "single"%string \/ prec = "double"%string)
     /\ (0 < nth 0 sh 0 * nth 1 sh 0)%Z
     /\ shape self = sh /\ dim self = rank sh
     /\ alpha self = al /\ beta self = be /\ gamma self = ga
     /\ List.length (complexshape self) = List.length sh
     /\ (forall i, (i < List.length sh - 1)%nat ->
                   nth i (complexshape self) 0%Z = nth i sh 0%Z)
     /\ last (complexshape self) 0%Z = (last sh 0 / 2 + 1)%Z
     /\ is_complex (dtype self) = false
     /\ is_complex (complex_dtype self) = true
     /\ Fv self = next w
     /\ next w' = (next w + arrays_of_instance sh)%nat
     /\ (exists af, heap w' (Fv self) = Some af
                    /\ meta af = (complexshape self, complex_dtype self, true))
     /\ List.length (luts_cos self) = Z.to_nat (dim self)
     /\ List.length (luts_sin self) = Z.to_nat (dim self)
     /\ (forall i, (i < Z.to_nat (dim self))%nat ->
           exists c s ac asn,
             nth_error (luts_cos self) i = Some c
             /\ nth_error (luts_sin self) i = Some s
             /\ lut_at c = (next w + 1 + 2 * i)%nat
             /\ lut_at s = (next w + 2 + 2 * i)%nat
             /\ List.length (lut_data c) = Z.to_nat (nth (2 + i) sh 0%Z)
             /\ List.length (lut_data s) = Z.to_nat (nth (2 + i) sh 0%Z)
             /\ heap w' (lut_at c) = Some ac
             /\ heap w' (lut_at s) = Some asn
             /\ meta ac = ([Z.of_nat (List.length (lut_data c))], dtype self, true)
             /\ meta asn = ([Z.of_nat (List.length (lut_data s))], dtype self, true)
             /\ a_buf ac = RealBuf (vector (lut_data c))
             /\ a_buf asn = RealBuf (vector (lut_data s)))
     /\ scratch_ready self w'
     /\ (forall l, (l < next w)%nat -> heap w' l = heap w l)
     /\ (wf w -> wf w')
     /\ stdout w' = stdout w /\ copied w' = copied w).
Proof.
  split.
  - intros Hr Hp Hpos. rewrite init_unfold.
    destruct sh as [|n sh']; [destruct Hr; discriminate|].
    assert (E : negb (rank (n :: sh') =? 2)%Z && negb (rank (n :: sh') =? 3)%Z = false).
    { destruct Hr as [-> | ->]; reflexivity. }
    rewrite E.
    assert (E' : String.eqb prec "single" || String.eqb prec "double" = true).
    { destruct Hp as [-> | ->]; reflexivity. }
    rewrite E'.
    assert (Hb : (0 < nth 0 (n :: sh') 0 * nth 1 (n :: sh') 0)%Z).
    { destruct sh' as [|c sh'']; [destruct Hr as [Hr|Hr]; discriminate|].
      inversion Hpos as [|? ? Hn Hpos']; subst.
      inversion Hpos' as [|? ? Hc _]; subst. cbn [nth]. lia. }
    destruct (Z.leb_spec (nth 0 (n :: sh') 0 * nth 1 (n :: sh') 0)%Z 0%Z); [lia|].
    eexists; eexists; reflexivity.
  - intros self w' H.
    destruct (init_ok_args _ _ _ _ _ _ _ _ H) as (Hp & Hb).
    destruct (init_ok _ _ _ _ _ _ _ _ H) as (Hr & -> & ->).
    pose proof (rank_nonempty _ Hr) as Hs.
    destruct (dtypes_of_kinds prec) as (Hd1 & Hd2).
    pose proof (world_after_init_facts sh prec w) as F. cbn zeta in F.
    destruct F as (Fout & Fcp & Fnext & Fold & Ffv & Ffree).
    rewrite axes_length in Fnext by exact Hs.
    assert (Hdim : Z.to_nat (rank sh) = (List.length sh - 2)%nat)
      by (unfold rank; lia).
    assert (Hheap : heap (world_after_init sh prec w) (next w)
                    = Some (mkArr (cshape_of sh) (snd (dtypes_of prec)) true
                                  (CplxBuf (fun _ => Cx.zero)))).
    { rewrite Ffv. unfold zero_buf. rewrite Hd2. reflexivity. }
    cbn [instance_of shape dim alpha beta gamma complexshape dtype complex_dtype
         Fv luts_cos luts_sin].
    repeat match goal with |- _ /\ _ => split end; auto.
    + apply cshape_length; exact Hs.
    + intros i Hi. apply cshape_nth; exact Hi.
    + apply cshape_last.
    + rewrite Fnext. unfold arrays_of_instance. lia.
    + eexists. split; [exact Hheap|reflexivity].
    + rewrite (proj1 (tables_from_length _ _)), axes_length by exact Hs. lia.
    + rewrite (proj2 (tables_from_length _ _)), axes_length by exact Hs. lia.
    + intros i Hi. rewrite Hdim in Hi.
      pose proof (axes_nth sh i Hs Hi) as Hax.
      destruct (tables_from_nth _ (S (next w)) i _ _ Hax) as [Hc Hsn].
      destruct (luts_loop_heap (fst (dtypes_of prec)) _ [] []
                  (world_with_Fv sh prec w) i _ _ Hax) as [Hhc Hhs].
      fold (initialize_luts (cshape_of sh) sh (fst (dtypes_of prec))) in Hhc, Hhs.
      fold (world_after_init sh prec w) in Hhc, Hhs.
      cbn [world_with_Fv next] in Hhc, Hhs.
      do 4 eexists.
      split; [exact Hc|]. split; [exact Hsn|].
      cbn [lut_at lut_data].
      split; [lia|]. split; [lia|].
      split; [unfold cos_lut; rewrite length_map, length_seq; reflexivity|].
      split; [unfold sin_lut; rewrite length_map, length_seq; reflexivity|].
      split; [exact Hhc|]. split; [exact Hhs|].
      repeat split.
    + exists (mkArr (cshape_of sh) (snd (dtypes_of prec)) true
                    (CplxBuf (fun _ => Cx.zero))), (fun _ => Cx.zero).
      cbn [instance_of Fv complexshape a_shape c_contiguous a_buf]. auto.
    + intros Hwf. apply wf_after_init. exact Hwf.
Qed.

Lemma FluidMetric_init_success_witness :
  exists self w',
    FluidMetric_init [1; 2; 4; 6]%Z 1 1 10 "single" world0 = (Ok self, w')
    /\ Fv self = 0%nat /\ next w' = 5%nat
    /\ List.length (luts_cos self) = 2%nat
    /\ scratch_ready self w'.
Proof.
  destruct (proj1 (FluidMetric_init_success [1; 2; 4; 6]%Z 1 1 10 "single" world0))
    as (self & w' & H).
  - left; reflexivity.
  - left; reflexivity.
  - repeat constructor.
  - exists self, w'. split; [exact H|].
    destruct (proj2 (FluidMetric_init_success [1; 2; 4; 6]%Z 1 1 10 "single" world0)
                self w' H)
      as (_ & _ & _ & _ & Hd & _ & _ & _ & _ & _ & _ & _ & _ & Hfv & Hn & _ & Hlc & _ & _ & Hsr & _).
    rewrite Hd in Hlc.
    repeat split; assumption.
Defined.

(** ** The lookup tables stay as they were sent up *)

Lemma tables_from_In axes : forall l t,
  In t (fst (tables_from l axes) ++ snd (tables_from l axes)) ->
  exists i Nf N, nth_error axes i = Some (Nf, N)
    /\ (t = mkLut (l + 2 * i) (cos_lut N) \/ t = mkLut (l + 2 * i + 1) (sin_lut N)).
Proof.
  intros l t Hin. apply in_app_or in Hin.
  destruct Hin as [Hin|Hin]; apply In_nth_error in Hin; destruct Hin as [i Hi].
  - assert (Hlt : (i < List.length axes)%nat).
    { rewrite <- (proj1 (tables_from_length axes l)).
      apply nth_error_Some. congruence. }
    destruct (nth_error axes i) as [[Nf N]|] eqn:E;
      [|apply nth_error_None in E; lia].
    destruct (tables_from_nth axes l i Nf N E) as [H1 _].
    exists i, Nf, N. split; [exact E|]. left. congruence.
  - assert (Hlt : (i < List.length axes)%nat).
    { rewrite <- (proj2 (tables_from_length axes l)).
      apply nth_error_Some. congruence. }
    destruct (nth_error axes i) as [[Nf N]|] eqn:E;
      [|apply nth_error_None in E; lia].
    destruct (tables_from_nth axes l i Nf N E) as [_ H2].
    exists i, Nf, N. split; [exact E|]. right. congruence.
Qed.

(** Construction leaves every table in place. *)
Lemma init_luts_in_place sh al be ga prec w0 self w1 :
  FluidMetric_init sh al be ga prec w0 = (Ok self, w1) ->
  luts_in_place self w1
  /\ forall t, In t (luts_cos self ++ luts_sin self) -> (Fv self < lut_at t)%nat.
Proof.
  intros H. destruct (init_ok _ _ _ _ _ _ _ _ H) as (Hr & -> & ->).
  unfold luts_in_place. cbn [instance_of luts_cos luts_sin dtype Fv].
  split.
  - apply Forall_forall. intros t Hin.
    destruct (tables_from_In _ _ _ Hin) as (i & Nf & N & Hax & Ht).
    destruct (luts_loop_heap (fst (dtypes_of prec)) _ [] []
                (world_with_Fv sh prec w0) i _ _ Hax) as [Hhc Hhs].
    fold (initialize_luts (cshape_of sh) sh (fst (dtypes_of prec))) in Hhc, Hhs.
    fold (world_after_init sh prec w0) in Hhc, Hhs.
    cbn [world_with_Fv next] in Hhc, Hhs.
    unfold table_in_place.
    destruct Ht as [-> | ->]; cbn [lut_at lut_data]; assumption.
  - intros t Hin.
    destruct (tables_from_In _ _ _ Hin) as (i & Nf & N & _ & Ht).
    destruct Ht as [-> | ->]; cbn [lut_at]; lia.
Qed.

(** A call that does not get a table as [out] leaves the tables alone. *)
Lemma luts_kept sh al be ga prec w0 self w1 m out w :
  FluidMetric_init sh al be ga prec w0 = (Ok self, w1) ->
  wf w -> luts_in_place self w -> not_a_table self out ->
  luts_in_place self (snd (sharp self m out w))
  /\ luts_in_place self (snd (flat self m out w)).
Proof.
  intros Hinit Hwf Hin Hout.
  destruct (init_luts_in_place _ _ _ _ _ _ _ _ Hinit) as [_ Hfv].
  assert (Hkeep : forall call : M loc,
            frame (next w) (touched self out) (returned (next w) out) call ->
            luts_in_place self (snd (call w))).
  { intros call Hframe. unfold luts_in_place in *.
    rewrite Forall_forall in *. intros t Ht.
    specialize (Hin t Ht). unfold table_in_place in *.
    destruct (Hframe w (Nat.le_refl _)) as (_ & Hh & _).
    rewrite Hh; [exact Hin| |].
    - apply (wf_lt w _ _ Hwf Hin).
    - unfold touched. intros [E|E].
      + specialize (Hfv t Ht). lia.
      + exact (Hout t Ht E). }
  split; apply Hkeep; [apply frame_sharp|apply frame_flat].
Qed.

(** A field of the instance is never one of its tables: a table has one
    axis, a field four or five. *)
Lemma field_not_a_table sh al be ga prec w0 self w1 out w :
  FluidMetric_init sh al be ga prec w0 = (Ok self, w1) ->
  luts_in_place self w -> native_out self w out -> not_a_table self out.
Proof.
  intros Hinit Hin Hnative t Ht E. subst out.
  destruct Hnative as (h & am & Hm & Hsh & _).
  unfold luts_in_place in Hin. rewrite Forall_forall in Hin.
  specialize (Hin t Ht). unfold table_in_place in Hin.
  rewrite Hin in Hm. inversion Hm; subst am. cbn [a_shape] in Hsh.
  destruct (init_ok _ _ _ _ _ _ _ _ Hinit) as (Hr & E & _).
  rewrite E in Hsh. cbn [instance_of shape] in Hsh.
  rewrite <- Hsh in Hr. destruct Hr as [Hr|Hr]; discriminate.
Qed.

(** X2: the lookup tables are immutable for the lifetime of the instance.
    When construction returns, every table of [luts['cos']] and
    [luts['sin']] is in place in the store: the contiguous 1-D array that was
    sent up, of the dtype of the instance.  From then on every call of
    [sharp] or [flat] on a field of the instance (a contiguous array of its
    shape and dtype), with [out] omitted or naming such an array, leaves
    every table exactly as it was, whether the call returns or raises. *)
Theorem luts_immutable (sh : list Z) (al be ga : R) (prec : string)
    (w0 w1 : world) (self : FluidMetric)
    (Hinit : FluidMetric_init sh al be ga prec w0 = (Ok self, w1)) :
  luts_in_place self w1
  /\ (forall m out w f,
        wf w -> luts_in_place self w ->
        native_field self w m f -> native_out self w out ->
        luts_in_place self (snd (sharp self m out w))
        /\ luts_in_place self (snd (flat self m out w))).
Proof.
  split; [exact (proj1 (init_luts_in_place _ _ _ _ _ _ _ _ Hinit))|].
  intros m out w f Hwf Hin _ Hout.
  apply (luts_kept _ _ _ _ _ _ _ _ m out w Hinit Hwf Hin).
  exact (field_not_a_table _ _ _ _ _ _ _ _ out w Hinit Hin Hout).
Qed.

Lemma luts_immutable_witness :
  wf world22 /\ luts_in_place metric22 world22
  /\ native_field metric22 world22 5 (fun _ => 1%R)
  /\ native_out metric22 world22 (Some 5%nat)
  /\ luts_in_place metric22 (snd (sharp metric22 5 (Some 5%nat) world22))
  /\ luts_in_place metric22 (snd (flat metric22 5 (Some 5%nat) world22)).
Proof.
  assert (Hin : luts_in_place metric22 world22) by (repeat constructor).
  assert (Hout : native_out metric22 world22 (Some 5%nat))
    by (exists (fun _ => 1%R); exact native_field22).
  split; [exact wf_world22|]. split; [exact Hin|].
  split; [exact native_field22|]. split; [exact Hout|].
  exact (proj2 (luts_immutable [1; 2; 2; 2]%Z 1 1 10 "double" world0 _ metric22 init22)
           5%nat (Some 5%nat) world22 _ wf_world22 Hin native_field22 Hout).
Defined.

(** ** Calls on a 3-D instance *)

Lemma bind_raise {A B} (c : M A) (k : A -> M B) w e w1 :
  c w = (Raise e, w1) -> bind c k w = (Raise e, w1).
Proof. intros H. unfold bind. rewrite H. reflexivity. Qed.


Lemma operator_fourier_3d sh al be ga prec fv Fm inv w :
  rank sh = 3%Z ->
  operator_fourier (instance_of sh al be ga prec fv) Fm inv w
  = (Raise NotImplementedError, w).
Proof.
  intros Hr.
  assert (Hlen : List.length (cshape_of sh) = 5%nat).
  { rewrite cshape_length by (apply rank_nonempty; auto). unfold rank in Hr. lia. }
  unfold operator_fourier. cbn [complexshape dim instance_of].
  destruct (getitem_ok (cshape_of sh) 2%nat) as (x2 & _ & H2); [lia|].
  destruct (getitem_ok (cshape_of sh) 3%nat) as (x3 & _ & H3); [lia|].
  unfold bind. rewrite H2, H3, Hr. reflexivity.
Qed.

Lemma astype_step m d w am f :
  heap w m = Some am -> a_buf am = RealBuf f ->
  astype m d w
  = (Ok (next w),
     mkWorld (upd (heap w) (next w)
                (mkArr (a_shape am) d (c_contiguous am) (RealBuf f)))
             (S (next w)) (stdout w) (copied w ++ [(m, next w)])).
Proof.
  intros Hm Hb. unfold astype.
  rewrite (bind_run _ _ _ _ _ (load_run _ _ _ Hm)). rewrite Hb. reflexivity.
Qed.


Lemma unimplemented_run self m out w am af f g :
  (forall Fm inv w, operator_fourier self Fm inv w = (Raise NotImplementedError, w)) ->
  wf w ->
  heap w m = Some am -> c_contiguous am = true -> a_buf am = RealBuf f ->
  heap w (Fv self) = Some af -> c_contiguous af = true ->
  a_buf af = CplxBuf g ->
  (exists w',
      sharp self m out w = (Raise NotImplementedError, w')
      /\ heap w' (Fv self)
         = Some (with_buf af (CplxBuf (fft_data (fftplan self) am af f true)))
      /\ heap w' m = Some am
      /\ (out = None -> next w' = S (next w)))
  /\
  (exists w',
      flat self m out w = (Raise NotImplementedError, w')
      /\ heap w' (Fv self)
         = Some (with_buf af (CplxBuf (fft_data (fftplan self) am af f false)))
      /\ heap w' m = Some am
      /\ (out = None -> next w' = S (S (next w)))).
Proof.
  intros Hop Hwf Hm Hc Hb Hf Hcf Hbf.
  assert (Hmf : m <> Fv self) by (intros E; rewrite E in Hm; congruence).
  pose proof (wf_lt _ _ _ Hwf Hm) as Hmlt.
  pose proof (wf_lt _ _ _ Hwf Hf) as Hflt.
  (* the world once the output array is known *)
  assert (Hout : exists o w2,
             match out with
             | None => gpuarray_empty_like m
             | Some o => ret o
             end w = (Ok o, w2)
             /\ wf w2 /\ heap w2 m = Some am /\ heap w2 (Fv self) = Some af
             /\ (out = None -> next w2 = S (next w))).
  { destruct out as [o|].
    - exists o, w. repeat split; auto. discriminate.
    - unfold gpuarray_empty_like.
      rewrite (bind_run _ _ _ _ _ (load_run _ _ _ Hm)).
      eexists; eexists. split; [reflexivity|]. cbn. unfold upd.
      split; [|split; [|split]].
      + intros l Hl. cbn in Hl |- *.
        destruct (Nat.eqb_spec l (next w)); [lia|]. apply Hwf. lia.
      + destruct (Nat.eqb_spec m (next w)); [lia|exact Hm].
      + destruct (Nat.eqb_spec (Fv self) (next w)); [lia|exact Hf].
      + reflexivity. }
  destruct Hout as (o & w2 & Hrun & Hwf2 & Hm2 & Hf2 & Hnx2).
  split.
  + rewrite (sharp_unfold _ m out w am af Hm Hc Hf Hcf).
    rewrite (bind_run _ _ _ _ _ Hrun). unfold apply_metric.
    rewrite (bind_run _ _ _ _ _ (fft_run _ _ _ _ _ _ _ _ _ Hm2 Hb Hf2 Hbf)).
    rewrite (bind_raise _ _ _ _ _ (Hop _ _ _)).
    eexists. split; [reflexivity|]. split; [apply heap_put_eq|].
    split; [rewrite heap_put_neq by exact Hmf; exact Hm2|exact Hnx2].
  + rewrite (flat_unfold _ m out w am af Hm Hc Hf Hcf).
    rewrite (bind_run _ _ _ _ _ Hrun).
    rewrite (bind_run _ _ _ _ _ (astype_step _ (dtype self) _ _ _ Hm2 Hb)).
    pose proof (wf_lt _ _ _ Hwf2 Hm2) as Hmlt2.
    pose proof (wf_lt _ _ _ Hwf2 Hf2) as Hflt2.
    set (am' := mkArr (a_shape am) (dtype self) (c_contiguous am) (RealBuf f)).
    set (w3 := mkWorld _ _ _ _).
    assert (Hm3 : heap w3 (next w2) = Some am').
    { cbn. unfold upd. rewrite Nat.eqb_refl. reflexivity. }
    assert (Hf3 : heap w3 (Fv self) = Some af).
    { cbn. unfold upd. destruct (Nat.eqb_spec (Fv self) (next w2)); [lia|exact Hf2]. }
    assert (Hm3' : heap w3 m = Some am).
    { cbn. unfold upd. destruct (Nat.eqb_spec m (next w2)); [lia|exact Hm2]. }
    unfold apply_metric.
    rewrite (bind_run _ _ _ _ _ (fft_run _ _ _ _ _ _ _ _ _ Hm3 eq_refl Hf3 Hbf)).
    rewrite (bind_raise _ _ _ _ _ (Hop _ _ _)).
    eexists. split; [reflexivity|]. split; [|split].
    * rewrite heap_put_eq. reflexivity.
    * rewrite heap_put_neq by exact Hmf. exact Hm3'.
    * intros E. cbn. rewrite (Hnx2 E). reflexivity.
Qed.



(** ** Calls on a 2-D instance *)

Lemma chain_run Nb W H al be ga prec fv ops : forall m w f,
  wf w ->
  scratch_ready (metric2 Nb W H al be ga prec fv) w ->
  holds_field (metric2 Nb W H al be ga prec fv) w m f ->
  exists r w' g,
    chain (metric2 Nb W H al be ga prec fv) ops m w = (Ok r, w')
    /\ wf w'
    /\ scratch_ready (metric2 Nb W H al be ga prec fv) w'
    /\ holds_field (metric2 Nb W H al be ga prec fv) w' r g.
Proof.
  induction ops as [|b ops IH]; intros m w f Hwf Hs Hm.
  - exists m, w, f. cbn [chain]. auto.
  - cbn [chain]. destruct b.
    + destruct (sharp_run Nb W H al be ga prec fv m None w f Hwf Hs Hm I)
        as (w1 & am & af & ao & _ & _ & _ & Hrun & Hwf1 & Hs1 & Hr1).
      rewrite (bind_run _ _ _ _ _ Hrun). eapply IH; eassumption.
    + destruct (flat_run Nb W H al be ga prec fv m None w f Hwf Hs Hm I)
        as (w1 & am & af & ao & _ & _ & _ & Hrun & Hwf1 & Hs1 & Hr1).
      rewrite (bind_run _ _ _ _ _ Hrun). eapply IH; eassumption.
Qed.

(** X4: on a 2-D instance, in a state where the scratch spectrum is in
    place, [sharp] and [flat] accept every contiguous real array of the
    declared shape, whatever the coefficients: the call returns [out], or
    the fresh array when [out] was omitted; afterwards the scratch spectrum
    is in place again and the returned array is itself a contiguous real
    array of the declared shape.  Hence every finite sequence of calls, each
    applied to the array the previous one returned, runs to completion. *)
Theorem sharp_flat_2d_accept (Nb W H : nat) (al be ga : R) (prec : string)
    (w0 w1 : world) (self : FluidMetric)
    (Hinit : FluidMetric_init (shape2 Nb W H) al be ga prec w0 = (Ok self, w1))
    (m : loc) (out : option loc) (w : world) (f : index -> R)
    (Hwf : wf w) (Hscratch : scratch_ready self w)
    (Hm : holds_field self w m f) (Hout : usable_out self w out) :
  (exists w' g,
      sharp self m out w = (Ok match out with Some o => o | None => next w end, w')
      /\ wf w' /\ scratch_ready self w'
      /\ holds_field self w' match out with Some o => o | None => next w end g)
  /\ (exists w' g,
      flat self m out w = (Ok match out with Some o => o | None => next w end, w')
      /\ wf w' /\ scratch_ready self w'
      /\ holds_field self w' match out with Some o => o | None => next w end g)
  /\ (forall ops, exists r w' g,
      chain self ops m w = (Ok r, w')
      /\ wf w' /\ scratch_ready self w' /\ holds_field self w' r g).
Proof.
  rewrite (init_metric2 _ _ _ _ _ _ _ _ _ _ Hinit) in *.
  split; [|split].
  - destruct (sharp_run Nb W H al be ga prec _ m out w f Hwf Hscratch Hm Hout)
      as (w' & am & af & ao & _ & _ & _ & Hrun & Hwf' & Hs' & Hr').
    eauto 6.
  - destruct (flat_run Nb W H al be ga prec _ m out w f Hwf Hscratch Hm Hout)
      as (w' & am & af & ao & _ & _ & _ & Hrun & Hwf' & Hs' & Hr').
    eauto 6.
  - intros ops. eapply chain_run; eassumption.
Qed.

Lemma sharp_flat_2d_accept_witness :
  wf world22 /\ scratch_ready metric22 world22
  /\ holds_field metric22 world22 5 (fun _ => 1%R)
  /\ usable_out metric22 world22 None
  /\ (exists w' g,
        sharp metric22 5 None world22 = (Ok (next world22), w')
        /\ wf w' /\ scratch_ready metric22 w'
        /\ holds_field metric22 w' (next world22) g)
  /\ (exists w' g,
        flat metric22 5 None world22 = (Ok (next world22), w')
        /\ wf w' /\ scratch_ready metric22 w'
        /\ holds_field metric22 w' (next world22) g)
  /\ (forall ops, exists r w' g,
        chain metric22 ops 5 world22 = (Ok r, w')
        /\ wf w' /\ scratch_ready metric22 w' /\ holds_field metric22 w' r g).
Proof.
  split; [exact wf_world22|]. split; [exact scratch_ready22|].
  split; [exact holds_field22|]. split; [exact I|].
  exact (sharp_flat_2d_accept 1 2 2 1 1 10 "double" world0 _ metric22 init22
           5%nat None world22 _ wf_world22 scratch_ready22 holds_field22 I).
Defined.

(** ** The result as a function of the input *)





(** ** Arrays keep their shape, dtype and layout *)

Lemma keeps_ret {A} (a : A) : keeps_arrays (ret a).
Proof. intros w Hwf. cbn. eauto. Qed.

Lemma keeps_raise {A} e : keeps_arrays (@raise A e).
Proof. intros w Hwf. cbn. eauto. Qed.

Lemma keeps_bind {A B} (c : M A) (k : A -> M B) :
  keeps_arrays c -> (forall a, keeps_arrays (k a)) -> keeps_arrays (bind c k).
Proof.
  intros Hc Hk w Hwf. unfold bind.
  destruct (Hc w Hwf) as (H1 & H2 & H3).
  destruct (c w) as [[a|e] w1]; cbn [snd] in *; [|auto].
  destruct (Hk a w1 H1) as (K1 & K2 & K3).
  split; [exact K1|]. split; [congruence|].
  intros l a0 Hl. destruct (H3 l a0 Hl) as (a1 & Hl1 & E1).
  destruct (K3 l a1 Hl1) as (a2 & Hl2 & E2).
  exists a2. split; [exact Hl2|congruence].
Qed.

Lemma keeps_load l : keeps_arrays (load l).
Proof. intros w Hwf. unfold load. destruct (heap w l); cbn; eauto. Qed.

Lemma keeps_assert c msg : keeps_arrays (assert c msg).
Proof. destruct c; [apply keeps_ret|apply keeps_raise]. Qed.

Lemma keeps_getitem {A} (l : list A) i : keeps_arrays (getitem l i).
Proof. unfold getitem. destruct (nth_error l i); [apply keeps_ret|apply keeps_raise]. Qed.

Lemma keeps_store_buf l b : keeps_arrays (store_buf l b).
Proof.
  intros w Hwf. unfold store_buf. destruct (heap w l) as [a|] eqn:E; cbn; [|eauto].
  split; [|split; [reflexivity|]].
  - intros l' Hl'. cbn in *. unfold upd.
    destruct (Nat.eqb_spec l' l) as [->|]; [|apply Hwf; exact Hl'].
    rewrite (Hwf l Hl') in E. discriminate.
  - intros l' a' Hl'. unfold upd.
    destruct (Nat.eqb_spec l' l) as [->|]; [|eauto].
    exists (with_buf a b). split; [reflexivity|].
    rewrite E in Hl'. inversion Hl'; subst. reflexivity.
Qed.

Lemma keeps_alloc a : keeps_arrays (alloc a).
Proof.
  intros w Hwf. unfold alloc. cbn. split; [|split; [reflexivity|]].
  - intros l Hl. cbn in *. unfold upd.
    destruct (Nat.eqb_spec l (next w)); [lia|]. apply Hwf. lia.
  - intros l a' Hl. unfold upd.
    destruct (Nat.eqb_spec l (next w)) as [->|]; [|eauto].
    rewrite (Hwf (next w) (Nat.le_refl _)) in Hl. discriminate.
Qed.

Lemma keeps_log_copy x y : keeps_arrays (log_copy x y).
Proof. intros w Hwf. cbn. eauto. Qed.

Ltac keeps_step :=
  first [ apply keeps_bind; [|intros ?]
        | apply keeps_load | apply keeps_assert | apply keeps_getitem
        | apply keeps_store_buf | apply keeps_alloc | apply keeps_log_copy
        | apply keeps_ret | apply keeps_raise
        | match goal with |- keeps_arrays (match ?x with _ => _ end) => destruct x end
        | match goal with |- keeps_arrays (if ?x then _ else _) => destruct x end ].

Lemma keeps_empty_like l : keeps_arrays (gpuarray_empty_like l).
Proof. unfold gpuarray_empty_like. repeat keeps_step. Qed.

Lemma keeps_astype l d : keeps_arrays (astype l d).
Proof. unfold astype. repeat keeps_step. Qed.

Lemma keeps_fft x y p s : keeps_arrays (fft x y p s).
Proof. unfold fft. repeat keeps_step. Qed.

Lemma keeps_ifft x y p s : keeps_arrays (ifft x y p s).
Proof. unfold ifft. repeat keeps_step. Qed.

Lemma keeps_operator_fourier self Fm inv : keeps_arrays (operator_fourier self Fm inv).
Proof. unfold operator_fourier, operator_2d. repeat keeps_step. Qed.

Lemma keeps_apply_metric self m o inv s1 s2 :
  keeps_arrays (apply_metric self m o inv s1 s2).
Proof.
  unfold apply_metric.
  repeat first [apply keeps_fft | apply keeps_ifft | apply keeps_operator_fourier
               | keeps_step].
Qed.

Lemma keeps_sharp self m out : keeps_arrays (sharp self m out).
Proof.
  unfold sharp.
  repeat first [apply keeps_fft | apply keeps_ifft | apply keeps_operator_fourier
               | apply keeps_empty_like | keeps_step].
Qed.

Lemma keeps_flat self m out : keeps_arrays (flat self m out).
Proof.
  unfold flat.
  repeat first [apply keeps_fft | apply keeps_ifft | apply keeps_operator_fourier
               | apply keeps_empty_like | apply keeps_astype | keeps_step].
Qed.

Lemma apply_metric_ok self m o inv s1 s2 w r w' :
  apply_metric self m o inv s1 s2 w = (Ok r, w') -> r = o.
Proof.
  unfold apply_metric. intros H.
  apply bind_ok in H. destruct H as (u1 & w1 & _ & H).
  apply bind_ok in H. destruct H as (u2 & w2 & _ & H).
  apply bind_ok in H. destruct H as (u3 & w3 & _ & H).
  inversion H. reflexivity.
Qed.

Lemma empty_like_ok m w o w1 :
  gpuarray_empty_like m w = (Ok o, w1) ->
  exists am, heap w m = Some am /\ o = next w
             /\ heap w1 o = Some (mkArr (a_shape am) (a_dtype am) (c_contiguous am)
                                        (zero_buf (a_dtype am))).
Proof.
  unfold gpuarray_empty_like. intros H.
  apply bind_ok in H. destruct H as (am & w0 & Hl & H).
  apply load_ok in Hl. destruct Hl as [Hm ->].
  inversion H; subst. exists am. split; [exact Hm|]. split; [reflexivity|].
  cbn. unfold upd. rewrite Nat.eqb_refl. reflexivity.
Qed.

(** The array a call allocates for its result is like the input. *)
Lemma fresh_output_like self m w r w' (rest : loc -> M loc) am :
  wf w -> heap w m = Some am ->
  (forall o, keeps_arrays (rest o)) ->
  (forall o v r' v', rest o v = (Ok r', v') -> r' = o) ->
  (am0 <- load m ;;
   assert (c_contiguous am0) "Momentum array must be contiguous" ;;;
   af <- load (Fv self) ;;
   assert (c_contiguous af) "Fv must be contiguous" ;;;
   o <- gpuarray_empty_like m ;;
   rest o) w = (Ok r, w') ->
  r = next w /\ exists ar, heap w' r = Some ar /\ meta ar = meta am.
Proof.
  intros Hwf Hm Hkeep Hret H.
  apply bind_ok in H. destruct H as (am0 & w1 & H1 & H).
  apply load_ok in H1. destruct H1 as [_ ->].
  apply bind_ok in H. destruct H as (u & w1 & H1 & H).
  apply assert_ok in H1. destruct H1 as [_ ->].
  apply bind_ok in H. destruct H as (af & w1 & H1 & H).
  apply load_ok in H1. destruct H1 as [_ ->].
  apply bind_ok in H. destruct H as (u' & w1 & H1 & H).
  apply assert_ok in H1. destruct H1 as [_ ->].
  apply bind_ok in H. destruct H as (o & w1 & H1 & H).
  pose proof (keeps_empty_like m w Hwf) as (Hwf1 & _ & _).
  rewrite H1 in Hwf1. cbn [snd] in Hwf1.
  apply empty_like_ok in H1. destruct H1 as (am1 & Hm1 & -> & Ho).
  assert (am1 = am) by congruence. subst am1.
  pose proof (Hret _ _ _ _ H) as ->. split; [reflexivity|].
  destruct (Hkeep (next w) w1 Hwf1) as (_ & _ & K).
  rewrite H in K. cbn [snd] in K.
  destruct (K _ _ Ho) as (ar & Har & E). exists ar. split; [exact Har|].
  rewrite E. reflexivity.
Qed.

(** X6: a call of [sharp] or [flat], whether it returns or raises, never
    prints, never reuses an address and never removes, reshapes, retypes or
    re-lays-out an array: every array that existed before the call exists
    afterwards with the same shape, dtype and contiguity flag (only contents
    change).  When [out] is omitted and the call returns, the returned array
    is the array at the first free address and has the shape, dtype and flag
    of the input array, not the dtype of the instance. *)
Theorem sharp_flat_keep_arrays (self : FluidMetric) (m : loc) (out : option loc)
    (w : world) (Hwf : wf w) :
  keeps_arrays (sharp self m out) /\ keeps_arrays (flat self m out)
  /\ (forall r w' am,
         sharp self m None w = (Ok r, w') -> heap w m = Some am ->
         r = next w /\ exists ar, heap w' r = Some ar /\ meta ar = meta am)
  /\ (forall r w' am,
         flat self m None w = (Ok r, w') -> heap w m = Some am ->
         r = next w /\ exists ar, heap w' r = Some ar /\ meta ar = meta am).
Proof.
  split; [apply keeps_sharp|]. split; [apply keeps_flat|]. split.
  - intros r w' am H Hm.
    apply (fresh_output_like self m w r w'
             (fun o => apply_metric self m o true true false) am Hwf Hm);
      [intros o; apply keeps_apply_metric
      |intros o v r' v'; apply apply_metric_ok
      |exact H].
  - intros r w' am H Hm.
    apply (fresh_output_like self m w r w'
             (fun o => m' <- astype m (dtype self) ;;
                       apply_metric self m' o false false true) am Hwf Hm);
      [intros o; apply keeps_bind; [apply keeps_astype|intros m'; apply keeps_apply_metric]
      |intros o v r' v' Hr; apply bind_ok in Hr;
       destruct Hr as (m' & v1 & _ & Hr); eapply apply_metric_ok; exact Hr
      |exact H].
Qed.

Lemma sharp_flat_keep_arrays_witness :
  wf world22
  /\ keeps_arrays (sharp metric22 5 None) /\ keeps_arrays (flat metric22 5 None)
  /\ (forall r w' am,
         sharp metric22 5 None world22 = (Ok r, w') -> heap world22 5%nat = Some am ->
         r = next world22 /\ exists ar, heap w' r = Some ar /\ meta ar = meta am)
  /\ (forall r w' am,
         flat metric22 5 None world22 = (Ok r, w') -> heap world22 5%nat = Some am ->
         r = next world22 /\ exists ar, heap w' r = Some ar /\ meta ar = meta am).
Proof.
  exact (conj wf_world22 (sharp_flat_keep_arrays metric22 5%nat None world22 wf_world22)).
Defined.

(** ** The dagger operators of [AdjRep] *)

Section Dagger.
Variable jacobian_times_vectorfield : Field -> Field -> bool -> Field.
Variable divergence : Field -> Field.
Variable interp_def : Field -> Field -> Field.
Variable self : AdjRep.
Variable metric : Metric.
Variable Inv : world -> Prop.
Variables S F : Field -> Field.
Hypothesis Hmetric : functional_metric Inv metric S F.

Lemma ad_dagger_functional x y w :
  Inv w ->
  exists w', ad_dagger jacobian_times_vectorfield divergence self x y metric w
             = (Ok (S (ad_star jacobian_times_vectorfield divergence self x (F y))), w')
             /\ Inv w'.
Proof.
  intros Hw. unfold ad_dagger.
  destruct (Hmetric y w Hw) as [_ (w1 & H1 & Hw1)].
  rewrite (bind_run _ _ _ _ _ H1).
  destruct (Hmetric (ad_star jacobian_times_vectorfield divergence self x (F y))
              w1 Hw1) as [(w2 & H2 & Hw2) _].
  exists w2. split; assumption.
Qed.


Lemma sym_functional x y w :
  Inv w ->
  exists w', sym jacobian_times_vectorfield divergence self x y metric w
             = (Ok (fneg (fadd
                   (S (ad_star jacobian_times_vectorfield divergence self x (F y)))
                   (S (ad_star jacobian_times_vectorfield divergence self y (F x))))),
                w')
             /\ Inv w'.
Proof.
  intros Hw. unfold sym.
  destruct (ad_dagger_functional x y w Hw) as (w1 & H1 & Hw1).
  rewrite (bind_run _ _ _ _ _ H1).
  destruct (ad_dagger_functional y x w1 Hw1) as (w2 & H2 & Hw2).
  rewrite (bind_run _ _ _ _ _ H2).
  exists w2. split; [reflexivity|assumption].
Qed.

Lemma sym_dagger_functional x y w :
  Inv w ->
  exists w', sym_dagger jacobian_times_vectorfield divergence self x y metric w
             = (Ok (fsub
                   (S (ad_star jacobian_times_vectorfield divergence self y (F x)))
                   (ad jacobian_times_vectorfield self x y)),
                w')
             /\ Inv w'.
Proof.
  intros Hw. unfold sym_dagger.
  destruct (ad_dagger_functional y x w Hw) as (w1 & H1 & Hw1).
  rewrite (bind_run _ _ _ _ _ H1).
  exists w1. split; [reflexivity|assumption].
Qed.
End Dagger.

(** X7: [sym] is symmetric in its two field arguments.  For a metric whose
    [sharp] and [flat] return in every admissible state, with results that
    depend on the argument alone, [sym(x, y, metric)] and
    [sym(y, x, metric)] both return, and they return the same field,
    although the two calls of [ad_dagger] are made in the opposite order. *)
Theorem sym_symmetric
    (jacobian_times_vectorfield : Field -> Field -> bool -> Field)
    (divergence : Field -> Field) (self : AdjRep)
    (metric : Metric) (Inv : world -> Prop) (S F : Field -> Field)
    (Hmetric : functional_metric Inv metric S F) (x y : Field) (w : world)
    (Hw : Inv w) :
  exists a b w1 w2,
    sym jacobian_times_vectorfield divergence self x y metric w = (Ok a, w1)
    /\ sym jacobian_times_vectorfield divergence self y x metric w = (Ok b, w2)
    /\ forall idx, a idx = b idx.
Proof.
  destruct (sym_functional jacobian_times_vectorfield divergence self metric Inv S F
              Hmetric x y w Hw) as (w1 & H1 & _).
  destruct (sym_functional jacobian_times_vectorfield divergence self metric Inv S F
              Hmetric y x w Hw) as (w2 & H2 & _).
  do 4 eexists. split; [exact H1|]. split; [exact H2|].
  intros idx. unfold fneg, fadd. lra.
Qed.

(** X8: [sym] is minus the symmetrised [sym_dagger].  For a metric whose
    [sharp] and [flat] return in every admissible state, with results that
    depend on the argument alone,
    [sym_dagger(x, y) + sym_dagger(y, x) = -sym(x, y)]: the two [ad] terms
    cancel, whatever the Jacobian-vector product is; in particular
    [sym_dagger(x, x)] is [ad_dagger(x, x)]. *)
Theorem sym_dagger_symmetrised
    (jacobian_times_vectorfield : Field -> Field -> bool -> Field)
    (divergence : Field -> Field) (self : AdjRep)
    (metric : Metric) (Inv : world -> Prop) (S F : Field -> Field)
    (Hmetric : functional_metric Inv metric S F) (x y : Field) (w : world)
    (Hw : Inv w) :
  (exists a b c w1 w2 w3,
      sym_dagger jacobian_times_vectorfield divergence self x y metric w = (Ok a, w1)
      /\ sym_dagger jacobian_times_vectorfield divergence self y x metric w = (Ok b, w2)
      /\ sym jacobian_times_vectorfield divergence self x y metric w = (Ok c, w3)
      /\ forall idx, (a idx + b idx = - c idx)%R)
  /\ (exists a b w1 w2,
      sym_dagger jacobian_times_vectorfield divergence self x x metric w = (Ok a, w1)
      /\ ad_dagger jacobian_times_vectorfield divergence self x x metric w = (Ok b, w2)
      /\ forall idx, a idx = b idx).
Proof.
  split.
  - destruct (sym_dagger_functional jacobian_times_vectorfield divergence self metric
                Inv S F Hmetric x y w Hw) as (w1 & H1 & _).
    destruct (sym_dagger_functional jacobian_times_vectorfield divergence self metric
                Inv S F Hmetric y x w Hw) as (w2 & H2 & _).
    destruct (sym_functional jacobian_times_vectorfield divergence self metric Inv S F
                Hmetric x y w Hw) as (w3 & H3 & _).
    do 6 eexists. split; [exact H1|]. split; [exact H2|]. split; [exact H3|].
    intros idx. unfold fneg, fadd, fsub, ad, fsub. lra.
  - destruct (sym_dagger_functional jacobian_times_vectorfield divergence self metric
                Inv S F Hmetric x x w Hw) as (w1 & H1 & _).
    destruct (ad_dagger_functional jacobian_times_vectorfield divergence self metric
                Inv S F Hmetric x x w Hw) as (w2 & H2 & _).
    do 4 eexists. split; [exact H1|]. split; [exact H2|].
    intros idx. unfold fsub, ad, fsub. lra.
Qed.

(** ** A [FluidMetric] as the metric of [AdjRep] *)

Lemma contents_run l w a f :
  heap w l = Some a -> a_buf a = RealBuf f -> contents l w = (Ok f, w).
Proof.
  intros Hl Hb. unfold contents.
  rewrite (bind_run _ _ _ _ _ (load_run _ _ _ Hl)). rewrite Hb. reflexivity.
Qed.

(** Passing a field to the metric: the array is fresh, contiguous and real. *)
Lemma alloc_field self f w :
  ready self w -> is_complex (dtype self) = false ->
  exists w1,
    alloc (field_array self f) w = (Ok (next w), w1)
    /\ ready self w1
    /\ holds_field self w1 (next w) (maskR (shape self) f)
    /\ heap w1 (next w) = Some (field_array self f).
Proof.
  intros [Hwf Hs] Hd. exists (snd (alloc (field_array self f) w)).
  split; [reflexivity|].
  assert (Hsame : forall l, (l < next w)%nat ->
            heap (snd (alloc (field_array self f) w)) l = heap w l).
  { intros l Hl. cbn. unfold upd.
    destruct (Nat.eqb_spec l (next w)); [lia|reflexivity]. }
  assert (Hnew : heap (snd (alloc (field_array self f) w)) (next w)
                 = Some (field_array self f)).
  { cbn. unfold upd. rewrite Nat.eqb_refl. reflexivity. }
  split; [split|split].
  - intros l Hl. cbn in Hl |- *. unfold upd.
    destruct (Nat.eqb_spec l (next w)); [lia|]. apply Hwf. lia.
  - eapply scratch_ready_mono; eauto.
  - exists (field_array self f). split; [exact Hnew|].
    repeat split; auto.
  - exact Hnew.
Qed.

(** The data of a call depends on the arrays only through their shapes. *)
Lemma result2_shapes Nb W H al be ga prec fv prec' fv' inv s1 s2
    am af ao am' af' ao' f :
  a_shape am = a_shape am' -> a_shape af = a_shape af' ->
  a_shape ao = a_shape ao' ->
  result2 Nb W H al be ga prec fv inv s1 s2 am af ao f
  = result2 Nb W H al be ga prec' fv' inv s1 s2 am' af' ao' f.
Proof.
  intros Hm Hf Ho. unfold result2, ifft_data, fft_data, lead, scale_of.
  rewrite Hm, Hf, Ho. reflexivity.
Qed.

Lemma as_metric_functional Nb W H al be ga prec fv :
  functional_metric (ready (metric2 Nb W H al be ga prec fv))
    (as_metric (metric2 Nb W H al be ga prec fv))
    (field2 Nb W H al be ga true) (field2 Nb W H al be ga false).
Proof.
  intros f w Hw.
  destruct (alloc_field _ f w Hw (dtype_of_real Nb W H al be ga prec fv))
    as (w1 & Hrun1 & [Hwf1 Hs1] & Hm1 & _).
  split.
  - destruct (sharp_run Nb W H al be ga prec fv (next w) None w1 _ Hwf1 Hs1 Hm1 I)
      as (w' & am & af & ao & Ham & Haf & Hao & Hrun & Hwf' & Hs' & Hr).
    exists w'. split; [|split; assumption].
    cbn [as_metric metric_sharp].
    rewrite (bind_run _ _ _ _ _ Hrun1), (bind_run _ _ _ _ _ Hrun).
    destruct Hr as (ar & Har & _ & _ & _ & Hbuf).
    rewrite (contents_run _ _ _ _ Har Hbuf). f_equal. f_equal.
    unfold field2. apply result2_shapes; assumption.
  - destruct (flat_run Nb W H al be ga prec fv (next w) None w1 _ Hwf1 Hs1 Hm1 I)
      as (w' & am & af & ao & Ham & Haf & Hao & Hrun & Hwf' & Hs' & Hr).
    exists w'. split; [|split; assumption].
    cbn [as_metric metric_flat].
    rewrite (bind_run _ _ _ _ _ Hrun1), (bind_run _ _ _ _ _ Hrun).
    destruct Hr as (ar & Har & _ & _ & _ & Hbuf).
    rewrite (contents_run _ _ _ _ Har Hbuf). f_equal. f_equal.
    unfold field2. apply result2_shapes; assumption.
Qed.

Lemma ready22 : ready metric22 world22.
Proof. split; [exact wf_world22|exact scratch_ready22]. Qed.


Lemma sym_symmetric_witness :
  functional_metric (ready metric22) (as_metric metric22)
    (field2 1 2 2 1 1 10 true) (field2 1 2 2 1 1 10 false)
  /\ ready metric22 world22
  /\ exists a b w1 w2,
       sym (jtv 2 (central_diff [2; 2]%nat)) (div 2 (central_diff [2; 2]%nat))
           (mkAdjRep (PyInt 2)) (bump 0) (bump 1) (as_metric metric22) world22
       = (Ok a, w1)
       /\ sym (jtv 2 (central_diff [2; 2]%nat)) (div 2 (central_diff [2; 2]%nat))
              (mkAdjRep (PyInt 2)) (bump 1) (bump 0) (as_metric metric22) world22
          = (Ok b, w2)
       /\ forall idx, a idx = b idx.
Proof.
  split; [exact (as_metric_functional 1 2 2 1 1 10 "double" 0)|].
  split; [exact ready22|].
  exact (sym_symmetric (jtv 2 (central_diff [2; 2]%nat))
           (div 2 (central_diff [2; 2]%nat)) (mkAdjRep (PyInt 2))
           (as_metric metric22) (ready metric22) _ _
           (as_metric_functional 1 2 2 1 1 10 "double" 0)
           (bump 0) (bump 1) world22 ready22).
Defined.

Lemma sym_dagger_symmetrised_witness :
  functional_metric (ready metric22) (as_metric metric22)
    (field2 1 2 2 1 1 10 true) (field2 1 2 2 1 1 10 false)
  /\ ready metric22 world22
  /\ exists a b c w1 w2 w3,
       sym_dagger (jtv 2 (central_diff [2; 2]%nat)) (div 2 (central_diff [2; 2]%nat))
           (mkAdjRep (PyInt 2)) (bump 0) (bump 1) (as_metric metric22) world22
       = (Ok a, w1)
       /\ sym_dagger (jtv 2 (central_diff [2; 2]%nat)) (div 2 (central_diff [2; 2]%nat))
              (mkAdjRep (PyInt 2)) (bump 1) (bump 0) (as_metric metric22) world22
          = (Ok b, w2)
       /\ sym (jtv 2 (central_diff [2; 2]%nat)) (div 2 (central_diff [2; 2]%nat))
              (mkAdjRep (PyInt 2)) (bump 0) (bump 1) (as_metric metric22) world22
          = (Ok c, w3)
       /\ forall idx, (a idx + b idx = - c idx)%R.
Proof.
  split; [exact (as_metric_functional 1 2 2 1 1 10 "double" 0)|].
  split; [exact ready22|].
  exact (proj1 (sym_dagger_symmetrised (jtv 2 (central_diff [2; 2]%nat))
           (div 2 (central_diff [2; 2]%nat)) (mkAdjRep (PyInt 2))
           (as_metric metric22) (ready metric22) _ _
           (as_metric_functional 1 2 2 1 1 10 "double" 0)
           (bump 0) (bump 1) world22 ready22)).
Defined.

(** ** The dagger operators with a 3-D [FluidMetric] *)

(** An exception of [metric.flat] leaves every dagger operator at once. *)
Lemma flat_failure_propagates
    (jacobian_times_vectorfield : Field -> Field -> bool -> Field)
    (divergence : Field -> Field) (interp_def : Field -> Field -> Field)
    (self : AdjRep) (metric : Metric) (x y phi : Field) e w w1 :
  metric_flat metric y w = (Raise e, w1) ->
  ad_dagger jacobian_times_vectorfield divergence self x y metric w = (Raise e, w1)
  /\ Ad_dagger jacobian_times_vectorfield interp_def self phi y metric w
     = (Raise e, w1)
  /\ sym jacobian_times_vectorfield divergence self x y metric w = (Raise e, w1)
  /\ sym_dagger jacobian_times_vectorfield divergence self y x metric w
     = (Raise e, w1).
Proof.
  intros H.
  assert (H1 : ad_dagger jacobian_times_vectorfield divergence self x y metric w
               = (Raise e, w1))
    by (unfold ad_dagger; apply bind_raise; exact H).
  split; [exact H1|]. split; [unfold Ad_dagger; apply bind_raise; exact H|].
  split; [unfold sym|unfold sym_dagger]; apply bind_raise; exact H1.
Qed.

Lemma flat_unavailable_in_3d sh al be ga prec fv f w :
  rank sh = 3%Z -> ready (instance_of sh al be ga prec fv) w ->
  exists w', metric_flat (as_metric (instance_of sh al be ga prec fv)) f w
             = (Raise NotImplementedError, w').
Proof.
  intros Hr Hw. set (self := instance_of sh al be ga prec fv) in *.
  assert (Hd : is_complex (dtype self) = false)
    by (apply (dtypes_of_kinds prec)).
  destruct (alloc_field self f w Hw Hd) as (w1 & Hrun1 & [Hwf1 Hs1] & _ & Hm1).
  destruct Hs1 as (af & g & Hf & _ & Hfc & Hfb).
  destruct (unimplemented_run self (next w) None w1 (field_array self f) af _ g
              (fun Fm inv w => operator_fourier_3d sh al be ga prec fv Fm inv w Hr)
              Hwf1 Hm1 eq_refl eq_refl Hf Hfc Hfb)
    as [_ (w' & Hrun & _)].
  exists w'. cbn [as_metric metric_flat].
  rewrite (bind_run _ _ _ _ _ Hrun1). apply bind_raise. exact Hrun.
Qed.

(** X9: with a [FluidMetric] of spatial rank 3 as the metric, the dagger
    operators of [AdjRep] are unavailable: in every state where the scratch
    spectrum is in place, [ad_dagger], [Ad_dagger], [sym] and [sym_dagger]
    raise [NotImplementedError] for all fields, because the first thing each
    of them does is [metric.flat]. *)
Theorem dagger_unavailable_in_3d
    (jacobian_times_vectorfield : Field -> Field -> bool -> Field)
    (divergence : Field -> Field) (interp_def : Field -> Field -> Field)
    (adj : AdjRep) (sh : list Z) (al be ga : R) (prec : string)
    (w0 w1 : world) (self : FluidMetric)
    (Hinit : FluidMetric_init sh al be ga prec w0 = (Ok self, w1))
    (Hdim : dim self = 3%Z)
    (x y phi : Field) (w : world) (Hw : ready self w) :
  (exists w', ad_dagger jacobian_times_vectorfield divergence adj x y
                (as_metric self) w = (Raise NotImplementedError, w'))
  /\ (exists w', Ad_dagger jacobian_times_vectorfield interp_def adj phi y
                   (as_metric self) w = (Raise NotImplementedError, w'))
  /\ (exists w', sym jacobian_times_vectorfield divergence adj x y
                   (as_metric self) w = (Raise NotImplementedError, w'))
  /\ (exists w', sym_dagger jacobian_times_vectorfield divergence adj x y
                   (as_metric self) w = (Raise NotImplementedError, w')).
Proof.
  destruct (init_ok _ _ _ _ _ _ _ _ Hinit) as (_ & -> & _).
  cbn [dim instance_of] in Hdim.
  destruct (flat_unavailable_in_3d sh al be ga prec (next w0) y w Hdim Hw)
    as [wy Hy].
  destruct (flat_unavailable_in_3d sh al be ga prec (next w0) x w Hdim Hw)
    as [wx Hx].
  destruct (flat_failure_propagates jacobian_times_vectorfield divergence
              interp_def adj _ x y phi _ _ _ Hy) as (H1 & H2 & H3 & _).
  destruct (flat_failure_propagates jacobian_times_vectorfield divergence
              interp_def adj _ y x phi _ _ _ Hx) as (_ & _ & _ & H4).
  split; [exists wy; exact H1|]. split; [exists wy; exact H2|].
  split; [exists wy; exact H3|exists wx; exact H4].
Qed.

Lemma ready222 : ready metric222 world222.
Proof.
  split.
  - unfold world222. cbn zeta. apply wf_alloc, wf_after_init, wf_world0.
  - eexists; eexists. repeat split; reflexivity.
Qed.

Lemma dagger_unavailable_in_3d_witness :
  exists self w1,
    FluidMetric_init [1; 3; 2; 2; 2]%Z 1 1 10 "double" world0 = (Ok self, w1)
    /\ dim self = 3%Z /\ ready self world222
    /\ (exists w', ad_dagger (jtv 3 (central_diff [2; 2; 2]%nat))
                     (div 3 (central_diff [2; 2; 2]%nat)) (mkAdjRep (PyInt 3))
                     fzero fzero (as_metric self) world222
                   = (Raise NotImplementedError, w')).
Proof.
  exists metric222, (world_after_init [1; 3; 2; 2; 2]%Z "double" world0).
  assert (H : FluidMetric_init [1; 3; 2; 2; 2]%Z 1 1 10 "double" world0
              = (Ok metric222, world_after_init [1; 3; 2; 2; 2]%Z "double" world0)).
  { rewrite init_unfold. reflexivity. }
  split; [exact H|]. split; [reflexivity|]. split; [exact ready222|].
  exact (proj1 (dagger_unavailable_in_3d (jtv 3 (central_diff [2; 2; 2]%nat))
                  (div 3 (central_diff [2; 2; 2]%nat)) (fun m _ => m)
                  (mkAdjRep (PyInt 3)) _ _ _ _ _ _ _ _ H eq_refl
                  fzero fzero fzero world222 ready222)).
Defined.

(** ** The dagger operators with a 2-D [FluidMetric] *)





(** ** The coadjoint actions are linear *)

Lemma jtv_transpose_bilinear d partial :
  linear_partial partial -> bilinear (fun a b => jtv d partial a b true).
Proof.
  intros [Hadd Hscal]. unfold bilinear, jtv. repeat split; intros.
  - destruct idx as [|n [|i x]]; try lra.
    rewrite <- Rsum_plus. apply Rsum_ext. intros j _.
    rewrite (Hadd i (comp a j) (comp b j)); [lra|].
    intros [|n' x']; cbn; unfold fadd; lra.
  - destruct idx as [|n [|i x]]; try lra.
    rewrite <- Rsum_scal. apply Rsum_ext. intros j _.
    rewrite (Hscal i c (comp a j)); [lra|].
    intros [|n' x']; cbn; unfold fscal; lra.
  - destruct idx as [|n [|i x]]; try lra.
    rewrite <- Rsum_plus. apply Rsum_ext. intros j _. unfold fadd. lra.
  - destruct idx as [|n [|i x]]; try lra.
    rewrite <- Rsum_scal. apply Rsum_ext. intros j _. unfold fscal. lra.
Qed.

Lemma div_linear d partial : linear_partial partial -> linear_map (div d partial).
Proof.
  intros [Hadd Hscal]. unfold linear_map, div. split; intros.
  - rewrite <- Rsum_plus. apply Rsum_ext. intros j _.
    apply (Hadd j (comp a j) (comp b j)).
    intros [|n' x']; cbn; unfold fadd; lra.
  - rewrite <- Rsum_scal. apply Rsum_ext. intros j _.
    apply (Hscal j c (comp a j)).
    intros [|n' x']; cbn; unfold fscal; lra.
Qed.

(** X11: the coadjoint actions are linear.  [ad_star(v, m)] is bilinear in
    the velocity and the momentum whenever the Jacobian-vector product is
    bilinear in both of its modes and the divergence is linear; and
    [Ad_star(phi, m)] is linear in the momentum whenever, in addition, the
    interpolation [interp_def(m, phi)] is linear in [m]. *)
Theorem ad_star_bilinear
    (jacobian_times_vectorfield : Field -> Field -> bool -> Field)
    (divergence : Field -> Field) (self : AdjRep)
    (Hjtv : bilinear (fun a b => jacobian_times_vectorfield a b false))
    (Hjtv' : bilinear (fun a b => jacobian_times_vectorfield a b true))
    (Hdiv : linear_map divergence) :
  bilinear (ad_star jacobian_times_vectorfield divergence self)
  /\ (forall (interp_def : Field -> Field -> Field) (phi : Field),
         linear_map (fun m => interp_def m phi) ->
         linear_map (Ad_star jacobian_times_vectorfield interp_def self phi)).
Proof.
  destruct Hjtv as (Hal & Hsl & Har & Hsr).
  destruct Hjtv' as (Hal' & Hsl' & Har' & Hsr').
  destruct Hdiv as (Hda & Hds).
  split.
  - assert (Hat : forall v m idx,
              ad_star jacobian_times_vectorfield divergence self v m idx
              = (jacobian_times_vectorfield v m true idx
                 + jacobian_times_vectorfield m v false idx
                 + m idx * expand_dims1 (divergence v) idx)%R) by reflexivity.
    unfold bilinear. repeat split; intros; rewrite !Hat.
    + rewrite Hal', Har. unfold expand_dims1.
      destruct idx as [|n [|i x]]; try lra. rewrite Hda. lra.
    + rewrite Hsl', Hsr. unfold expand_dims1.
      destruct idx as [|n [|i x]]; try lra. rewrite Hds. lra.
    + rewrite Har', Hal. unfold fadd. lra.
    + rewrite Hsr', Hsl. unfold fscal. lra.
  - intros interp_def phi (Hia & His). unfold linear_map, Ad_star. split; intros.
    + replace (interp_def (fadd a b) phi)
        with (fadd (interp_def a phi) (interp_def b phi))
        by (apply functional_extensionality; intros i; symmetry; apply Hia).
      apply Har.
    + replace (interp_def (fscal c a) phi) with (fscal c (interp_def a phi))
        by (apply functional_extensionality; intros i; symmetry; apply His).
      apply Hsr.
Qed.

Lemma ad_star_bilinear_witness :
  bilinear (fun a b => jtv 2 (central_diff [4; 4]%nat) a b false)
  /\ bilinear (fun a b => jtv 2 (central_diff [4; 4]%nat) a b true)
  /\ linear_map (div 2 (central_diff [4; 4]%nat))
  /\ bilinear (ad_star (jtv 2 (central_diff [4; 4]%nat))
                 (div 2 (central_diff [4; 4]%nat)) (mkAdjRep (PyInt 2))).
Proof.
  split; [exact (jtv_bilinear 2 _ (central_diff_linear [4; 4]%nat))|].
  split; [exact (jtv_transpose_bilinear 2 _ (central_diff_linear [4; 4]%nat))|].
  split; [exact (div_linear 2 _ (central_diff_linear [4; 4]%nat))|].
  exact (proj1 (ad_star_bilinear (jtv 2 (central_diff [4; 4]%nat))
                  (div 2 (central_diff [4; 4]%nat)) (mkAdjRep (PyInt 2))
                  (jtv_bilinear 2 _ (central_diff_linear [4; 4]%nat))
                  (jtv_transpose_bilinear 2 _ (central_diff_linear [4; 4]%nat))
                  (div_linear 2 _ (central_diff_linear [4; 4]%nat)))).
Defined.

(** ** [sharp] and [flat] are linear *)







(** ** [flat] on spatially constant fields *)






(** ** Two instances side by side *)

(** X14: two instances never share their scratch spectrum.  When a second
    [FluidMetric] is constructed after a first one, the two [Fv] arrays are
    different arrays, and from then on no call of [sharp] or [flat] on one
    instance, whether it returns or raises, changes the scratch spectrum of
    the other, unless that array is handed in as [out]. *)
Theorem instances_independent (sh1 sh2 : list Z) (al1 be1 ga1 al2 be2 ga2 : R)
    (prec1 prec2 : string) (w0 w1 w2 : world) (self1 self2 : FluidMetric)
    (Hinit1 : FluidMetric_init sh1 al1 be1 ga1 prec1 w0 = (Ok self1, w1))
    (Hinit2 : FluidMetric_init sh2 al2 be2 ga2 prec2 w1 = (Ok self2, w2)) :
  Fv self1 <> Fv self2
  /\ forall m out w,
       (next w2 <= next w)%nat ->
       (out <> Some (Fv self1) ->
          heap (snd (sharp self2 m out w)) (Fv self1) = heap w (Fv self1)
          /\ heap (snd (flat self2 m out w)) (Fv self1) = heap w (Fv self1))
       /\ (out <> Some (Fv self2) ->
          heap (snd (sharp self1 m out w)) (Fv self2) = heap w (Fv self2)
          /\ heap (snd (flat self1 m out w)) (Fv self2) = heap w (Fv self2)).
Proof.
  destruct (init_ok _ _ _ _ _ _ _ _ Hinit1) as (_ & E1 & E1').
  destruct (init_ok _ _ _ _ _ _ _ _ Hinit2) as (_ & E2 & E2').
  assert (F1 : Fv self1 = next w0) by (rewrite E1; reflexivity).
  assert (F2 : Fv self2 = next w1) by (rewrite E2; reflexivity).
  assert (N1 : (next w0 < next w1)%nat).
  { pose proof (world_after_init_facts sh1 prec1 w0) as F. cbn zeta in F.
    destruct F as (_ & _ & F & _). rewrite E1', F. lia. }
  assert (N2 : (next w1 < next w2)%nat).
  { pose proof (world_after_init_facts sh2 prec2 w1) as F. cbn zeta in F.
    destruct F as (_ & _ & F & _). rewrite E2', F. lia. }
  split; [lia|]. intros m out w Hle.
  assert (Hfr : forall (self other : FluidMetric) (call : M loc),
             frame (next w) (touched self out) (returned (next w) out) call ->
             (Fv other < next w)%nat -> Fv other <> Fv self ->
             out <> Some (Fv other) ->
             heap (snd (call w)) (Fv other) = heap w (Fv other)).
  { intros self other call Hframe Hlt Hne Hout.
    destruct (Hframe w (Nat.le_refl _)) as (_ & Hh & _).
    apply Hh; [exact Hlt|]. unfold touched. intros [E|E]; [exact (Hne E)|exact (Hout E)]. }
  split; intros Hout; split.
  - apply (Hfr self2 self1); [apply frame_sharp|lia|lia|exact Hout].
  - apply (Hfr self2 self1); [apply frame_flat|lia|lia|exact Hout].
  - apply (Hfr self1 self2); [apply frame_sharp|lia|lia|exact Hout].
  - apply (Hfr self1 self2); [apply frame_flat|lia|lia|exact Hout].
Qed.

Lemma instances_independent_witness :
  exists self1 w1 self2 w2,
    FluidMetric_init [1; 2; 2; 2]%Z 1 1 10 "double" world0 = (Ok self1, w1)
    /\ FluidMetric_init [1; 2; 4; 4]%Z 0 0 1 "single" w1 = (Ok self2, w2)
    /\ Fv self1 <> Fv self2
    /\ forall m out w,
         (next w2 <= next w)%nat ->
         (out <> Some (Fv self1) ->
            heap (snd (sharp self2 m out w)) (Fv self1) = heap w (Fv self1)
            /\ heap (snd (flat self2 m out w)) (Fv self1) = heap w (Fv self1))
         /\ (out <> Some (Fv self2) ->
            heap (snd (sharp self1 m out w)) (Fv self2) = heap w (Fv self2)
            /\ heap (snd (flat self1 m out w)) (Fv self2) = heap w (Fv self2)).
Proof.
  do 4 eexists.
  assert (H1 : FluidMetric_init [1; 2; 2; 2]%Z 1 1 10 "double" world0
               = (Ok (instance_of [1; 2; 2; 2]%Z 1 1 10 "double" 0),
                  world_after_init [1; 2; 2; 2]%Z "double" world0))
    by (rewrite init_unfold; reflexivity).
  assert (H2 : FluidMetric_init [1; 2; 4; 4]%Z 0 0 1 "single"
                 (world_after_init [1; 2; 2; 2]%Z "double" world0)
               = (Ok (instance_of [1; 2; 4; 4]%Z 0 0 1 "single" 5),
                  world_after_init [1; 2; 4; 4]%Z "single"
                    (world_after_init [1; 2; 2; 2]%Z "double" world0)))
    by (rewrite init_unfold; reflexivity).
  split; [exact H1|]. split; [exact H2|].
  exact (instances_independent _ _ _ _ _ _ _ _ _ _ _ _ _ _ _ H1 H2).
Defined.

(** ** How many arrays a call allocates *)

Lemma same_next_ret {A} (a : A) : same_next (ret a).
Proof. intros w. reflexivity. Qed.

Lemma same_next_raise {A} e : same_next (@raise A e).
Proof. intros w. reflexivity. Qed.

Lemma same_next_bind {A B} (c : M A) (k : A -> M B) :
  same_next c -> (forall a, same_next (k a)) -> same_next (bind c k).
Proof.
  intros Hc Hk w. unfold bind. specialize (Hc w).
  destruct (c w) as [[a|e] w1]; cbn [snd] in *; [|exact Hc].
  rewrite (Hk a w1). exact Hc.
Qed.

Lemma same_next_load l : same_next (load l).
Proof. intros w. unfold load. destruct (heap w l); reflexivity. Qed.

Lemma same_next_assert c msg : same_next (assert c msg).
Proof. destruct c; intros w; reflexivity. Qed.

Lemma same_next_getitem {A} (l : list A) i : same_next (getitem l i).
Proof. unfold getitem. destruct (nth_error l i); intros w; reflexivity. Qed.

Lemma same_next_store_buf l b : same_next (store_buf l b).
Proof. intros w. unfold store_buf. destruct (heap w l); reflexivity. Qed.

Ltac same_next_step :=
  first [ apply same_next_bind; [|intros ?]
        | apply same_next_load | apply same_next_assert | apply same_next_getitem
        | apply same_next_store_buf | apply same_next_ret | apply same_next_raise
        | match goal with |- same_next (match ?x with _ => _ end) => destruct x end
        | match goal with |- same_next (if ?x then _ else _) => destruct x end ].

Lemma same_next_apply_metric self m o inv s1 s2 :
  same_next (apply_metric self m o inv s1 s2).
Proof.
  unfold apply_metric, fft, ifft, operator_fourier, operator_2d.
  repeat same_next_step.
Qed.

Lemma output_next m out w o w1 :
  match out with
  | None => gpuarray_empty_like m
  | Some o => ret o
  end w = (Ok o, w1) ->
  next w1 = match out with Some _ => next w | None => S (next w) end.
Proof.
  destruct out as [o'|].
  - intros H; inversion H; reflexivity.
  - unfold gpuarray_empty_like. intros H.
    apply bind_ok in H. destruct H as (a & w0 & Hl & H).
    apply load_ok in Hl. destruct Hl as [_ ->].
    inversion H; reflexivity.
Qed.

Lemma astype_next l d w l' w1 :
  astype l d w = (Ok l', w1) -> next w1 = S (next w).
Proof.
  unfold astype. intros H.
  apply bind_ok in H. destruct H as (a & w0 & Hl & H).
  apply load_ok in Hl. destruct Hl as [_ ->].
  destruct (a_buf a); [|discriminate].
  inversion H; reflexivity.
Qed.

(** X15: how many arrays a call allocates.  A call of [sharp] that returns
    has allocated exactly one array when [out] was omitted and none when
    [out] was supplied; a call of [flat] that returns has allocated one
    array more in either case, the converted copy of its input, which it
    makes even when the input already has the dtype of the instance. *)
Theorem sharp_flat_allocations (self : FluidMetric) (m : loc) (out : option loc)
    (w w' : world) (r : loc) :
  (sharp self m out w = (Ok r, w') ->
   next w' = match out with Some _ => next w | None => S (next w) end)
  /\ (flat self m out w = (Ok r, w') ->
      next w' = match out with Some _ => S (next w) | None => S (S (next w)) end).
Proof.
  split; intros H.
  - unfold sharp in H.
    apply bind_ok in H. destruct H as (am & w1 & H1 & H).
    apply load_ok in H1. destruct H1 as [_ ->].
    apply bind_ok in H. destruct H as (u & w1 & H1 & H).
    apply assert_ok in H1. destruct H1 as [_ ->].
    apply bind_ok in H. destruct H as (af & w1 & H1 & H).
    apply load_ok in H1. destruct H1 as [_ ->].
    apply bind_ok in H. destruct H as (u' & w1 & H1 & H).
    apply assert_ok in H1. destruct H1 as [_ ->].
    apply bind_ok in H. destruct H as (o & w1 & H1 & H).
    apply output_next in H1.
    pose proof (same_next_apply_metric self m o true true false w1) as Hn.
    unfold apply_metric in Hn. rewrite H in Hn. cbn [snd] in Hn.
    rewrite Hn, H1. reflexivity.
  - unfold flat in H.
    apply bind_ok in H. destruct H as (am & w1 & H1 & H).
    apply load_ok in H1. destruct H1 as [_ ->].
    apply bind_ok in H. destruct H as (u & w1 & H1 & H).
    apply assert_ok in H1. destruct H1 as [_ ->].
    apply bind_ok in H. destruct H as (af & w1 & H1 & H).
    apply load_ok in H1. destruct H1 as [_ ->].
    apply bind_ok in H. destruct H as (u' & w1 & H1 & H).
    apply assert_ok in H1. destruct H1 as [_ ->].
    apply bind_ok in H. destruct H as (o & w1 & H1 & H).
    apply output_next in H1.
    apply bind_ok in H. destruct H as (m' & w2 & H2 & H).
    apply astype_next in H2.
    pose proof (same_next_apply_metric self m' o false false true w2) as Hn.
    unfold apply_metric in Hn. rewrite H in Hn. cbn [snd] in Hn.
    rewrite Hn, H2, H1. destruct out; reflexivity.
Qed.

Lemma sharp_flat_allocations_witness :
  exists r w' r' w'',
    sharp metric22 5 None world22 = (Ok r, w')
    /\ flat metric22 5 (Some 5%nat) world22 = (Ok r', w'')
    /\ next w' = S (next world22) /\ next w'' = S (next world22).
Proof.
  destruct (sharp_run 1 2 2 1 1 10 "double" 0 5%nat None world22 _
              wf_world22 scratch_ready22 holds_field22 I)
    as (w' & _ & _ & _ & _ & _ & _ & Hs & _).
  destruct (flat_run 1 2 2 1 1 10 "double" 0 5%nat (Some 5%nat) world22 _
              wf_world22 scratch_ready22 holds_field22
              (ex_intro _ _ holds_field22))
    as (w'' & _ & _ & _ & _ & _ & _ & Hf & _).
  exists (next world22), w', 5%nat, w''.
  split; [exact Hs|]. split; [exact Hf|]. split.
  - exact (proj1 (sharp_flat_allocations metric22 5%nat None world22 w' _) Hs).
  - exact (proj2 (sharp_flat_allocations metric22 5%nat (Some 5%nat) world22 w'' _) Hf).
Defined.

(** ** Sums over a grid and the transform *)

Lemma Cgrid_sum_ext sh : forall f g,
  (forall x, in_grid sh x -> f x = g x) -> Cgrid_sum sh f = Cgrid_sum sh g.
Proof.
  induction sh as [|N sh IH]; intros f g H; cbn; [apply H; exact I|].
  apply Csum_ext. intros i Hi. apply IH. intros x Hx. apply H. cbn. auto.
Qed.

Lemma Cgrid_sum_mul_l sh : forall c f,
  Cgrid_sum sh (fun x => Cx.mul c (f x)) = Cx.mul c (Cgrid_sum sh f).
Proof.
  induction sh as [|N sh IH]; intros c f; cbn; [reflexivity|].
  rewrite <- Csum_mul_l. apply Csum_ext. intros i _.
  apply (IH c (fun x => f (i :: x))).
Qed.

Lemma Cgrid_sum_scal sh a f :
  Cgrid_sum sh (fun x => Cx.scal a (f x)) = Cx.scal a (Cgrid_sum sh f).
Proof.
  rewrite Cscal_mul, <- Cgrid_sum_mul_l. apply Cgrid_sum_ext.
  intros x _. apply Cscal_mul.
Qed.












(** ** The pairing of a result with a field, in the frequency domain *)









(** ** The metric is positive *)

















(** ** [ad_dagger] as the adjoint of [ad] under the metric *)



